(** * JekyllTranslator: a shallow embedding of [jekyll_translator.py]

    The script walks the content directories of a Jekyll site, and for every
    Markdown file that has no translated counterpart yet it splits the file
    into front matter and body, sends the translatable front-matter fields
    and the body to an external chat-completion service, regenerates the
    slug from the translated title, prefixes the permalink with the
    destination language code and writes the result under
    [SOURCE_DIR/<code>/...].

    Python strings are sequences of Unicode code points, values are
    dynamically typed, dictionaries keep insertion order, exceptions unwind
    through every function that has no handler.  The embedding keeps all
    four: [pystr] is [list N], [pyval] is a tagged union, a [dict] is an
    association list, and effectful functions live in a state-and-exception
    monad over a [world] made of the file system, the log of requests sent
    to the service and the lines printed. *)

From Stdlib Require Import List NArith ZArith Ascii String Bool Lia DecimalString.
From stdpp Require Import gmap list.
Import ListNotations.

Local Open Scope N_scope.
Local Open Scope list_scope.

(** ** Strings *)

(** A Python [str]: a finite sequence of code points. *)
Abbreviation pystr := (list N).

Module Utf8.

(** Source literals are written as UTF-8 byte strings; [decode] turns the
    bytes into code points (well-formed input only, which is all the
    literals of this file need). *)
Fixpoint decode_bytes (fuel : nat) (bs : list N) : pystr :=
  match fuel with
  | O => []
  | S fuel' =>
    match bs with
    | [] => []
    | b0 :: r0 =>
      if b0 <? 128 then b0 :: decode_bytes fuel' r0
      else if b0 <? 224 then
        match r0 with
        | b1 :: r1 =>
          ((b0 - 192) * 64 + (b1 - 128)) :: decode_bytes fuel' r1
        | _ => []
        end
      else if b0 <? 240 then
        match r0 with
        | b1 :: b2 :: r2 =>
          ((b0 - 224) * 4096 + (b1 - 128) * 64 + (b2 - 128))
            :: decode_bytes fuel' r2
        | _ => []
        end
      else
        match r0 with
        | b1 :: b2 :: b3 :: r3 =>
          ((b0 - 240) * 262144 + (b1 - 128) * 4096 + (b2 - 128) * 64
           + (b3 - 128)) :: decode_bytes fuel' r3
        | _ => []
        end
    end
  end.

Definition decode (s : string) : pystr :=
  let bs := List.map N_of_ascii (list_ascii_of_string s) in
  decode_bytes (List.length bs) bs.

End Utf8.

(** [u "..."] is the Python literal ["..."]. *)
Abbreviation u := Utf8.decode.
Arguments Utf8.decode : simpl never.

Definition HYPHEN : N := 45.
Definition NEWLINE : N := 10.

(** ** The slice of [unicodedata] and [str] that [generate_slug] consults

    [str.lower], [unicodedata.normalize('NFD', _)] and
    [unicodedata.category] are table-driven library functions; they are
    taken as parameters.  [lower] and [normalize_NFD] act on whole strings
    (lowering has a context rule, normalisation reorders marks), the
    category test is per code point. *)
Record unicode_tables := {
  lower : pystr -> pystr;
  normalize_NFD : pystr -> pystr;
  category_is_Mn : N -> bool
}.

(** ** Pieces of [re] and [str] used on strings *)

(** The character class [[a-z0-9]]. *)
Definition is_a_z_0_9 (c : N) : bool :=
  ((97 <=? c) && (c <=? 122)) || ((48 <=? c) && (c <=? 57)).

(** [re.sub(r'[^a-z0-9]+', '-', s)]: scanning left to right, every maximal
    run of code points outside [[a-z0-9]] is one match of the greedy
    pattern and is replaced by a single hyphen.  [in_run] records that the
    previous code point already belonged to the current match. *)
Fixpoint sub_non_alnum_runs (in_run : bool) (s : pystr) : pystr :=
  match s with
  | [] => []
  | c :: s' =>
    if is_a_z_0_9 c then c :: sub_non_alnum_runs false s'
    else if in_run then sub_non_alnum_runs true s'
    else HYPHEN :: sub_non_alnum_runs true s'
  end.

(** [s.lstrip(chars)] for a set of code points given as a predicate. *)
Fixpoint lstrip (p : N -> bool) (s : pystr) : pystr :=
  match s with
  | [] => []
  | c :: s' => if p c then lstrip p s' else s
  end.

Definition rstrip (p : N -> bool) (s : pystr) : pystr :=
  rev (lstrip p (rev s)).

(** [s.strip(chars)]. *)
Definition strip (p : N -> bool) (s : pystr) : pystr :=
  rstrip p (lstrip p s).

Definition is_hyphen (c : N) : bool := c =? HYPHEN.

(** The body of [generate_slug] once [title] is known to be a [str]. *)
Definition slug_of_str (U : unicode_tables) (title : pystr) : pystr :=
  let title := lower U title in
  let title :=
    List.filter (fun c => negb (category_is_Mn U c)) (normalize_NFD U title) in
  let title := sub_non_alnum_runs false title in
  strip is_hyphen title.

(** [str.isspace] on one code point; the same set is what [\s] matches in a
    [str] pattern and what [str.strip()] removes. *)
Definition is_space (c : N) : bool :=
  ((9 <=? c) && (c <=? 13)) || ((28 <=? c) && (c <=? 32))
  || (c =? 133) || (c =? 160) || (c =? 5760)
  || ((8192 <=? c) && (c <=? 8202))
  || (c =? 8232) || (c =? 8233) || (c =? 8239) || (c =? 8287)
  || (c =? 12288).

Fixpoint startswith (prefix s : pystr) : bool :=
  match prefix, s with
  | [], _ => true
  | p :: prefix', c :: s' => (p =? c) && startswith prefix' s'
  | _ :: _, [] => false
  end.

Definition endswith (suffix s : pystr) : bool :=
  startswith (rev suffix) (rev s).

(** [needle in haystack] for two strings. *)
Fixpoint str_contains (needle haystack : pystr) : bool :=
  startswith needle haystack
  || match haystack with
     | [] => false
     | _ :: h' => str_contains needle h'
     end.

Fixpoint str_eqb (a b : pystr) : bool :=
  match a, b with
  | [], [] => true
  | x :: a', y :: b' => (x =? y) && str_eqb a' b'
  | _, _ => false
  end.

(** ** A backtracking matcher for the fragment of [re] the script uses *)
Module Re.

Inductive atom :=
| Lit (c : N)     (* a literal code point *)
| Space           (* \s *)
| Any.            (* .  under re.DOTALL *)

Inductive tok :=
| One (a : atom)       (* a       *)
| Star (a : atom)      (* a*      *)
| StarLazy (a : atom)  (* a*?     *)
| Mark.                (* ( or )  *)

Definition accepts (a : atom) (c : N) : bool :=
  match a with
  | Lit c' => c =? c'
  | Space => is_space c
  | Any => true
  end.

(** [run toks s marks] matches [toks] against a prefix of [s] the way the
    backtracking engine does: a greedy star first tries to take one more
    code point, a lazy star first tries the rest of the pattern.  Every
    [Mark] records the input that is still unread; the first complete
    match wins. *)
Fixpoint run (toks : list tok) (s : pystr) (marks : list pystr)
  : option (list pystr) :=
  match toks with
  | [] => Some (rev marks)
  | One a :: k =>
    match s with
    | c :: s' => if accepts a c then run k s' marks else None
    | [] => None
    end
  | Mark :: k => run k s (s :: marks)
  | Star a :: k =>
    (fix greedy (s : pystr) : option (list pystr) :=
       match s with
       | c :: s' =>
         if accepts a c then
           match greedy s' with
           | Some r => Some r
           | None => run k s marks
           end
         else run k s marks
       | [] => run k s marks
       end) s
  | StarLazy a :: k =>
    (fix lazy (s : pystr) : option (list pystr) :=
       match run k s marks with
       | Some r => Some r
       | None =>
         match s with
         | c :: s' => if accepts a c then lazy s' else None
         | [] => None
         end
       end) s
  end.

(** The text between two recorded positions. *)
Definition between (opened closed : pystr) : pystr :=
  firstn (List.length opened - List.length closed) opened.

Fixpoint groups (marks : list pystr) : list pystr :=
  match marks with
  | opened :: closed :: rest => between opened closed :: groups rest
  | _ => []
  end.

(** [re.match(pattern, s)]: anchored at the start of [s]; on success the
    captured groups 1, 2, ... in order. *)
Definition match_ (pattern : list tok) (s : pystr) : option (list pystr) :=
  match run pattern s [] with
  | Some marks => Some (groups marks)
  | None => None
  end.

End Re.

(** The pattern of [translate_file], compiled with [re.DOTALL]: three
    hyphens, greedy white space, a newline, group 1 (lazy, any code points),
    a newline, three hyphens, greedy white space, a newline, group 2
    (greedy, any code points). *)
Definition FRONT_MATTER_RE : list Re.tok :=
  let dash := Re.One (Re.Lit HYPHEN) in
  let nl := Re.One (Re.Lit NEWLINE) in
  [ dash; dash; dash; Re.Star Re.Space; nl;
    Re.Mark; Re.StarLazy Re.Any; Re.Mark;
    nl; dash; dash; dash; Re.Star Re.Space; nl;
    Re.Mark; Re.Star Re.Any; Re.Mark ].

(** ** Python values, exceptions and the world *)

(** The values [yaml.safe_load] can hand to the script.  Mapping keys are
    strings, as in a Jekyll front matter; the other scalar types of YAML
    (floats, dates) behave like [PyInt] everywhere in this program: they
    have no string methods and do not support [in]. *)
#[warnings="-register-all"]
Inductive pyval :=
| PyNone
| PyBool (b : bool)
| PyInt (z : Z)
| PyStr (s : pystr)
| PyList (items : list pyval)
| PyDict (entries : list (pystr * pyval)).

(** A [dict] keeps its keys in insertion order, which
    [yaml.dump(..., sort_keys=False)] then writes out; assigning to an
    existing key keeps the key's position. *)
Abbreviation dict := (list (pystr * pyval)).

Fixpoint dict_get (k : pystr) (d : dict) : option pyval :=
  match d with
  | [] => None
  | (k', v) :: d' => if str_eqb k k' then Some v else dict_get k d'
  end.

Definition dict_has (k : pystr) (d : dict) : bool :=
  match dict_get k d with Some _ => true | None => false end.

Fixpoint dict_set (k : pystr) (v : pyval) (d : dict) : dict :=
  match d with
  | [] => [(k, v)]
  | (k', v') :: d' =>
    if str_eqb k k' then (k', v) :: d' else (k', v') :: dict_set k v d'
  end.

Definition dict_keys (d : dict) : list pystr := List.map fst d.

Inductive exn :=
| TypeError
| AttributeError
| KeyError
| ValueError
| OSError
| YAMLError.

Inductive result (A : Type) :=
| Ok (a : A)
| Raise (e : exn).
Arguments Ok {A} a.
Arguments Raise {A} e.

(** A request to [client.chat.completions.create]. *)
Record request := {
  model : pystr;
  messages : list (pystr * pystr);   (* role, content *)
  temperature : N
}.

(** What the call does: it raises, or it returns a response whose
    [choices] carry a [message.content] each ([None] when absent). *)
Inductive reply :=
| Fault (message : pystr)
| Response (choices : list (option pystr)).

Abbreviation path := (list pystr).

Inductive node :=
| Dir
| File (text : pystr).

#[export] Instance node_eq_dec : EqDecision node.
Proof. solve_decision. Defined.

Record world := {
  fs : gmap path node;
  calls : list request;
  stdout : list pystr
}.

Definition with_fs (f : gmap path node) (w : world) : world :=
  {| fs := f; calls := calls w; stdout := stdout w |}.

(** Computations that read and change the world and may raise. *)
Definition M (A : Type) : Type := world -> result A * world.

Definition ret {A} (a : A) : M A := fun w => (Ok a, w).
Definition raise {A} (e : exn) : M A := fun w => (Raise e, w).
Definition bind {A B} (c : M A) (k : A -> M B) : M B :=
  fun w =>
    match c w with
    | (Ok a, w') => k a w'
    | (Raise e, w') => (Raise e, w')
    end.
Definition lift {A} (r : result A) : M A := fun w => (r, w).

Notation "x <- c ;; k" := (bind c (fun x => k))
  (at level 63, c at next level, right associativity).
Notation "c ;;; k" := (bind c (fun _ => k))
  (at level 63, right associativity).

Definition print (line : pystr) : M unit :=
  fun w =>
    (Ok tt, {| fs := fs w; calls := calls w; stdout := stdout w ++ [line] |}).

(** [for x in xs: acc = body(x, acc)]; an exception leaves the loop. *)
Fixpoint for_each {A S} (xs : list A) (body : A -> S -> M S) (acc : S) : M S :=
  match xs with
  | [] => ret acc
  | x :: xs' => acc' <- body x acc ;; for_each xs' body acc'
  end.

(** [[f(x) for x in xs]]. *)
Fixpoint comprehension {A B} (f : A -> M B) (xs : list A) : M (list B) :=
  match xs with
  | [] => ret []
  | x :: xs' => y <- f x ;; ys <- comprehension f xs' ;; ret (y :: ys)
  end.

(** [key in obj]. *)
Definition py_contains (key : pystr) (obj : pyval) : result bool :=
  match obj with
  | PyDict d => Ok (dict_has key d)
  | PyList items =>
    Ok (existsb (fun x => match x with
                          | PyStr s => str_eqb key s
                          | _ => false
                          end) items)
  | PyStr s => Ok (str_contains key s)
  | PyNone | PyBool _ | PyInt _ => Raise TypeError
  end.

(** [obj[key]] for a string key. *)
Definition py_getitem (obj : pyval) (key : pystr) : result pyval :=
  match obj with
  | PyDict d =>
    match dict_get key d with
    | Some v => Ok v
    | None => Raise KeyError
    end
  | _ => Raise TypeError
  end.

(** [obj[key] = v] for a string key; the mutated object is returned. *)
Definition py_setitem (obj : pyval) (key : pystr) (v : pyval) : result pyval :=
  match obj with
  | PyDict d => Ok (PyDict (dict_set key v d))
  | _ => Raise TypeError
  end.

(** [isinstance(v, list)]. *)
Definition is_list (v : pyval) : bool :=
  match v with PyList _ => true | _ => false end.

(** [permalink.startswith(prefix)]: only [str] has the method. *)
Definition py_startswith (obj : pyval) (prefix : pystr) : result bool :=
  match obj with
  | PyStr s => Ok (startswith prefix s)
  | _ => Raise AttributeError
  end.

(** ** File system *)

Definition path_str (p : path) : pystr :=
  match p with
  | [] => u "."
  | c :: cs => fold_left (fun acc x => acc ++ u "/" ++ x) cs c
  end.

Definition exists_ (p : path) (w : world) : bool :=
  match fs w !! p with Some _ => true | None => false end.

(** [open(p, 'r', encoding='utf-8').read()]. *)
Definition read_text (p : path) : M pystr :=
  fun w =>
    match fs w !! p with
    | Some (File t) => (Ok t, w)
    | _ => (Raise OSError, w)
    end.

(** The prefixes of [p], shortest first, [p] itself last. *)
Definition ancestors_and_self (p : path) : list path :=
  List.map (fun n => firstn n p) (seq 1 (List.length p)).

(** [p.mkdir(parents=True, exist_ok=True)]: every missing prefix of [p]
    becomes a directory; a prefix that is a regular file makes it raise. *)
Definition mkdir_parents (p : path) : M unit :=
  for_each (ancestors_and_self p)
    (fun q (_ : unit) w =>
       match fs w !! q with
       | None => (Ok tt, with_fs (<[q := Dir]> (fs w)) w)
       | Some Dir => (Ok tt, w)
       | Some (File _) => (Raise OSError, w)
       end) tt.

(** [p.is_dir()]; the empty path is the working directory. *)
Definition is_dir (p : path) (w : world) : bool :=
  match p with
  | [] => true
  | _ => match fs w !! p with Some Dir => true | _ => false end
  end.

(** [open(p, 'w', encoding='utf-8').write(text)]: [p] must not be a
    directory and its parent must be one. *)
Definition write_text (p : path) (text : pystr) : M unit :=
  fun w =>
    match fs w !! p with
    | Some Dir => (Raise OSError, w)
    | _ =>
      if is_dir (removelast p) w
      then (Ok tt, with_fs (<[p := File text]> (fs w)) w)
      else (Raise OSError, w)
    end.

(** [os.scandir(top)]: the names directly under [top], split the way
    [os.walk] splits them into directories and other entries.  The system
    lists a directory in no particular order; the model lists it in the
    order in which the map enumerates its keys. *)
Definition scandir (f : gmap path node) (top : path)
  : list pystr * list pystr :=
  let children :=
    List.flat_map
      (fun '(p, n) =>
         match last p with
         | Some name =>
           if bool_decide (p = top ++ [name]) then [(name, n)] else []
         | None => []
         end)
      (map_to_list f) in
  (List.flat_map (fun '(name, n) =>
                    match n with Dir => [name] | File _ => [] end) children,
   List.flat_map (fun '(name, n) =>
                    match n with Dir => [] | File _ => [name] end) children).
Arguments scandir : simpl never.

(** ** The script *)

Section Script.

(** Library tables and the external collaborators. *)
Variable U : unicode_tables.
(** [str(v)] for a value that is not a string, as an f-string inserts it. *)
Variable py_str : pyval -> pystr.
(** The chat-completion service: its answer to a request may depend on
    the requests it has already received. *)
Variable client : list request -> request -> reply.
Variable yaml_safe_load : pystr -> result pyval.
(** [yaml.dump(v, allow_unicode=True, sort_keys=False)]. *)
Variable yaml_dump : pyval -> pystr.

(** The four command-line arguments. *)
Variable SOURCE_DIR : path.
Variable SOURCE_LANGUAGE : pystr.
Variable DESTINATION_LANGUAGE : pystr.
Variable DESTINATION_LANGUAGE_CODE : pystr.

(** [SOURCE_DIR / DESTINATION_LANGUAGE_CODE]; the code is one path
    component. *)
Definition DEST_DIR : path := SOURCE_DIR ++ [DESTINATION_LANGUAGE_CODE].

Definition DIRECTORIES : list pystr := [u "pages"; u "_posts"; u "blog"].

(** [f"{v}"]. *)
Definition py_format (v : pyval) : pystr :=
  match v with
  | PyStr s => s
  | _ => py_str v
  end.

Definition generate_slug (title : pyval) : result pyval :=
  match title with
  | PyStr s => Ok (PyStr (slug_of_str U s))
  | _ => Raise AttributeError   (* no method [lower] *)
  end.

(** [client.chat.completions.create(...)]: the request is recorded and
    the service's reply, fault included, is handed back to the caller's
    [try] block. *)
Definition chat_completions_create (req : request) : M reply :=
  fun w =>
    (Ok (client (calls w) req),
     {| fs := fs w; calls := calls w ++ [req]; stdout := stdout w |}).

(** The [try ... except Exception] shared by both translators:
    [response.choices[0].message.content.strip()] is evaluated inside the
    [try], so a reply without choices or without content ends in the
    handler exactly like a fault of the call. *)
Definition strip_reply_or (original : pyval) (r : reply) : M pyval :=
  match r with
  | Response (Some content :: _) => ret (PyStr (strip is_space content))
  | Response (None :: _) =>
    print (u "Error during translation: "
           ++ u "'NoneType' object has no attribute 'strip'") ;;;
    ret original
  | Response [] =>
    print (u "Error during translation: " ++ u "list index out of range") ;;;
    ret original
  | Fault e =>
    print (u "Error during translation: " ++ e) ;;;
    ret original
  end.

Definition text_request (text : pyval) (source_language target_language : pystr)
  : request :=
  let prompt :=
    u "Translate the following text from " ++ source_language ++ u " to "
    ++ target_language ++ u ":" ++ [NEWLINE; NEWLINE] ++ py_format text in
  {| model := u "gpt-4o";
     messages :=
       [ (u "system",
          u "You are a helpful assistant that translates " ++ source_language
          ++ u " to " ++ target_language ++ u ".");
         (u "user", prompt) ];
     temperature := 0 |}.

Definition translate_text (text : pyval) (source_language target_language : pystr)
  : M pyval :=
  response <-
    chat_completions_create (text_request text source_language target_language) ;;
  strip_reply_or text response.

Definition markdown_request (markdown_text : pyval)
    (source_language target_language : pystr) : request :=
  let prompt :=
    u "Translate the following Markdown content from " ++ source_language
    ++ u " to " ++ target_language
    ++ u ", preserving the Markdown formatting, code blocks, links, and images:"
    ++ [NEWLINE; NEWLINE] ++ py_format markdown_text in
  {| model := u "gpt-4o";
     messages :=
       [ (u "system",
          u "You are a helpful assistant that translates " ++ source_language
          ++ u " Markdown content to " ++ target_language
          ++ u ", preserving the Markdown formatting, code blocks, links, and images.");
         (u "user", prompt) ];
     temperature := 0 |}.

Definition translate_markdown (markdown_text : pyval)
    (source_language target_language : pystr) : M pyval :=
  response <-
    chat_completions_create
      (markdown_request markdown_text source_language target_language) ;;
  strip_reply_or markdown_text response.

(** Body of the first loop of [translate_front_matter]. *)
Definition translate_scalar_field (source_language target_language : pystr)
    (field : pystr) (front_matter_data : pyval) : M pyval :=
  present <- lift (py_contains field front_matter_data) ;;
  if (present : bool) then
    old <- lift (py_getitem front_matter_data field) ;;
    new <- translate_text old source_language target_language ;;
    lift (py_setitem front_matter_data field new)
  else ret front_matter_data.

(** Body of the second loop of [translate_front_matter]. *)
Definition translate_list_field (source_language target_language : pystr)
    (field : pystr) (front_matter_data : pyval) : M pyval :=
  present <- lift (py_contains field front_matter_data) ;;
  if (present : bool) then
    old <- lift (py_getitem front_matter_data field) ;;
    match old with
    | PyList items =>
      translated_list <-
        comprehension
          (fun item => translate_text item source_language target_language)
          items ;;
      lift (py_setitem front_matter_data field (PyList translated_list))
    | _ =>
      new <- translate_text old source_language target_language ;;
      lift (py_setitem front_matter_data field new)
    end
  else ret front_matter_data.

Definition update_slug (front_matter_data : pyval) : M pyval :=
  present <- lift (py_contains (u "title") front_matter_data) ;;
  if (present : bool) then
    title <- lift (py_getitem front_matter_data (u "title")) ;;
    translated_slug <- lift (generate_slug title) ;;
    lift (py_setitem front_matter_data (u "slug") translated_slug)
  else ret front_matter_data.

Definition update_permalink (front_matter_data : pyval) : M pyval :=
  present <- lift (py_contains (u "permalink") front_matter_data) ;;
  if (present : bool) then
    permalink <- lift (py_getitem front_matter_data (u "permalink")) ;;
    prefixed <-
      lift (py_startswith permalink
              (u "/" ++ DESTINATION_LANGUAGE_CODE ++ u "/")) ;;
    if negb prefixed then
      lift (py_setitem front_matter_data (u "permalink")
              (PyStr (u "/" ++ DESTINATION_LANGUAGE_CODE
                      ++ py_format permalink)))
    else ret front_matter_data
  else ret front_matter_data.

Definition translate_front_matter (front_matter_data : pyval)
    (source_language target_language : pystr) : M pyval :=
  front_matter_data <-
    for_each [u "title"; u "subheadline"; u "teaser"]
      (translate_scalar_field source_language target_language)
      front_matter_data ;;
  front_matter_data <-
    for_each [u "categories"; u "tags"]
      (translate_list_field source_language target_language)
      front_matter_data ;;
  front_matter_data <- update_slug front_matter_data ;;
  front_matter_data <- update_permalink front_matter_data ;;
  ret front_matter_data.

Definition translate_file (source_file dest_file : path)
    (source_language target_language : pystr) : M unit :=
  content <- read_text source_file ;;
  match Re.match_ FRONT_MATTER_RE content with
  | Some match_groups =>
    let front_matter := nth 0 match_groups [] in
    let body := nth 1 match_groups [] in
    front_matter_data <- lift (yaml_safe_load front_matter) ;;
    front_matter_data <-
      translate_front_matter front_matter_data source_language target_language ;;
    translated_body <-
      translate_markdown (PyStr body) source_language target_language ;;
    let new_front_matter := yaml_dump front_matter_data in
    let new_content :=
      u "---" ++ [NEWLINE] ++ new_front_matter ++ u "---" ++ [NEWLINE]
      ++ py_format translated_body in
    mkdir_parents (removelast dest_file) ;;;
    write_text dest_file new_content ;;;
    print (u "Translated file saved to " ++ path_str dest_file)
  | None =>
    print (u "No front matter found in " ++ path_str source_file
           ++ u ", skipping file.")
  end.

(** [p.relative_to(base)]. *)
Fixpoint relative_to (base p : path) : result path :=
  match base, p with
  | [], _ => Ok p
  | b :: base', c :: p' =>
    if str_eqb b c then relative_to base' p' else Raise ValueError
  | _ :: _, [] => Raise ValueError
  end.

(** Body of the inner loop of [process_directory], for one file name of
    the directory [root].  [time.sleep(1.1)] changes nothing the model
    records. *)
Definition process_entry (source_language target_language : pystr)
    (root : path) (file : pystr) : M unit :=
  if endswith (u ".md") file then
    let source_file := root ++ [file] in
    relative_path <- lift (relative_to SOURCE_DIR source_file) ;;
    let dest_file := DEST_DIR ++ relative_path in
    dest_exists <- (fun w => (Ok (exists_ dest_file w), w)) ;;
    if (dest_exists : bool) then
      print (u "Destination file already exists: " ++ path_str dest_file
             ++ u ", skipping.")
    else
      print (u "Translating file: " ++ path_str source_file) ;;;
      translate_file source_file dest_file source_language target_language
  else ret tt.

(** [os.walk], top-down, driving the loop body: the directory on top of
    the stack is listed when it is reached, its files are processed, and
    its subdirectories are pushed in listing order.  A path that is not a
    directory yields nothing.  [None] means the fuel ran out. *)
Fixpoint os_walk (fuel : nat) (body : path -> list pystr -> M unit)
    (stack : list path) (w : world) : option (result unit * world) :=
  match fuel with
  | O => None
  | S fuel' =>
    match stack with
    | [] => Some (Ok tt, w)
    | top :: rest =>
      match fs w !! top with
      | Some Dir =>
        let '(dirs, files) := scandir (fs w) top in
        match body top files w with
        | (Ok _, w') =>
          os_walk fuel' body (List.map (fun d => top ++ [d]) dirs ++ rest) w'
        | (Raise e, w') => Some (Raise e, w')
        end
      | _ => os_walk fuel' body rest w
      end
    end
  end.

Definition process_directory (fuel : nat) (directory : pystr)
    (source_language target_language : pystr) (w : world)
  : option (result unit * world) :=
  let source_path := SOURCE_DIR ++ [directory] in
  os_walk fuel
    (fun root files =>
       for_each files
         (fun file (_ : unit) =>
            process_entry source_language target_language root file) tt)
    [source_path] w.

Fixpoint main_loop (fuel : nat) (directories : list pystr) (w : world)
  : option (result unit * world) :=
  match directories with
  | [] => Some (Ok tt, w)
  | directory :: rest =>
    match process_directory fuel directory
            SOURCE_LANGUAGE DESTINATION_LANGUAGE w with
    | Some (Ok _, w') => main_loop fuel rest w'
    | other => other
    end
  end.

Definition main (fuel : nat) : world -> option (result unit * world) :=
  main_loop fuel DIRECTORIES.

End Script.

(** How a run of the script ends: [sys.exit(status)], the end of [main], or
    an exception nobody caught. *)
Inductive ending :=
| SystemExit (status : N)
| Completed
| Uncaught (e : exn).

Definition USAGE : pystr :=
  u "Usage: python script.py <source_dir> <source_language> <destination_language> <destination_language_short_code>".

(** The module body and the [__main__] guard: the argument count is
    checked first, then the four globals are bound and [main] runs.
    [Path] is [pathlib.Path] on a string. *)
Definition script (U : unicode_tables) (py_str : pyval -> pystr)
    (client : list request -> request -> reply)
    (yaml_safe_load : pystr -> result pyval) (yaml_dump : pyval -> pystr)
    (Path : pystr -> path) (argv : list pystr) (fuel : nat) (w : world)
  : option (ending * world) :=
  if negb (Nat.eqb (List.length argv) 5) then
    Some (SystemExit 1, snd (print USAGE w))
  else
    match
      main U py_str client yaml_safe_load yaml_dump
        (Path (nth 1 argv [])) (nth 2 argv []) (nth 3 argv []) (nth 4 argv [])
        fuel w
    with
    | Some (Ok _, w') => Some (Completed, w')
    | Some (Raise e, w') => Some (Uncaught e, w')
    | None => None
    end.

(** ** Concrete collaborators for the examples *)

Module Sample.

(** Canonical decompositions of the accented Latin-1 letters: base letter
    and combining mark, as in [UnicodeData.txt]. *)
Definition decompose (c : N) : pystr :=
  let lower_case := (224 <=? c) && (c <=? 255) in
  let k := if lower_case then c - 32 else c in
  let base (b : N) := if lower_case then b + 32 else b in
  if (192 <=? k) && (k <=? 197) then          (* A grave .. A ring *)
    [base 65; nth (N.to_nat (k - 192)) [768; 769; 770; 771; 776; 778] 0]
  else if k =? 199 then [base 67; 807]        (* C cedilla *)
  else if (200 <=? k) && (k <=? 203) then     (* E grave .. E diaeresis *)
    [base 69; nth (N.to_nat (k - 200)) [768; 769; 770; 776] 0]
  else if (204 <=? k) && (k <=? 207) then     (* I grave .. I diaeresis *)
    [base 73; nth (N.to_nat (k - 204)) [768; 769; 770; 776] 0]
  else if k =? 209 then [base 78; 771]        (* N tilde *)
  else if (210 <=? k) && (k <=? 214) then     (* O grave .. O diaeresis *)
    [base 79; nth (N.to_nat (k - 210)) [768; 769; 770; 771; 776] 0]
  else if (217 <=? k) && (k <=? 220) then     (* U grave .. U diaeresis *)
    [base 85; nth (N.to_nat (k - 217)) [768; 769; 770; 776] 0]
  else if k =? 221 then [base 89; 769]        (* Y acute *)
  else if c =? 255 then [121; 776]            (* y diaeresis *)
  else [c].

(** [str.lower] on Latin-1: A-Z and the capital letters U+00C0-U+00DE
    (U+00D7 is the multiplication sign) move up by 32. *)
Definition lower_char (c : N) : N :=
  if ((65 <=? c) && (c <=? 90))
     || ((192 <=? c) && (c <=? 222) && negb (c =? 215))
  then c + 32 else c.

(** The Unicode tables restricted to what the examples need: exact on
    Latin-1 text (code points below 256, whose decompositions carry a
    single mark, so that no reordering takes place) and on the combining
    diacritical marks U+0300-U+036F, which all have category Mn. *)
Definition latin1 : unicode_tables :=
  {| lower := List.map lower_char;
     normalize_NFD := List.flat_map decompose;
     category_is_Mn := fun c => (768 <=? c) && (c <=? 879) |}.

(** [str] of the scalars; containers do not occur as translated text in
    the examples. *)
Definition py_str (v : pyval) : pystr :=
  match v with
  | PyNone => u "None"
  | PyBool true => u "True"
  | PyBool false => u "False"
  | PyInt z => u (NilZero.string_of_int (Z.to_int z))
  | PyStr s => s
  | PyList _ => u "[...]"
  | PyDict _ => u "{...}"
  end.

(** A service that answers without any choice, and one whose only choice
    has no content. *)
Definition speechless : list request -> request -> reply :=
  fun _ _ => Response [].

Definition hollow : list request -> request -> reply :=
  fun _ _ => Response [None].

(** [Path] on a relative path without dots or doubled slashes: the
    components between the slashes. *)
Fixpoint split_slash (acc : pystr) (s : pystr) : path :=
  match s with
  | [] => [acc]
  | c :: s' =>
    if c =? 47 then acc :: split_slash [] s' else split_slash (acc ++ [c]) s'
  end.

Definition Path (s : pystr) : path := split_slash [] s.

(** A service that is down: every call raises. *)
Definition unreachable : list request -> request -> reply :=
  fun _ _ => Fault (u "Connection error.").

Definition upper_char (c : N) : N :=
  if (97 <=? c) && (c <=? 122) then c - 32 else c.

(** The text after the blank line that ends the instruction of a
    prompt. *)
Fixpoint payload (s : pystr) : pystr :=
  match s with
  | 10 :: 10 :: rest => rest
  | _ :: s' => payload s'
  | [] => []
  end.

(** A stub translator that answers with the payload in upper case. *)
Definition shouting : list request -> request -> reply :=
  fun _ req =>
    match messages req with
    | [_; (_, prompt)] =>
      Response [Some (List.map upper_char (payload prompt))]
    | _ => Response []
    end.

(** [yaml.safe_load] on the handful of front matters the examples use;
    any other text is taken for a plain scalar. *)
Definition yaml_safe_load (s : pystr) : result pyval :=
  if str_eqb s [] then Ok PyNone
  else if str_eqb s (u "title: 2024") then
    Ok (PyDict [(u "title", PyInt 2024)])
  else if str_eqb s (u "title: [unclosed") then Raise YAMLError
  else if str_eqb s (u "permalink: index.html") then
    Ok (PyDict [(u "permalink", PyStr (u "index.html"))])
  else if str_eqb s (u "title: Hello World" ++ [NEWLINE] ++ u "permalink: /about")
  then Ok (PyDict [(u "title", PyStr (u "Hello World"));
                   (u "permalink", PyStr (u "/about"))])
  else Ok (PyStr s).

(** [yaml.dump] of a flat mapping of strings, one [key: value] line per
    entry in insertion order; enough to see what was written. *)
Definition yaml_dump (v : pyval) : pystr :=
  match v with
  | PyDict d =>
    List.flat_map (fun '(k, x) => k ++ u ": " ++ py_str x ++ [NEWLINE]) d
  | _ => py_str v ++ [NEWLINE]
  end.

Definition empty_world : world := {| fs := ∅; calls := []; stdout := [] |}.

(** A tree is built from (path, node) pairs. *)
Definition tree (entries : list (path * node)) : world :=
  {| fs := list_to_map entries; calls := []; stdout := [] |}.


(** A text file given line by line. *)
Definition text (lines : list pystr) : pystr :=
  match lines with
  | [] => []
  | l :: ls => fold_left (fun acc x => acc ++ [NEWLINE] ++ x) ls l
  end.

Definition SITE : path := [u "site"].

(** A site with one page, [pages/<name>], holding [content]. *)
Definition site_with (name : string) (content : pystr) : world :=
  tree [ (SITE, Dir);
         (SITE ++ [u "pages"], Dir);
         (SITE ++ [u "pages"; u name], File content) ].

(** The page of the end-to-end scenario, and the same site after a run
    has already written the French counterpart. *)
Definition about_md : pystr :=
  text [u "---"; u "title: Hello World"; u "permalink: /about"; u "---";
      u "# Hi"; u ""; u "Some *text*."].

Definition site_untranslated : world := site_with "about.md" about_md.

Definition site_translated : world :=
  tree [ (SITE, Dir);
         (SITE ++ [u "pages"], Dir);
         (SITE ++ [u "pages"; u "about.md"], File about_md);
         (SITE ++ [u "fr"], Dir);
         (SITE ++ [u "fr"; u "pages"], Dir);
         (SITE ++ [u "fr"; u "pages"; u "about.md"],
          File (u "translated by an earlier run")) ].

(** Pages whose front matter is empty, holds a numeric title, or is not
    well-formed YAML. *)
Definition site_empty_front_matter : world :=
  site_with "empty.md" (text [u "---"; u ""; u "---"; u "body"]).

Definition site_numeric_title : world :=
  site_with "year.md" (text [u "---"; u "title: 2024"; u "---"; u "body"]).

Definition site_bad_yaml : world :=
  site_with "broken.md"
  (text [u "---"; u "title: [unclosed"; u "---"; u "body"]).

(** A content directory that holds an image only. *)
Definition site_assets : world := site_with "logo.png" (u "PNG").

(** A page without front matter. *)
Definition site_plain : world :=
  site_with "plain.md" (text [u "# Just Markdown"; u "no front matter"]).

(** A front matter whose permalink has no leading slash. *)
Definition home : dict := [ (u "permalink", PyStr (u "index.html")) ].

(** A front matter without a title, with a slug of its own. *)
Definition untitled : dict :=
  [ (u "slug", PyStr (u "keep-me"));
    (u "teaser", PyStr (u "Read on"));
    (u "permalink", PyStr (u "/fr/notes/")) ].

(** A front matter with every kind of field. *)
Definition post : dict :=
  [ (u "title", PyStr (u "Hello World"));
    (u "slug", PyStr (u "old-slug"));
    (u "layout", PyStr (u "page"));
    (u "categories", PyList [PyStr (u "news"); PyStr (u "tech")]);
    (u "tags", PyStr (u "misc"));
    (u "permalink", PyStr (u "/about")) ].

End Sample.

(** ** Properties stated by the specification *)

(** A string in slug form: only [a-z], [0-9] and hyphens, no hyphen at
    either end, no two hyphens in a row. *)
Record slug_shape (s : pystr) : Prop := {
  shape_alphabet : ∀ c, In c s → is_a_z_0_9 c = true ∨ c = HYPHEN;
  shape_no_leading : head s ≠ Some HYPHEN;
  shape_no_trailing : last s ≠ Some HYPHEN;
  shape_no_consecutive : ∀ i, s !! i = Some HYPHEN → s !! S i ≠ Some HYPHEN
}.

(** What [generate_slug] needs from the Unicode tables to leave a slug
    alone: text over [a-z0-9-] is already lower case and already in normal
    form D, and none of these code points is a nonspacing mark. *)
Record ascii_stable (U : unicode_tables) : Prop := {
  lower_ascii : ∀ s,
    (∀ c, In c s → is_a_z_0_9 c = true ∨ c = HYPHEN) → lower U s = s;
  nfd_ascii : ∀ s,
    (∀ c, In c s → is_a_z_0_9 c = true ∨ c = HYPHEN) → normalize_NFD U s = s;
  mn_ascii : ∀ c,
    is_a_z_0_9 c = true ∨ c = HYPHEN → category_is_Mn U c = false
}.

(** No two hyphens in a row, as a property of positions. *)
Definition single_hyphens (s : pystr) : Prop :=
  ∀ i, s !! i = Some HYPHEN → s !! S i ≠ Some HYPHEN.

(** One request goes out, whatever comes back. *)
Definition sent (req : request) (w w' : world) : Prop :=
  fs w' = fs w ∧ calls w' = calls w ++ [req].

(** [v] is what the Text Translator returns for [text] (in some state of
    the world: the service may answer the same request differently at
    different times). *)
Definition is_translation_of (py_str : pyval → pystr)
    (client : list request → request → reply) (src tgt : pystr)
    (text v : pyval) : Prop :=
  ∃ w w', translate_text py_str client text src tgt w = (Ok v, w').

(** The texts a front matter hands to the Text Translator, in call order:
    a scalar field contributes its value, a list-valued [categories] or
    [tags] its items. *)
Definition scalar_texts (field : pystr) (d : dict) : list pyval :=
  match dict_get field d with
  | Some v => [v]
  | None => []
  end.

Definition list_texts (field : pystr) (d : dict) : list pyval :=
  match dict_get field d with
  | Some (PyList items) => items
  | Some v => [v]
  | None => []
  end.

Definition translated_texts (d : dict) : list pyval :=
  scalar_texts (u "title") d ++ scalar_texts (u "subheadline") d
  ++ scalar_texts (u "teaser") d
  ++ list_texts (u "categories") d ++ list_texts (u "tags") d.

(** How a translated scalar field relates to the original one. *)
Definition scalar_translated (py_str : pyval → pystr)
    (client : list request → request → reply) (src tgt : pystr)
    (old new : option pyval) : Prop :=
  match old with
  | None => new = None
  | Some text => ∃ v, new = Some v ∧ is_translation_of py_str client src tgt text v
  end.

(** The same for [categories] and [tags]: a list is translated item by
    item, anything else as one text. *)
Definition list_translated (py_str : pyval → pystr)
    (client : list request → request → reply) (src tgt : pystr)
    (old new : option pyval) : Prop :=
  match old with
  | None => new = None
  | Some (PyList items) =>
    ∃ items', new = Some (PyList items')
              ∧ Forall2 (is_translation_of py_str client src tgt) items items'
  | Some text => ∃ v, new = Some v ∧ is_translation_of py_str client src tgt text v
  end.

(** The keys the Front-Matter Transformer may rewrite. *)
Definition RECOGNIZED : list pystr :=
  [u "title"; u "subheadline"; u "teaser"; u "categories"; u "tags";
   u "slug"; u "permalink"].

(** What one step of a loop of [translate_front_matter] does to a mapping:
    key [f] is rewritten according to [R], the other keys and the key order
    stay, one request per text of [f] goes out. *)
Definition rewrites_field (py_str : pyval → pystr) (src tgt : pystr)
    (R : option pyval → option pyval → Prop)
    (texts : pystr → dict → list pyval) (f : pystr)
    (d : dict) (w : world) (d' : dict) (w' : world) : Prop :=
  dict_keys d' = dict_keys d
  ∧ (∀ k, k ≠ f → dict_get k d' = dict_get k d)
  ∧ R (dict_get f d) (dict_get f d')
  ∧ fs w' = fs w
  ∧ calls w' = calls w
               ++ List.map (fun text => text_request py_str text src tgt)
                    (texts f d).

(** A computation that leaves every file as it is, whether it returns or
    raises. *)
Definition keeps_files {A} (c : M A) : Prop :=
  ∀ w, fs (snd (c w)) = fs w.

(** The title as [generate_slug] sees it before the substitution: lower
    case, decomposed, nonspacing marks dropped. *)
Definition strip_accents (U : unicode_tables) (title : pystr) : pystr :=
  List.filter (fun c => negb (category_is_Mn U c))
    (normalize_NFD U (lower U title)).

(** A text made of a front-matter block and a body: the marker line, the
    block, the marker line, the body; white space may follow each marker
    before its newline. *)
Definition front_matter_block (content fm body : pystr) : Prop :=
  ∃ ws1 ws2,
    Forall (fun c => is_space c = true) ws1
    ∧ Forall (fun c => is_space c = true) ws2
    ∧ content = u "---" ++ ws1 ++ [NEWLINE] ++ fm ++ [NEWLINE]
                ++ u "---" ++ ws2 ++ [NEWLINE] ++ body.

(** The field names [translate_front_matter] looks up, in the order of the
    lookups. *)
Definition PROBED : list pystr :=
  [u "title"; u "subheadline"; u "teaser"; u "categories"; u "tags";
   u "permalink"].

(** [key in items] for a list of values. *)
Definition list_has (key : pystr) (items : list pyval) : bool :=
  existsb (fun x => match x with
                    | PyStr s => str_eqb key s
                    | _ => false
                    end) items.

(** Every Markdown file below one of the given content directories has
    its destination. *)
Definition batch_completed (SOURCE_DIR : path) (CODE : pystr)
    (directories : list pystr) (f : gmap path node) : Prop :=
  ∀ directory rel file content,
    In directory directories →
    f !! (SOURCE_DIR ++ directory :: rel ++ [file]) = Some (File content) →
    endswith (u ".md") file = true →
    f !! (DEST_DIR SOURCE_DIR CODE ++ directory :: rel ++ [file]) ≠ None.

(** No file of the tree has a name that ends in [.md]. *)
Definition no_markdown (f : gmap path node) : Prop :=
  ∀ p name content,
    f !! p = Some (File content) → last p = Some name →
    endswith (u ".md") name = false.

(** [q] lies on the way to the destination root or below it. *)
Definition in_destination_tree (SOURCE_DIR : path) (CODE : pystr)
    (q : path) : Prop :=
  q `prefix_of` DEST_DIR SOURCE_DIR CODE
  ∨ DEST_DIR SOURCE_DIR CODE `prefix_of` q.

(** The fuel sufficed. *)
Definition finished {A} (o : option A) : bool :=
  match o with Some _ => true | None => false end.

(** At [base] and below it, the tree [f] is the tree [f0]. *)
Definition same_below (base : path) (f f0 : gmap path node) : Prop :=
  ∀ k, base `prefix_of` k → f !! k = f0 !! k.


(** No directory of the stack of [os_walk] lies at or below another. *)
Fixpoint incomparable (stack : list path) : Prop :=
  match stack with
  | [] => True
  | p :: rest =>
    Forall (fun q => ¬ p `prefix_of` q ∧ ¬ q `prefix_of` p) rest
    ∧ incomparable rest
  end.

(** The paths of [f0] strictly below a directory of the stack: what the
    walk may still come to visit. *)
Definition covered (f0 : gmap path node) (stack : list path) : list path :=
  filter (fun k => Exists (fun p => p `prefix_of` k ∧ p ≠ k) stack)
    (map_to_list f0).*1.

(** * Proofs *)

(** ** The model at work *)

(** The pattern of [translate_file] on the page of the end-to-end
    scenario: group 1 is the front matter, group 2 the body. *)
Example front_matter_split :
  Re.match_ FRONT_MATTER_RE Sample.about_md
  = Some [ Sample.text [u "title: Hello World"; u "permalink: /about"];
           Sample.text [u "# Hi"; u ""; u "Some *text*."] ].
Proof. vm_compute. reflexivity. Qed.

(** White space after the closing marker is consumed up to its last
    newline, and an empty front matter is matched by backtracking into the
    first run of white space. *)
Example front_matter_split_blank_lines :
  Re.match_ FRONT_MATTER_RE
    (Sample.text [u "---"; u "a: b"; u "---  "; u " "; u "x"])
  = Some [u "a: b"; u "x"]
  ∧ Re.match_ FRONT_MATTER_RE (Sample.text [u "---"; u ""; u "---"; u "body"])
    = Some [[]; u "body"]
  ∧ Re.match_ FRONT_MATTER_RE (Sample.text [u "---"; u "---"; u "body"])
    = None.
Proof. repeat split; vm_compute; reflexivity. Qed.

(** The end-to-end scenario: with a translator that answers in upper case,
    [pages/about.md] is written to [fr/pages/about.md] under the source
    root, with the title translated, the permalink prefixed, the slug
    added and the body translated. *)
Example end_to_end_scenario :
  option_map
    (fun '(r, w) =>
       (r, fs w !! (Sample.SITE ++ [u "fr"; u "pages"; u "about.md"]),
        length (calls w)))
    (main Sample.latin1 Sample.py_str Sample.shouting Sample.yaml_safe_load
       Sample.yaml_dump Sample.SITE (u "English") (u "French") (u "fr") 10
       Sample.site_untranslated)
  = Some (Ok tt,
          Some (File (Sample.text
                        [u "---"; u "title: HELLO WORLD";
                         u "permalink: /fr/about"; u "slug: hello-world";
                         u "---"; u "# HI"; u ""; u "SOME *TEXT*."])),
          2%nat).
Proof. vm_compute. reflexivity. Qed.

(** A page without front matter is reported and left alone; the run goes
    on to the end. *)
Example plain_page_is_skipped :
  option_map
    (fun '(r, w) =>
       (r, fs w !! (Sample.SITE ++ [u "fr"]), calls w, stdout w))
    (main Sample.latin1 Sample.py_str Sample.shouting Sample.yaml_safe_load
       Sample.yaml_dump Sample.SITE (u "English") (u "French") (u "fr") 10
       Sample.site_plain)
  = Some (Ok tt, None, [],
          [u "Translating file: site/pages/plain.md";
           u "No front matter found in site/pages/plain.md, skipping file."]).
Proof. vm_compute. reflexivity. Qed.

(** A second run over a translated site sends nothing and writes
    nothing. *)
Example second_run_is_idle :
  option_map
    (fun '(r, w) =>
       (r, bool_decide (fs w = fs Sample.site_translated), calls w))
    (main Sample.latin1 Sample.py_str Sample.shouting Sample.yaml_safe_load
       Sample.yaml_dump Sample.SITE (u "English") (u "French") (u "fr") 10
       Sample.site_translated)
  = Some (Ok tt, true, []).
Proof. vm_compute. reflexivity. Qed.

(** ** Strings *)

Lemma str_eqb_eq (a b : pystr) : str_eqb a b = true ↔ a = b.
Proof.
  revert b; induction a as [|x a IH]; intros [|y b]; simpl; try easy.
  rewrite andb_true_iff, N.eqb_eq, IH. split.
  - intros [-> ->]; reflexivity.
  - intros [= -> ->]; auto.
Qed.

Lemma str_eqb_refl (a : pystr) : str_eqb a a = true.
Proof. apply str_eqb_eq; reflexivity. Qed.

Lemma str_eqb_neq (a b : pystr) : a ≠ b → str_eqb a b = false.
Proof.
  intros Hne. destruct (str_eqb a b) eqn:E; [|reflexivity].
  apply str_eqb_eq in E; contradiction.
Qed.

Lemma is_hyphen_true (c : N) : is_hyphen c = true ↔ c = HYPHEN.
Proof. unfold is_hyphen. apply N.eqb_eq. Qed.

Lemma hyphen_not_alnum : is_a_z_0_9 HYPHEN = false.
Proof. reflexivity. Qed.

Lemma lstrip_split (p : N → bool) (s : pystr) :
  ∃ pre, s = pre ++ lstrip p s.
Proof.
  induction s as [|c s [pre IH]]; simpl.
  - exists []; reflexivity.
  - destruct (p c).
    + exists (c :: pre); simpl; congruence.
    + exists []; reflexivity.
Qed.

Lemma lstrip_head (p : N → bool) (s : pystr) (c : N) :
  head (lstrip p s) = Some c → p c = false.
Proof.
  induction s as [|x s IH]; simpl; [discriminate|].
  destruct (p x) eqn:E; [assumption|].
  simpl; intros [= <-]; assumption.
Qed.

Lemma lstrip_id (p : N → bool) (s : pystr) :
  (∀ c, head s = Some c → p c = false) → lstrip p s = s.
Proof.
  destruct s as [|x s]; simpl; [reflexivity|].
  intros H. rewrite (H x eq_refl). reflexivity.
Qed.

Lemma last_rev_head (s : pystr) : last (rev s) = head s.
Proof.
  destruct s as [|x s]; simpl; [reflexivity|]. apply last_snoc.
Qed.

Lemma head_rev_last (s : pystr) : head (rev s) = last s.
Proof.
  rewrite <- (rev_involutive s) at 2. symmetry. apply last_rev_head.
Qed.

Lemma rstrip_split (p : N → bool) (s : pystr) :
  ∃ post, s = rstrip p s ++ post.
Proof.
  unfold rstrip. destruct (lstrip_split p (rev s)) as [pre H].
  exists (rev pre).
  rewrite <- rev_app_distr, <- H. symmetry; apply rev_involutive.
Qed.

Lemma rstrip_last (p : N → bool) (s : pystr) (c : N) :
  last (rstrip p s) = Some c → p c = false.
Proof. unfold rstrip. rewrite last_rev_head. apply lstrip_head. Qed.

Lemma rstrip_id (p : N → bool) (s : pystr) :
  (∀ c, last s = Some c → p c = false) → rstrip p s = s.
Proof.
  intros H. unfold rstrip. rewrite lstrip_id.
  - apply rev_involutive.
  - intros c Hc. apply H. rewrite <- head_rev_last. assumption.
Qed.

(** [strip] cuts a piece out of the middle of its argument. *)
Lemma strip_split (p : N → bool) (s : pystr) :
  ∃ pre post, s = pre ++ strip p s ++ post.
Proof.
  unfold strip.
  destruct (lstrip_split p s) as [pre Hpre].
  destruct (rstrip_split p (lstrip p s)) as [post Hpost].
  exists pre, post. rewrite <- Hpost. assumption.
Qed.

Lemma strip_head (p : N → bool) (s : pystr) (c : N) :
  head (strip p s) = Some c → p c = false.
Proof.
  unfold strip. intros H.
  destruct (rstrip_split p (lstrip p s)) as [post Hpost].
  apply (lstrip_head p s). rewrite Hpost.
  rewrite head_app, H. reflexivity.
Qed.

Lemma strip_last (p : N → bool) (s : pystr) (c : N) :
  last (strip p s) = Some c → p c = false.
Proof. unfold strip. apply rstrip_last. Qed.

(** ** The substitution of [generate_slug] *)

Lemma single_hyphens_cons (c : N) (s : pystr) :
  single_hyphens (c :: s) ↔
  (c = HYPHEN → head s ≠ Some HYPHEN) ∧ single_hyphens s.
Proof.
  unfold single_hyphens. split.
  - intros H. split.
    + intros -> Hh. apply (H 0%nat); [reflexivity|].
      simpl. rewrite <- head_lookup. assumption.
    + intros i Hi. apply (H (S i)). assumption.
  - intros [H0 H] [|i]; simpl.
    + intros [= ->]. rewrite <- head_lookup. auto.
    + apply H.
Qed.

Lemma single_hyphens_middle (pre s post : pystr) :
  single_hyphens (pre ++ s ++ post) → single_hyphens s.
Proof.
  unfold single_hyphens. intros H i Hi Hsi.
  apply (H (length pre + i)%nat).
  - rewrite lookup_app_r by lia.
    replace (length pre + i - length pre)%nat with i by lia.
    apply lookup_app_l_Some; assumption.
  - replace (S (length pre + i)) with (length pre + S i)%nat by lia.
    rewrite lookup_app_r by lia.
    replace (length pre + S i - length pre)%nat with (S i) by lia.
    apply lookup_app_l_Some; assumption.
Qed.

Lemma sub_alphabet (b : bool) (s : pystr) (c : N) :
  In c (sub_non_alnum_runs b s) → is_a_z_0_9 c = true ∨ c = HYPHEN.
Proof.
  revert b; induction s as [|x s IH]; intros b; simpl; [tauto|].
  destruct (is_a_z_0_9 x) eqn:E.
  - intros [<-|H]; [left; assumption | eauto].
  - destruct b; [eauto|]. intros [<-|H]; [right; reflexivity | eauto].
Qed.

(** Inside a run the output does not start with a hyphen. *)
Lemma sub_head_in_run (s : pystr) :
  head (sub_non_alnum_runs true s) ≠ Some HYPHEN.
Proof.
  induction s as [|x s IH]; simpl; [discriminate|].
  destruct (is_a_z_0_9 x) eqn:E; [|assumption].
  simpl. intros [= ->]. discriminate.
Qed.

Lemma sub_single_hyphens (b : bool) (s : pystr) :
  single_hyphens (sub_non_alnum_runs b s).
Proof.
  revert b; induction s as [|x s IH]; intros b; simpl.
  - intros i; rewrite lookup_nil; discriminate.
  - destruct (is_a_z_0_9 x) eqn:E.
    + apply single_hyphens_cons. split; [|apply IH].
      intros ->; discriminate.
    + destruct b; [apply IH|].
      apply single_hyphens_cons. split; [|apply IH].
      intros _. apply sub_head_in_run.
Qed.

(** Text that is already slug-shaped passes through the substitution. *)
Lemma sub_fixes_slug (b : bool) (s : pystr) :
  (∀ c, In c s → is_a_z_0_9 c = true ∨ c = HYPHEN) →
  single_hyphens s →
  (b = true → head s ≠ Some HYPHEN) →
  sub_non_alnum_runs b s = s.
Proof.
  revert b; induction s as [|x s IH]; intros b Hc Hs Hb; simpl; [reflexivity|].
  apply single_hyphens_cons in Hs as [Hx Hs].
  assert (Hc' : ∀ c, In c s → is_a_z_0_9 c = true ∨ c = HYPHEN)
    by (intros c Hin; apply Hc; right; assumption).
  destruct (is_a_z_0_9 x) eqn:E.
  - f_equal. apply IH; [assumption..|discriminate].
  - destruct (Hc x) as [Hx'| ->]; [left; reflexivity|congruence|].
    destruct b.
    + exfalso. apply Hb; reflexivity.
    + f_equal. apply IH; auto.
Qed.

Lemma slug_of_str_shape (U : unicode_tables) (t : pystr) :
  slug_shape (slug_of_str U t).
Proof.
  unfold slug_of_str.
  set (r := sub_non_alnum_runs false _).
  destruct (strip_split is_hyphen r) as (pre & post & Hr).
  split.
  - intros c Hin. apply (sub_alphabet false) with (c := c)
      (s := List.filter (λ c, negb (category_is_Mn U c))
              (normalize_NFD U (lower U t))).
    fold r. rewrite Hr. apply in_or_app; right. apply in_or_app; left.
    assumption.
  - intros H. apply strip_head in H. discriminate.
  - intros H. apply strip_last in H. discriminate.
  - apply (single_hyphens_middle pre _ post). rewrite <- Hr.
    apply sub_single_hyphens.
Qed.

Lemma slug_of_str_fixes_slug (U : unicode_tables) (s : pystr) :
  ascii_stable U → slug_shape s → slug_of_str U s = s.
Proof.
  intros [Hlow Hnfd Hmn] [Hc Hh Hl Hs]. unfold slug_of_str.
  rewrite Hlow, Hnfd by assumption.
  assert (Hf : List.filter (λ c, negb (category_is_Mn U c)) s = s).
  { clear Hh Hl Hs. induction s as [|x s IH]; simpl; [reflexivity|].
    rewrite Hmn by (apply Hc; left; reflexivity). simpl. f_equal.
    apply IH. intros c Hin; apply Hc; right; assumption. }
  rewrite Hf, sub_fixes_slug; [|assumption|assumption|discriminate].
  unfold strip. rewrite lstrip_id.
  - apply rstrip_id. intros c Hc'.
    destruct (is_hyphen c) eqn:E; [|reflexivity].
    apply is_hyphen_true in E; subst. contradiction.
  - intros c Hc'.
    destruct (is_hyphen c) eqn:E; [|reflexivity].
    apply is_hyphen_true in E; subst. contradiction.
Qed.

(** The Latin-1 tables of the examples satisfy [ascii_stable]. *)
Lemma latin1_ascii_stable : ascii_stable Sample.latin1.
Proof.
  assert (Hrange : ∀ c, is_a_z_0_9 c = true ∨ c = HYPHEN → c < 128).
  { intros c [H| ->]; [|reflexivity]. unfold is_a_z_0_9 in H.
    apply orb_true_iff in H as [H|H]; apply andb_true_iff in H as [_ H];
      apply N.leb_le in H; lia. }
  assert (Hlow : ∀ c, is_a_z_0_9 c = true ∨ c = HYPHEN →
                      Sample.lower_char c = c).
  { intros c [H| ->]; [|reflexivity]. unfold Sample.lower_char.
    unfold is_a_z_0_9 in H.
    destruct (65 <=? c) eqn:E1, (c <=? 90) eqn:E2, (192 <=? c) eqn:E3;
      simpl; try reflexivity;
      apply orb_true_iff in H as [H|H]; apply andb_true_iff in H as [Ha Hb];
      apply N.leb_le in Ha, Hb;
      try apply N.leb_le in E1; try apply N.leb_le in E2;
      try apply N.leb_le in E3; lia. }
  assert (Hdec : ∀ c, c < 128 → Sample.decompose c = [c]).
  { intros c Hc. unfold Sample.decompose.
    assert (E0 : (224 <=? c) = false) by (apply N.leb_gt; lia).
    rewrite E0. simpl.
    assert (E1 : (192 <=? c) = false) by (apply N.leb_gt; lia).
    assert (E2 : (c =? 199) = false) by (apply N.eqb_neq; lia).
    assert (E3 : (200 <=? c) = false) by (apply N.leb_gt; lia).
    assert (E4 : (204 <=? c) = false) by (apply N.leb_gt; lia).
    assert (E5 : (c =? 209) = false) by (apply N.eqb_neq; lia).
    assert (E6 : (210 <=? c) = false) by (apply N.leb_gt; lia).
    assert (E7 : (217 <=? c) = false) by (apply N.leb_gt; lia).
    assert (E8 : (c =? 221) = false) by (apply N.eqb_neq; lia).
    assert (E9 : (c =? 255) = false) by (apply N.eqb_neq; lia).
    rewrite E1, E2, E3, E4, E5, E6, E7, E8, E9. reflexivity. }
  split.
  - intros s Hs. simpl. induction s as [|x s IH]; simpl; [reflexivity|].
    rewrite Hlow by (apply Hs; left; reflexivity). f_equal.
    apply IH. intros c Hin; apply Hs; right; assumption.
  - intros s Hs. simpl. induction s as [|x s IH]; simpl; [reflexivity|].
    rewrite Hdec by (apply Hrange, Hs; left; reflexivity). simpl. f_equal.
    apply IH. intros c Hin; apply Hs; right; assumption.
  - intros c Hc. simpl. apply Hrange in Hc.
    assert (E : (768 <=? c) = false) by (apply N.leb_gt; lia).
    rewrite E. reflexivity.
Qed.

(** ** Slug Generator *)

(** C6. For every input string [generate_slug] returns a string made only
    of lower-case ASCII letters, digits and hyphens, with no hyphen at the
    start, none at the end and no two in a row.  The empty string yields
    the empty string (the tables map the empty string to itself), and
    "Café Déjà Vu!" yields "cafe-deja-vu". *)
Theorem generate_slug_shape :
  (∀ (U : unicode_tables) (t : pystr),
     ∃ s, generate_slug U (PyStr t) = Ok (PyStr s) ∧ slug_shape s)
  ∧ (∀ U : unicode_tables,
       lower U [] = [] → normalize_NFD U [] = [] →
       generate_slug U (PyStr []) = Ok (PyStr []))
  ∧ generate_slug Sample.latin1 (PyStr (u "Café Déjà Vu!"))
    = Ok (PyStr (u "cafe-deja-vu")).
Proof.
  split; [|split].
  - intros U t. exists (slug_of_str U t). split; [reflexivity|].
    apply slug_of_str_shape.
  - intros U Hl Hn. simpl. unfold slug_of_str. rewrite Hl, Hn. reflexivity.
  - vm_compute. reflexivity.
Qed.

Lemma generate_slug_shape_witness :
  generate_slug Sample.latin1 (PyStr []) = Ok (PyStr []).
Proof.
  apply (proj1 (proj2 generate_slug_shape) Sample.latin1); reflexivity.
Defined.

(** C10. [generate_slug] is idempotent, and a string already in slug form
    is a fixed point, provided text over [a-z0-9-] is stable under
    lowering and normalisation and contains no nonspacing mark. *)
Theorem generate_slug_idempotent (U : unicode_tables) :
  ascii_stable U →
  (∀ t : pystr,
     ∃ s, generate_slug U (PyStr t) = Ok (PyStr s)
          ∧ generate_slug U (PyStr s) = Ok (PyStr s))
  ∧ (∀ s : pystr, slug_shape s → generate_slug U (PyStr s) = Ok (PyStr s)).
Proof.
  intros HU. split.
  - intros t. exists (slug_of_str U t). split; [reflexivity|].
    simpl. do 2 f_equal.
    apply slug_of_str_fixes_slug; [assumption|apply slug_of_str_shape].
  - intros s Hs. simpl. do 2 f_equal.
    apply slug_of_str_fixes_slug; assumption.
Qed.

Lemma generate_slug_idempotent_witness :
  ascii_stable Sample.latin1
  ∧ (∃ s, generate_slug Sample.latin1 (PyStr (u "Café Déjà Vu!")) = Ok (PyStr s)
          ∧ generate_slug Sample.latin1 (PyStr s) = Ok (PyStr s)).
Proof.
  split; [exact latin1_ascii_stable|].
  apply (proj1 (generate_slug_idempotent Sample.latin1 latin1_ascii_stable)).
Defined.

(** ** Text and Markdown translators *)

Section Translators.

Variable py_str : pyval → pystr.
Variable client : list request → request → reply.

Lemma strip_reply_or_returns (original : pyval) (r : reply) (w : world) :
  ∃ v w', strip_reply_or original r w = (Ok v, w')
          ∧ fs w' = fs w ∧ calls w' = calls w.
Proof.
  destruct r as [e|[|[content|] rest]]; simpl; eauto.
Qed.

(** [translate_text] has no exit by exception: every path through its
    [try] statement returns. *)
Lemma translate_text_returns (text : pyval) (src tgt : pystr) (w : world) :
  ∃ v w', translate_text py_str client text src tgt w = (Ok v, w')
          ∧ sent (text_request py_str text src tgt) w w'.
Proof.
  unfold translate_text, bind, chat_completions_create.
  destruct (strip_reply_or_returns text
              (client (calls w) (text_request py_str text src tgt))
              {| fs := fs w;
                 calls := calls w ++ [text_request py_str text src tgt];
                 stdout := stdout w |})
    as (v & w' & -> & Hfs & Hcalls).
  exists v, w'. split; [reflexivity|]. split; assumption.
Qed.

Lemma translate_markdown_returns (text : pyval) (src tgt : pystr) (w : world) :
  ∃ v w', translate_markdown py_str client text src tgt w = (Ok v, w')
          ∧ sent (markdown_request py_str text src tgt) w w'.
Proof.
  unfold translate_markdown, bind, chat_completions_create.
  destruct (strip_reply_or_returns text
              (client (calls w) (markdown_request py_str text src tgt))
              {| fs := fs w;
                 calls := calls w ++ [markdown_request py_str text src tgt];
                 stdout := stdout w |})
    as (v & w' & -> & Hfs & Hcalls).
  exists v, w'. split; [reflexivity|]. split; assumption.
Qed.

(** What [translate_text] returns is the stripped content of the reply or
    its own argument. *)
Lemma translate_text_value (text v : pyval) (src tgt : pystr) (w w' : world) :
  translate_text py_str client text src tgt w = (Ok v, w') →
  v = text ∨ ∃ s, v = PyStr s.
Proof.
  unfold translate_text, bind, chat_completions_create.
  destruct (client (calls w) (text_request py_str text src tgt))
    as [e|[|[content|] rest]]; simpl; intros [= <- _]; eauto.
Qed.

(** The handler of a fault: the diagnostic is printed and the argument
    is returned. *)
Lemma strip_reply_or_fault (original : pyval) (e : pystr) (w : world) :
  strip_reply_or original (Fault e) w
  = (Ok original,
     {| fs := fs w; calls := calls w;
        stdout := stdout w ++ [u "Error during translation: " ++ e] |}).
Proof. reflexivity. Qed.

Lemma translate_text_fault (text : pyval) (src tgt e : pystr) (w : world) :
  client (calls w) (text_request py_str text src tgt) = Fault e →
  ∃ w', translate_text py_str client text src tgt w = (Ok text, w')
        ∧ stdout w' = stdout w ++ [u "Error during translation: " ++ e]
        ∧ fs w' = fs w.
Proof.
  intros H. unfold translate_text, bind, chat_completions_create.
  rewrite H, strip_reply_or_fault. eexists. split; [reflexivity|].
  split; reflexivity.
Qed.

Lemma translate_markdown_fault (text : pyval) (src tgt e : pystr)
    (w : world) :
  client (calls w) (markdown_request py_str text src tgt) = Fault e →
  ∃ w', translate_markdown py_str client text src tgt w = (Ok text, w')
        ∧ stdout w' = stdout w ++ [u "Error during translation: " ++ e]
        ∧ fs w' = fs w.
Proof.
  intros H. unfold translate_markdown, bind, chat_completions_create.
  rewrite H, strip_reply_or_fault. eexists. split; [reflexivity|].
  split; reflexivity.
Qed.

(** C1. Fail-open translation: when the call to the service raises,
    [translate_text] and [translate_markdown] return their argument
    itself, normally, after printing the diagnostic; the files are left
    as they were. *)
Theorem translate_fail_open
    (text : pyval) (src tgt : pystr) (w : world) (e : pystr) :
  (client (calls w) (text_request py_str text src tgt) = Fault e →
   ∃ w', translate_text py_str client text src tgt w = (Ok text, w')
         ∧ stdout w' = stdout w ++ [u "Error during translation: " ++ e]
         ∧ fs w' = fs w)
  ∧ (client (calls w) (markdown_request py_str text src tgt) = Fault e →
     ∃ w', translate_markdown py_str client text src tgt w = (Ok text, w')
           ∧ stdout w' = stdout w ++ [u "Error during translation: " ++ e]
           ∧ fs w' = fs w).
Proof.
  split; intros H.
  - apply translate_text_fault; exact H.
  - apply translate_markdown_fault; exact H.
Qed.

End Translators.

Lemma translate_fail_open_witness :
  ∃ w',
    translate_text Sample.py_str Sample.unreachable
      (PyStr (u "Bonjour  ")) (u "French") (u "English") Sample.empty_world
    = (Ok (PyStr (u "Bonjour  ")), w')
    ∧ stdout w'
      = stdout Sample.empty_world
        ++ [u "Error during translation: " ++ u "Connection error."]
    ∧ fs w' = fs Sample.empty_world.
Proof.
  apply (proj1 (translate_fail_open Sample.py_str Sample.unreachable
                  (PyStr (u "Bonjour  ")) (u "French") (u "English")
                  Sample.empty_world (u "Connection error."))).
  reflexivity.
Defined.

(** ** Dictionaries *)

Lemma dict_get_set_eq (k : pystr) (v : pyval) (d : dict) :
  dict_get k (dict_set k v d) = Some v.
Proof.
  induction d as [|[k' v'] d IH]; simpl.
  - rewrite str_eqb_refl; reflexivity.
  - destruct (str_eqb k k') eqn:E; simpl; rewrite E; [reflexivity|assumption].
Qed.

Lemma dict_get_set_ne (k k' : pystr) (v : pyval) (d : dict) :
  k ≠ k' → dict_get k' (dict_set k v d) = dict_get k' d.
Proof.
  intros Hne. induction d as [|[k0 v0] d IH]; simpl.
  - rewrite str_eqb_neq by congruence. reflexivity.
  - destruct (str_eqb k k0) eqn:E; simpl.
    + apply str_eqb_eq in E; subst k0.
      rewrite str_eqb_neq by congruence. reflexivity.
    + rewrite IH. reflexivity.
Qed.

Lemma dict_keys_set_present (k : pystr) (v v0 : pyval) (d : dict) :
  dict_get k d = Some v0 → dict_keys (dict_set k v d) = dict_keys d.
Proof.
  unfold dict_keys. induction d as [|[k' v'] d IH]; simpl; [discriminate|].
  destruct (str_eqb k k') eqn:E; simpl; [reflexivity|].
  intros H. rewrite IH by assumption. reflexivity.
Qed.

Lemma dict_keys_set_absent (k : pystr) (v : pyval) (d : dict) :
  dict_get k d = None → dict_keys (dict_set k v d) = dict_keys d ++ [k].
Proof.
  unfold dict_keys. induction d as [|[k' v'] d IH]; simpl; [reflexivity|].
  destruct (str_eqb k k') eqn:E; simpl; [discriminate|].
  intros H. rewrite IH by assumption. reflexivity.
Qed.

Lemma dict_get_keys (k : pystr) (d : dict) :
  In k (dict_keys d) ↔ dict_get k d ≠ None.
Proof.
  unfold dict_keys. induction d as [|[k' v'] d IH]; simpl; [tauto|].
  destruct (str_eqb k k') eqn:E.
  - apply str_eqb_eq in E; subst. split; [discriminate|auto].
  - rewrite <- IH. split; [|tauto].
    intros [->|H]; [|assumption]. rewrite str_eqb_refl in E. discriminate.
Qed.

(** ** The monad *)

Lemma bind_ok_inv {A B} (c : M A) (k : A → M B) (w w' : world) (b : B) :
  bind c k w = (Ok b, w') →
  ∃ a w1, c w = (Ok a, w1) ∧ k a w1 = (Ok b, w').
Proof.
  unfold bind. destruct (c w) as [[a|e] w1]; [eauto|discriminate].
Qed.

Lemma bind_ret_r {A} (c : M A) (w : world) : bind c ret w = c w.
Proof. unfold bind, ret. destruct (c w) as [[a|e] w1]; reflexivity. Qed.

(** Distinct literal keys. *)
Ltac key_neq := let H := fresh in intros H; vm_compute in H; discriminate.

(** ** Front-Matter Transformer *)

Section FrontMatter.

Variable U : unicode_tables.
Variable py_str : pyval → pystr.
Variable client : list request → request → reply.
Variable CODE : pystr.
Variables src tgt : pystr.

Local Abbreviation translate := (translate_text py_str client).
Local Abbreviation request_for := (fun text => text_request py_str text src tgt).
Local Abbreviation translation := (is_translation_of py_str client src tgt).

(** The list comprehension over [categories] or [tags] returns, with one
    output per input, each the translation of the item at its position,
    and sends one request per item, in order. *)
Lemma comprehension_translate (items : list pyval) (w : world) :
  ∃ items' w',
    comprehension (fun item => translate item src tgt) items w
    = (Ok items', w')
    ∧ Forall2 translation items items'
    ∧ fs w' = fs w
    ∧ calls w' = calls w ++ List.map request_for items.
Proof.
  revert w; induction items as [|x items IH]; intros w; simpl.
  - exists [], w. unfold ret. rewrite app_nil_r. auto.
  - destruct (translate_text_returns py_str client x src tgt w)
      as (y & w1 & Hy & Hfs1 & Hc1).
    destruct (IH w1) as (ys & w2 & Hys & HF & Hfs2 & Hc2).
    exists (y :: ys), w2. unfold bind at 1. rewrite Hy.
    unfold bind at 1. rewrite Hys. unfold ret.
    split; [reflexivity|]. split; [|split].
    + constructor; [exists w, w1; assumption | assumption].
    + congruence.
    + rewrite Hc2, Hc1, <- app_assoc. reflexivity.
Qed.

Lemma translate_scalar_field_dict (f : pystr) (d : dict) (w : world) :
  ∃ d' w',
    translate_scalar_field py_str client src tgt f (PyDict d) w
    = (Ok (PyDict d'), w')
    ∧ rewrites_field py_str src tgt (scalar_translated py_str client src tgt)
        scalar_texts f d w d' w'
    ∧ (∀ old, dict_get f d = Some old →
         ∃ new, translate old src tgt w = (Ok new, w')
                ∧ dict_get f d' = Some new).
Proof.
  unfold translate_scalar_field, rewrites_field, scalar_texts.
  unfold bind at 1. simpl. unfold dict_has.
  destruct (dict_get f d) as [old|] eqn:E.
  - destruct (translate_text_returns py_str client old src tgt w)
      as (new & w1 & Hnew & Hfs & Hc).
    exists (dict_set f new d), w1.
    unfold bind at 1. unfold lift at 1. simpl.
    unfold bind. rewrite Hnew. unfold lift.
    split; [reflexivity|].
    split; [split; [|split; [|split; [|split]]]|].
    + eapply dict_keys_set_present; eassumption.
    + intros k Hk. apply dict_get_set_ne. congruence.
    + rewrite dict_get_set_eq. exists new. split; [reflexivity|].
      exists w, w1. assumption.
    + assumption.
    + assumption.
    + intros old' [= <-]. exists new. split; [assumption|].
      apply dict_get_set_eq.
  - exists d, w. unfold ret. simpl. rewrite app_nil_r.
    repeat split; auto. discriminate.
Qed.

Lemma translate_list_field_dict (f : pystr) (d : dict) (w : world) :
  ∃ d' w',
    translate_list_field py_str client src tgt f (PyDict d) w
    = (Ok (PyDict d'), w')
    ∧ rewrites_field py_str src tgt (list_translated py_str client src tgt)
        list_texts f d w d' w'.
Proof.
  unfold translate_list_field, rewrites_field, list_texts.
  unfold bind at 1. simpl. unfold dict_has.
  destruct (dict_get f d) as [old|] eqn:E.
  - unfold bind at 1. unfold lift at 1. simpl.
    assert (Hscalar :
      ∃ d' w',
        (new <- translate old src tgt ;;
         lift (py_setitem (PyDict d) f new)) w = (Ok (PyDict d'), w')
        ∧ dict_keys d' = dict_keys d
        ∧ (∀ k, k ≠ f → dict_get k d' = dict_get k d)
        ∧ (∃ v, dict_get f d' = Some v ∧ translation old v)
        ∧ fs w' = fs w
        ∧ calls w' = calls w ++ List.map request_for [old]).
    { destruct (translate_text_returns py_str client old src tgt w)
        as (new & w1 & Hnew & Hfs & Hc).
      exists (dict_set f new d), w1.
      unfold bind. rewrite Hnew. unfold lift.
      split; [reflexivity|]. split; [|split; [|split; [|split]]].
      - eapply dict_keys_set_present; eassumption.
      - intros k Hk. apply dict_get_set_ne. congruence.
      - exists new. rewrite dict_get_set_eq. split; [reflexivity|].
        exists w, w1. assumption.
      - assumption.
      - assumption. }
    destruct old as [| b | z | s | items | entries]; try exact Hscalar.
    clear Hscalar.
    destruct (comprehension_translate items w)
      as (items' & w1 & Hrun & HF & Hfs & Hc).
    exists (dict_set f (PyList items') d), w1.
    unfold bind. rewrite Hrun. unfold lift.
    split; [reflexivity|]. split; [|split; [|split; [|split]]].
    + eapply dict_keys_set_present; eassumption.
    + intros k Hk. apply dict_get_set_ne. congruence.
    + exists items'. rewrite dict_get_set_eq. auto.
    + assumption.
    + assumption.
  - exists d, w. unfold ret. simpl. rewrite app_nil_r.
    repeat split; auto.
Qed.


Local Abbreviation TRANSLATED :=
  [u "title"; u "subheadline"; u "teaser"; u "categories"; u "tags"].

Lemma scalar_texts_frame (f : pystr) (d d' : dict) :
  dict_get f d' = dict_get f d → scalar_texts f d' = scalar_texts f d.
Proof. unfold scalar_texts. intros ->. reflexivity. Qed.

Lemma list_texts_frame (f : pystr) (d d' : dict) :
  dict_get f d' = dict_get f d → list_texts f d' = list_texts f d.
Proof. unfold list_texts. intros ->. reflexivity. Qed.

(** The two translation loops on a mapping: they always run to the end;
    the five fields are translated, each from its original value, and
    nothing else changes. *)
Lemma translation_loops_dict (d : dict) (w : world) :
  ∃ d1 w1 d2 w2,
    for_each [u "title"; u "subheadline"; u "teaser"]
      (translate_scalar_field py_str client src tgt) (PyDict d) w
    = (Ok (PyDict d1), w1)
    ∧ for_each [u "categories"; u "tags"]
        (translate_list_field py_str client src tgt) (PyDict d1) w1
      = (Ok (PyDict d2), w2)
    ∧ dict_keys d2 = dict_keys d
    ∧ (∀ k, ¬ In k TRANSLATED → dict_get k d2 = dict_get k d)
    ∧ (∀ f, In f [u "title"; u "subheadline"; u "teaser"] →
         scalar_translated py_str client src tgt
           (dict_get f d) (dict_get f d2))
    ∧ (∀ f, In f [u "categories"; u "tags"] →
         list_translated py_str client src tgt
           (dict_get f d) (dict_get f d2))
    ∧ fs w2 = fs w
    ∧ calls w2 = calls w ++ List.map request_for (translated_texts d)
    ∧ (∀ title, dict_get (u "title") d = Some title →
         ∃ title' w0, translate title src tgt w = (Ok title', w0)
                      ∧ dict_get (u "title") d2 = Some title').
Proof.
  destruct (translate_scalar_field_dict (u "title") d w)
    as (da & wa & Ha & (Ka & Fa & Ra & Sa & Ca) & Xa).
  destruct (translate_scalar_field_dict (u "subheadline") da wa)
    as (db & wb & Hb & (Kb & Fb & Rb & Sb & Cb) & _).
  destruct (translate_scalar_field_dict (u "teaser") db wb)
    as (dc & wc & Hc & (Kc & Fc & Rc & Sc & Cc) & _).
  destruct (translate_list_field_dict (u "categories") dc wc)
    as (dd & wd & Hd & Kd & Fd & Rd & Sd & Cd).
  destruct (translate_list_field_dict (u "tags") dd wd)
    as (de & we & He & Ke & Fe & Re & Se & Ce).
  exists dc, wc, de, we.
  split; [|split; [|split; [|split; [|split; [|split; [|split; [|split]]]]]]].
  - simpl. unfold bind at 1. rewrite Ha. unfold bind at 1. rewrite Hb.
    unfold bind at 1. rewrite Hc. reflexivity.
  - simpl. unfold bind at 1. rewrite Hd. unfold bind at 1. rewrite He.
    reflexivity.
  - congruence.
  - intros k Hk.
    rewrite Fe, Fd, Fc, Fb, Fa; [reflexivity|..];
      intros ->; apply Hk; simpl; tauto.
  - intros f [<-|[<-|[<-|[]]]].
    + rewrite Fe, Fd, Fc, Fb by key_neq. exact Ra.
    + rewrite Fe, Fd, Fc by key_neq.
      rewrite <- (Fa (u "subheadline")) by key_neq. exact Rb.
    + rewrite Fe, Fd by key_neq.
      rewrite <- (Fa (u "teaser")), <- (Fb (u "teaser")) by key_neq.
      exact Rc.
  - intros f [<-|[<-|[]]].
    + rewrite Fe by key_neq.
      rewrite <- (Fa (u "categories")), <- (Fb (u "categories")),
        <- (Fc (u "categories")) by key_neq.
      exact Rd.
    + rewrite <- (Fa (u "tags")), <- (Fb (u "tags")),
        <- (Fc (u "tags")), <- (Fd (u "tags")) by key_neq.
      exact Re.
  - congruence.
  - rewrite Ce, Cd, Cc, Cb, Ca. unfold translated_texts.
    rewrite !map_app, <- !app_assoc.
    rewrite (scalar_texts_frame (u "subheadline") d da)
      by (apply Fa; key_neq).
    rewrite (scalar_texts_frame (u "teaser") d db)
      by (rewrite Fb, Fa by key_neq; reflexivity).
    rewrite (list_texts_frame (u "categories") d dc)
      by (rewrite Fc, Fb, Fa by key_neq; reflexivity).
    rewrite (list_texts_frame (u "tags") d dd)
      by (rewrite Fd, Fc, Fb, Fa by key_neq; reflexivity).
    reflexivity.
  - intros title Ht. destruct (Xa title Ht) as (title' & Hcall & Hget).
    exists title', wa. split; [assumption|].
    rewrite Fe, Fd, Fc, Fb by key_neq. assumption.
Qed.

Lemma update_slug_dict (d : dict) (w : world) :
  update_slug U (PyDict d) w
  = match dict_get (u "title") d with
    | None => (Ok (PyDict d), w)
    | Some title =>
      match generate_slug U title with
      | Ok s => (Ok (PyDict (dict_set (u "slug") s d)), w)
      | Raise e => (Raise e, w)
      end
    end.
Proof.
  unfold update_slug, bind, lift, ret. cbn. unfold dict_has.
  destruct (dict_get (u "title") d) as [title|]; [|reflexivity].
  destruct (generate_slug U title); reflexivity.
Qed.

Lemma update_permalink_dict (d : dict) (w : world) :
  update_permalink py_str CODE (PyDict d) w
  = match dict_get (u "permalink") d with
    | None => (Ok (PyDict d), w)
    | Some (PyStr p) =>
      if startswith (u "/" ++ CODE ++ u "/") p then (Ok (PyDict d), w)
      else (Ok (PyDict (dict_set (u "permalink")
                          (PyStr (u "/" ++ CODE ++ p)) d)), w)
    | Some _ => (Raise AttributeError, w)
    end.
Proof.
  unfold update_permalink, bind, lift, ret. cbn. unfold dict_has.
  destruct (dict_get (u "permalink") d) as [[| b | z | p | l | e]|];
    try reflexivity.
  cbn. destruct (startswith (u "/" ++ CODE ++ u "/") p); reflexivity.
Qed.

(** [translate_front_matter] on a mapping, cut after the two loops. *)
Lemma translate_front_matter_dict (d : dict) (w : world) :
  ∃ d2 w2,
    translate_front_matter U py_str client CODE (PyDict d) src tgt w
    = (fm <- update_slug U (PyDict d2) ;; update_permalink py_str CODE fm) w2
    ∧ dict_keys d2 = dict_keys d
    ∧ (∀ k, ¬ In k TRANSLATED → dict_get k d2 = dict_get k d)
    ∧ (∀ f, In f [u "title"; u "subheadline"; u "teaser"] →
         scalar_translated py_str client src tgt
           (dict_get f d) (dict_get f d2))
    ∧ (∀ f, In f [u "categories"; u "tags"] →
         list_translated py_str client src tgt
           (dict_get f d) (dict_get f d2))
    ∧ fs w2 = fs w
    ∧ calls w2 = calls w ++ List.map request_for (translated_texts d)
    ∧ (∀ title, dict_get (u "title") d = Some title →
         ∃ title' w0, translate title src tgt w = (Ok title', w0)
                      ∧ dict_get (u "title") d2 = Some title').
Proof.
  destruct (translation_loops_dict d w)
    as (d1 & w1 & d2 & w2 & H1 & H2 & Hrest).
  exists d2, w2. split; [|exact Hrest].
  unfold translate_front_matter.
  unfold bind at 1. rewrite H1. unfold bind at 1. rewrite H2.
  unfold bind at 1 3.
  destruct (update_slug U (PyDict d2) w2) as [[fm|e] w3]; [|reflexivity].
  apply bind_ret_r.
Qed.

(** What is left of a normal return once the loops are done. *)
Lemma finish_dict_inv (d2 : dict) (w2 w' : world) (v : pyval) :
  (fm <- update_slug U (PyDict d2) ;; update_permalink py_str CODE fm) w2
  = (Ok v, w') →
  w' = w2
  ∧ ∃ d3 d4,
      v = PyDict d4
      ∧ match dict_get (u "title") d2 with
        | None => d3 = d2
        | Some title =>
          ∃ s, generate_slug U title = Ok s ∧ d3 = dict_set (u "slug") s d2
        end
      ∧ match dict_get (u "permalink") d3 with
        | None => d4 = d3
        | Some permalink =>
          ∃ p, permalink = PyStr p
               ∧ d4 = if startswith (u "/" ++ CODE ++ u "/") p then d3
                      else dict_set (u "permalink")
                             (PyStr (u "/" ++ CODE ++ p)) d3
        end.
Proof.
  intros H. apply bind_ok_inv in H as (fm & w3 & Hs & Hp).
  rewrite update_slug_dict in Hs.
  assert (Hslug : w3 = w2 ∧ ∃ d3, fm = PyDict d3 ∧
            match dict_get (u "title") d2 with
            | None => d3 = d2
            | Some title =>
              ∃ s, generate_slug U title = Ok s
                   ∧ d3 = dict_set (u "slug") s d2
            end).
  { destruct (dict_get (u "title") d2) as [title|].
    - destruct (generate_slug U title) as [s|e] eqn:E; [|discriminate].
      injection Hs as <- <-. split; [reflexivity|]. eauto.
    - injection Hs as <- <-. split; [reflexivity|]. eauto. }
  destruct Hslug as (-> & d3 & -> & Hd3).
  rewrite update_permalink_dict in Hp.
  destruct (dict_get (u "permalink") d3) as [permalink|] eqn:E.
  - destruct permalink as [| b | z | p | l | e]; try discriminate.
    destruct (startswith (u "/" ++ CODE ++ u "/") p) eqn:Es;
      injection Hp as <- <-; (split; [reflexivity|]);
      exists d3, (if startswith (u "/" ++ CODE ++ u "/") p then d3
                  else dict_set (u "permalink")
                         (PyStr (u "/" ++ CODE ++ p)) d3);
      rewrite Es; (split; [reflexivity|]); (split; [assumption|]);
      rewrite E; exists p; rewrite Es; auto.
  - injection Hp as <- <-. split; [reflexivity|].
    exists d3, d3. rewrite E. auto.
Qed.


(** The same, as facts about the returned mapping. *)
Lemma finish_dict_facts (d2 : dict) (w2 w' : world) (v : pyval) :
  (fm <- update_slug U (PyDict d2) ;; update_permalink py_str CODE fm) w2
  = (Ok v, w') →
  w' = w2
  ∧ ∃ d4,
      v = PyDict d4
      ∧ (∀ k, k ≠ u "slug" → k ≠ u "permalink" →
           dict_get k d4 = dict_get k d2)
      ∧ (∀ k, k ≠ u "slug" → dict_get k d2 = None → dict_get k d4 = None)
      ∧ (∀ title, dict_get (u "title") d2 = Some title →
           ∃ s, generate_slug U title = Ok s
                ∧ dict_get (u "slug") d4 = Some s)
      ∧ (dict_get (u "title") d2 = None →
           dict_get (u "slug") d4 = dict_get (u "slug") d2).
Proof.
  intros H. apply finish_dict_inv in H as (-> & d3 & d4 & -> & H3 & H4).
  split; [reflexivity|]. exists d4.
  assert (F3 : ∀ k, k ≠ u "slug" → dict_get k d3 = dict_get k d2).
  { intros k Hk. destruct (dict_get (u "title") d2) as [title|].
    - destruct H3 as (s & _ & ->). apply dict_get_set_ne. congruence.
    - subst d3. reflexivity. }
  assert (F4 : ∀ k, k ≠ u "permalink" → dict_get k d4 = dict_get k d3).
  { intros k Hk. destruct (dict_get (u "permalink") d3) as [permalink|].
    - destruct H4 as (p & _ & ->).
      destruct (startswith (u "/" ++ CODE ++ u "/") p); [reflexivity|].
      apply dict_get_set_ne. congruence.
    - subst d4. reflexivity. }
  split; [reflexivity|]. split; [|split; [|split]].
  - intros k Hs Hp. rewrite F4, F3 by assumption. reflexivity.
  - intros k Hs Hk.
    destruct (decide (k = u "permalink")) as [->|Hp].
    + rewrite <- F3 in Hk by assumption. rewrite Hk in H4. subst d4.
      assumption.
    + rewrite F4, F3 by assumption. assumption.
  - intros title Ht. rewrite Ht in H3. destruct H3 as (s & Hs & ->).
    exists s. split; [assumption|].
    rewrite F4 by key_neq. apply dict_get_set_eq.
  - intros Ht. rewrite Ht in H3. subst d3. apply F4. key_neq.
Qed.

(** A mapping whose [title] and [permalink], where present, are strings
    goes through the transformer without an exception. *)
Lemma translate_front_matter_returns (d : dict) (w : world) :
  (∀ title, dict_get (u "title") d = Some title → ∃ s, title = PyStr s) →
  (∀ permalink, dict_get (u "permalink") d = Some permalink →
                ∃ s, permalink = PyStr s) →
  ∃ d' w',
    translate_front_matter U py_str client CODE (PyDict d) src tgt w
    = (Ok (PyDict d'), w').
Proof.
  intros Htitle Hperm.
  destruct (translate_front_matter_dict d w)
    as (d2 & w2 & Heq & Hkeys & Hframe & _ & _ & _ & _ & Hfirst).
  assert (Hp2 : dict_get (u "permalink") d2 = dict_get (u "permalink") d).
  { apply Hframe. simpl.
    intros [H|[H|[H|[H|[H|[]]]]]]; vm_compute in H; discriminate. }
  assert (Hslug : ∃ d3,
            update_slug U (PyDict d2) w2 = (Ok (PyDict d3), w2)
            ∧ dict_get (u "permalink") d3 = dict_get (u "permalink") d).
  { rewrite update_slug_dict.
    destruct (dict_get (u "title") d2) as [title2|] eqn:E2;
      [|exists d2; split; [reflexivity|exact Hp2]].
    assert (Hstr : ∃ s, title2 = PyStr s).
    { destruct (dict_get (u "title") d) as [title|] eqn:E.
      - destruct (Hfirst title eq_refl) as (title' & w0 & Hcall & Hget).
        injection Hget as <-.
        apply translate_text_value in Hcall as [->|Hs]; [|exact Hs].
        apply Htitle. reflexivity.
      - exfalso. apply (proj1 (dict_get_keys (u "title") d)); [|exact E].
        rewrite <- Hkeys. apply dict_get_keys. congruence. }
    destruct Hstr as (s & ->). simpl. eexists. split; [reflexivity|].
    rewrite dict_get_set_ne by key_neq. exact Hp2. }
  destruct Hslug as (d3 & Hs3 & Hp3).
  rewrite Heq. unfold bind. rewrite Hs3, update_permalink_dict.
  rewrite Hp3.
  destruct (dict_get (u "permalink") d) as [permalink|] eqn:E3; [|eauto].
  destruct (Hperm permalink eq_refl) as (p & ->).
  destruct (startswith (u "/" ++ CODE ++ u "/") p); eauto.
Qed.

(** C7. When [categories] (or [tags]) is a list of N items, the
    transformed front matter holds a list of N items, the item at each
    position being the Text Translator's output for the item at that
    position of the input; a value that is not a list is translated as
    one text. *)
Theorem categories_and_tags_translated
    (d : dict) (w w' : world) (v : pyval) (field : pystr) :
  translate_front_matter U py_str client CODE (PyDict d) src tgt w
  = (Ok v, w') →
  field = u "categories" ∨ field = u "tags" →
  ∃ d',
    v = PyDict d'
    ∧ (∀ items, dict_get field d = Some (PyList items) →
         ∃ items',
           dict_get field d' = Some (PyList items')
           ∧ length items' = length items
           ∧ ∀ i item, items !! i = Some item →
               ∃ item', items' !! i = Some item' ∧ translation item item')
    ∧ (∀ text, dict_get field d = Some text → is_list text = false →
         ∃ text', dict_get field d' = Some text' ∧ translation text text').
Proof.
  intros Hrun Hfield.
  destruct (translate_front_matter_dict d w)
    as (d2 & w2 & Heq & _ & _ & _ & Hlist & _).
  rewrite Heq in Hrun.
  apply finish_dict_facts in Hrun as (_ & d4 & -> & Hframe & _).
  exists d4. split; [reflexivity|].
  assert (Hin : In field [u "categories"; u "tags"])
    by (destruct Hfield as [->| ->]; simpl; auto).
  specialize (Hlist field Hin).
  assert (Hsame : dict_get field d4 = dict_get field d2)
    by (apply Hframe; destruct Hfield as [->| ->]; key_neq).
  rewrite Hsame. split.
  - intros items Hitems. rewrite Hitems in Hlist.
    destruct Hlist as (items' & -> & HF). exists items'.
    split; [reflexivity|]. split.
    + symmetry. eapply Forall2_length; eassumption.
    + intros i item Hi.
      destruct (Forall2_lookup_l _ _ _ _ _ HF Hi) as (item' & Hi' & Ht).
      eauto.
  - intros text Htext Hnot. rewrite Htext in Hlist.
    destruct text; try discriminate Hnot; exact Hlist.
Qed.

(** C8. When [title] is present, the returned front matter carries under
    [slug] the result of [generate_slug] on the translated title, whatever
    [slug] held before.  The requests sent are those for the values of
    [title], [subheadline], [teaser], [categories] and [tags], and they
    are the same whatever the front matter holds under [slug]. *)
Theorem slug_regenerated_from_title
    (d : dict) (w w' : world) (v title : pyval) :
  translate_front_matter U py_str client CODE (PyDict d) src tgt w
  = (Ok v, w') →
  dict_get (u "title") d = Some title →
  ∃ d' title' slug,
    v = PyDict d'
    ∧ dict_get (u "title") d' = Some title'
    ∧ translation title title'
    ∧ generate_slug U title' = Ok slug
    ∧ dict_get (u "slug") d' = Some slug
    ∧ calls w' = calls w ++ List.map request_for (translated_texts d)
    ∧ ∀ x, translated_texts (dict_set (u "slug") x d) = translated_texts d.
Proof.
  intros Hrun Htitle.
  destruct (translate_front_matter_dict d w)
    as (d2 & w2 & Heq & _ & _ & Hscalar & _ & _ & Hcalls & _).
  rewrite Heq in Hrun.
  apply finish_dict_facts in Hrun
    as (-> & d4 & -> & Hframe & _ & Hslug & _).
  specialize (Hscalar (u "title") (or_introl eq_refl)).
  rewrite Htitle in Hscalar. destruct Hscalar as (title' & Ht' & Htr).
  destruct (Hslug title' Ht') as (slug & Hgen & Hget).
  exists d4, title', slug.
  split; [reflexivity|]. split; [|split; [|split; [|split; [|split]]]];
    try assumption.
  - rewrite Hframe by key_neq. assumption.
  - intros x. unfold translated_texts, scalar_texts, list_texts.
    rewrite !dict_get_set_ne by key_neq. reflexivity.
Qed.

(** C9. Every key outside the recognised set keeps its value (absent keys
    stay absent), and no key that the input lacks is added, [slug]
    excepted. *)
Theorem unrecognized_fields_unchanged
    (d : dict) (w w' : world) (v : pyval) :
  translate_front_matter U py_str client CODE (PyDict d) src tgt w
  = (Ok v, w') →
  ∃ d',
    v = PyDict d'
    ∧ (∀ k, ¬ In k RECOGNIZED → dict_get k d' = dict_get k d)
    ∧ (∀ k, k ≠ u "slug" → dict_get k d = None → dict_get k d' = None).
Proof.
  intros Hrun.
  destruct (translate_front_matter_dict d w)
    as (d2 & w2 & Heq & Hkeys & Hframe2 & _).
  rewrite Heq in Hrun.
  apply finish_dict_facts in Hrun as (_ & d4 & -> & Hframe & Hnew & _).
  exists d4. split; [reflexivity|]. split.
  - intros k Hk. rewrite Hframe, Hframe2; [reflexivity|..];
      intros Hin; apply Hk; unfold RECOGNIZED; simpl in *;
      intuition auto.
  - intros k Hs Hk. apply Hnew; [assumption|].
    destruct (dict_get k d2) eqn:E; [|reflexivity].
    exfalso.
    assert (Hin : In k (dict_keys d2))
      by (apply dict_get_keys; congruence).
    rewrite Hkeys in Hin. apply dict_get_keys in Hin. contradiction.
Qed.


(** ** Permalink *)

Lemma startswith_app (a b c : pystr) :
  startswith (a ++ b) (a ++ c) = startswith b c.
Proof.
  induction a as [|x a IH]; simpl; [reflexivity|].
  rewrite N.eqb_refl. exact IH.
Qed.

(** The permalink of a returned front matter, from the one that went
    in. *)
Lemma permalink_after (d : dict) (w w' : world) (v permalink : pyval) :
  translate_front_matter U py_str client CODE (PyDict d) src tgt w
  = (Ok v, w') →
  dict_get (u "permalink") d = Some permalink →
  ∃ d' p,
    v = PyDict d' ∧ permalink = PyStr p
    ∧ dict_get (u "permalink") d'
      = Some (PyStr (if startswith (u "/" ++ CODE ++ u "/") p then p
                     else u "/" ++ CODE ++ p)).
Proof.
  intros Hrun Hp.
  destruct (translate_front_matter_dict d w)
    as (d2 & w2 & Heq & _ & Hframe2 & _).
  rewrite Heq in Hrun.
  apply finish_dict_inv in Hrun as (_ & d3 & d4 & -> & H3 & H4).
  assert (Hp3 : dict_get (u "permalink") d3 = Some permalink).
  { rewrite <- Hp, <- (Hframe2 (u "permalink")).
    - destruct (dict_get (u "title") d2) as [title|].
      + destruct H3 as (s & _ & ->). apply dict_get_set_ne. key_neq.
      + subst d3. reflexivity.
    - simpl. intros [H|[H|[H|[H|[H|[]]]]]]; vm_compute in H; discriminate. }
  rewrite Hp3 in H4. destruct H4 as (p & -> & ->).
  exists (if startswith (u "/" ++ CODE ++ u "/") p then d3
          else dict_set (u "permalink") (PyStr (u "/" ++ CODE ++ p)) d3), p.
  split; [reflexivity|]. split; [reflexivity|].
  destruct (startswith (u "/" ++ CODE ++ u "/") p) eqn:E.
  - assumption.
  - apply dict_get_set_eq.
Qed.

(** For a permalink that starts with a slash the prefix is in place after
    one pass, and a second pass keeps the permalink. *)
Lemma rooted_permalink_prefixed (d : dict) (w w' : world) (v : pyval)
    (p : pystr) :
  translate_front_matter U py_str client CODE (PyDict d) src tgt w
  = (Ok v, w') →
  dict_get (u "permalink") d = Some (PyStr p) →
  startswith (u "/") p = true →
  ∃ d' p',
    v = PyDict d' ∧ dict_get (u "permalink") d' = Some (PyStr p')
    ∧ startswith (u "/" ++ CODE ++ u "/") p' = true.
Proof.
  intros Hrun Hp Hroot.
  destruct (permalink_after d w w' v _ Hrun Hp) as (d' & p0 & -> & [= <-] & H).
  exists d'. eexists. split; [reflexivity|]. split; [exact H|].
  destruct (startswith (u "/" ++ CODE ++ u "/") p) eqn:E; [assumption|].
  rewrite !startswith_app.
  destruct p as [|c p]; [discriminate|].
  change (u "/") with [47] in *. simpl in *. exact Hroot.
Qed.

Lemma rooted_permalink_idempotent
    (d d' : dict) (w w1 w1' w2 : world) (v : pyval) (p : pystr) :
  translate_front_matter U py_str client CODE (PyDict d) src tgt w
  = (Ok (PyDict d'), w1) →
  translate_front_matter U py_str client CODE (PyDict d') src tgt w1'
  = (Ok v, w2) →
  dict_get (u "permalink") d = Some (PyStr p) →
  startswith (u "/") p = true →
  ∃ d'', v = PyDict d''
         ∧ dict_get (u "permalink") d'' = dict_get (u "permalink") d'.
Proof.
  intros H1 H2 Hp Hroot.
  destruct (rooted_permalink_prefixed d w w1 _ p H1 Hp Hroot)
    as (d0 & p' & [= <-] & Hp' & Hpre).
  destruct (permalink_after d' w1' w2 v _ H2 Hp') as (d'' & q & -> & [= <-] & H).
  exists d''. split; [reflexivity|].
  rewrite H, Hpre, Hp'. reflexivity.
Qed.

End FrontMatter.

Lemma categories_and_tags_translated_witness :
  ∃ v w',
    translate_front_matter Sample.latin1 Sample.py_str Sample.shouting
      (u "fr") (PyDict Sample.post) (u "English") (u "French")
      Sample.empty_world = (Ok v, w')
    ∧ ∃ d',
        v = PyDict d'
        ∧ (∀ items,
             dict_get (u "categories") Sample.post = Some (PyList items) →
             ∃ items',
               dict_get (u "categories") d' = Some (PyList items')
               ∧ length items' = length items
               ∧ ∀ i item, items !! i = Some item →
                   ∃ item', items' !! i = Some item'
                            ∧ is_translation_of Sample.py_str Sample.shouting
                                (u "English") (u "French") item item')
        ∧ (∀ text,
             dict_get (u "categories") Sample.post = Some text →
             is_list text = false →
             ∃ text', dict_get (u "categories") d' = Some text'
                      ∧ is_translation_of Sample.py_str Sample.shouting
                          (u "English") (u "French") text text').
Proof.
  do 2 eexists.
  match goal with |- ?A ∧ _ => assert (H : A) by (lazy; reflexivity) end.
  split; [exact H|].
  apply (categories_and_tags_translated Sample.latin1 Sample.py_str
           Sample.shouting (u "fr") (u "English") (u "French")
           Sample.post Sample.empty_world _ _ (u "categories") H).
  left; reflexivity.
Defined.

Lemma slug_regenerated_from_title_witness :
  ∃ v w',
    translate_front_matter Sample.latin1 Sample.py_str Sample.shouting
      (u "fr") (PyDict Sample.post) (u "English") (u "French")
      Sample.empty_world = (Ok v, w')
    ∧ ∃ d' title' slug,
        v = PyDict d'
        ∧ dict_get (u "title") d' = Some title'
        ∧ is_translation_of Sample.py_str Sample.shouting
            (u "English") (u "French") (PyStr (u "Hello World")) title'
        ∧ generate_slug Sample.latin1 title' = Ok slug
        ∧ dict_get (u "slug") d' = Some slug
        ∧ calls w'
          = calls Sample.empty_world
            ++ List.map (fun text =>
                           text_request Sample.py_str text
                             (u "English") (u "French"))
                 (translated_texts Sample.post)
        ∧ ∀ x, translated_texts (dict_set (u "slug") x Sample.post)
               = translated_texts Sample.post.
Proof.
  do 2 eexists.
  match goal with |- ?A ∧ _ => assert (H : A) by (lazy; reflexivity) end.
  split; [exact H|].
  apply (slug_regenerated_from_title Sample.latin1 Sample.py_str
           Sample.shouting (u "fr") (u "English") (u "French")
           Sample.post Sample.empty_world _ _ (PyStr (u "Hello World")) H).
  reflexivity.
Defined.

Lemma unrecognized_fields_unchanged_witness :
  ∃ v w',
    translate_front_matter Sample.latin1 Sample.py_str Sample.shouting
      (u "fr") (PyDict Sample.post) (u "English") (u "French")
      Sample.empty_world = (Ok v, w')
    ∧ ∃ d',
        v = PyDict d'
        ∧ (∀ k, ¬ In k RECOGNIZED →
                dict_get k d' = dict_get k Sample.post)
        ∧ (∀ k, k ≠ u "slug" → dict_get k Sample.post = None →
                dict_get k d' = None).
Proof.
  do 2 eexists.
  match goal with |- ?A ∧ _ => assert (H : A) by (lazy; reflexivity) end.
  split; [exact H|].
  exact (unrecognized_fields_unchanged Sample.latin1 Sample.py_str
           Sample.shouting (u "fr") (u "English") (u "French")
           Sample.post Sample.empty_world _ _ H).
Defined.

(** ** Effects on the file system *)

Lemma bind_inv {A B} (c : M A) (k : A → M B) (w w' : world) (r : result B) :
  bind c k w = (r, w') →
  (∃ a w1, c w = (Ok a, w1) ∧ k a w1 = (r, w'))
  ∨ (∃ e, c w = (Raise e, w') ∧ r = Raise e).
Proof.
  unfold bind. destruct (c w) as [[a|e] w1].
  - left; eauto.
  - intros [= <- <-]. right; eauto.
Qed.

Lemma keeps_files_ret {A} (a : A) : keeps_files (ret a).
Proof. intros w; reflexivity. Qed.

Lemma keeps_files_raise {A} (e : exn) : keeps_files (@raise A e).
Proof. intros w; reflexivity. Qed.

Lemma keeps_files_lift {A} (r : result A) : keeps_files (lift r).
Proof. intros w; reflexivity. Qed.

Lemma keeps_files_print (line : pystr) : keeps_files (print line).
Proof. intros w; reflexivity. Qed.

Lemma keeps_files_bind {A B} (c : M A) (k : A → M B) :
  keeps_files c → (∀ a, keeps_files (k a)) → keeps_files (bind c k).
Proof.
  intros Hc Hk w. unfold bind. specialize (Hc w).
  destruct (c w) as [[a|e] w1]; simpl in *; [|assumption].
  rewrite Hk. assumption.
Qed.

Lemma keeps_files_for_each {A S} (xs : list A) (body : A → S → M S) (acc : S) :
  (∀ x s, keeps_files (body x s)) → keeps_files (for_each xs body acc).
Proof.
  intros Hb. revert acc. induction xs as [|x xs IH]; intros acc; simpl.
  - apply keeps_files_ret.
  - apply keeps_files_bind; [apply Hb | intros; apply IH].
Qed.

Lemma keeps_files_comprehension {A B} (f : A → M B) (xs : list A) :
  (∀ x, keeps_files (f x)) → keeps_files (comprehension f xs).
Proof.
  intros Hf. induction xs as [|x xs IH]; simpl.
  - apply keeps_files_ret.
  - apply keeps_files_bind; [apply Hf|]. intros y.
    apply keeps_files_bind; [apply IH|]. intros ys. apply keeps_files_ret.
Qed.

Create HintDb keeps_files.
#[export] Hint Resolve keeps_files_ret keeps_files_raise keeps_files_lift
  keeps_files_print : keeps_files.

(** Peels binds and case distinctions off a [keeps_files] goal. *)
Ltac keeps_files :=
  repeat first
    [ solve [auto with keeps_files]
    | apply keeps_files_for_each; intros
    | apply keeps_files_comprehension; intros
    | match goal with
      | |- keeps_files (if ?b then _ else _) => destruct b
      | |- keeps_files (match ?x with _ => _ end) => destruct x
      end
    | apply keeps_files_bind; [|intros] ].

Section Files.

Variable U : unicode_tables.
Variable py_str : pyval → pystr.
Variable client : list request → request → reply.
Variable yaml_safe_load : pystr → result pyval.
Variable yaml_dump : pyval → pystr.
Variable SOURCE_DIR : path.
Variable CODE : pystr.

Lemma keeps_files_translate_text (text : pyval) (src tgt : pystr) :
  keeps_files (translate_text py_str client text src tgt).
Proof.
  intros w.
  destruct (translate_text_returns py_str client text src tgt w)
    as (v & w' & -> & Hfs & _). exact Hfs.
Qed.

Lemma keeps_files_translate_markdown (text : pyval) (src tgt : pystr) :
  keeps_files (translate_markdown py_str client text src tgt).
Proof.
  intros w.
  destruct (translate_markdown_returns py_str client text src tgt w)
    as (v & w' & -> & Hfs & _). exact Hfs.
Qed.

#[local] Hint Resolve keeps_files_translate_text
  keeps_files_translate_markdown : keeps_files.

(** The Front-Matter Transformer never touches a file, whatever value it
    is given and however it ends. *)
Lemma keeps_files_translate_front_matter (fm : pyval) (src tgt : pystr) :
  keeps_files (translate_front_matter U py_str client CODE fm src tgt).
Proof.
  unfold translate_front_matter, translate_scalar_field,
    translate_list_field, update_slug, update_permalink.
  keeps_files.
Qed.

Lemma ancestors_length (p q : path) :
  In q (ancestors_and_self p) → (length q ≤ length p)%nat.
Proof.
  unfold ancestors_and_self. intros Hq.
  apply in_map_iff in Hq as (n & <- & _). rewrite length_firstn. lia.
Qed.

(** [mkdir] only adds directories, and only at prefixes of its
    argument. *)
Lemma mkdir_parents_grows (p : path) (w w' : world) (r : result unit) :
  mkdir_parents p w = (r, w') →
  fs w ⊆ fs w'
  ∧ ∀ q, ¬ In q (ancestors_and_self p) → fs w' !! q = fs w !! q.
Proof.
  unfold mkdir_parents. revert w r w'.
  generalize (ancestors_and_self p) as qs.
  induction qs as [|q qs IH]; intros w r w'; simpl.
  - intros [= <- <-]. split; [reflexivity|auto].
  - intros H.
    apply bind_inv in H as [(a & w1 & Hstep & Hrest)|(e & Hstep & _)].
    + destruct a. apply IH in Hrest as [Hsub Hfar].
      destruct (fs w !! q) as [[|t]|] eqn:E; simplify_eq.
      * split; [assumption|]. intros q' Hq'. apply Hfar. tauto.
      * split.
        -- etrans; [|exact Hsub]. simpl. apply insert_subseteq. assumption.
        -- intros q' Hq'. rewrite Hfar by tauto. simpl.
           apply lookup_insert_ne. intros ->. tauto.
    + destruct (fs w !! q) as [[|t]|] eqn:E; simplify_eq.
      split; [reflexivity|auto].
Qed.

Lemma write_text_grows (p : path) (text : pystr) (w w' : world)
    (r : result unit) :
  fs w !! p = None → write_text p text w = (r, w') → fs w ⊆ fs w'.
Proof.
  unfold write_text. intros Hnone. rewrite Hnone.
  destruct (is_dir (removelast p) w); intros [= <- <-].
  - simpl. apply insert_subseteq. assumption.
  - reflexivity.
Qed.


Lemma keeps_files_run {A} (c : M A) (w w' : world) (r : result A) :
  keeps_files c → c w = (r, w') → fs w' = fs w.
Proof. intros Hc H. specialize (Hc w). rewrite H in Hc. exact Hc. Qed.

Lemma read_text_same (p : path) (w w' : world) (r : result pystr) :
  read_text p w = (r, w') → w' = w.
Proof.
  unfold read_text. destruct (fs w !! p) as [[|t]|]; intros [= _ <-];
    reflexivity.
Qed.

Lemma removelast_shorter {A} (x : A) (l : list A) :
  (length (removelast (x :: l)) < length (x :: l))%nat.
Proof.
  revert x; induction l as [|y l IH]; intros x; simpl; [lia|].
  specialize (IH y). simpl in IH. lia.
Qed.

(** [translate_file] does not check whether its destination exists; when
    it does not, the call only adds to the tree, however it ends. *)
Lemma translate_file_grows (source_file dest_file : path) (src tgt : pystr)
    (w w' : world) (r : result unit) :
  fs w !! dest_file = None →
  translate_file U py_str client yaml_safe_load yaml_dump CODE
    source_file dest_file src tgt w = (r, w') →
  fs w ⊆ fs w'.
Proof.
  intros Hnone H. unfold translate_file in H.
  apply bind_inv in H as [(content & w1 & Hread & H)|(e & Hread & _)];
    [|apply read_text_same in Hread; subst; reflexivity].
  apply read_text_same in Hread; subst w1.
  destruct (Re.match_ FRONT_MATTER_RE content) as [match_groups|];
    [|rewrite (keeps_files_run _ _ _ _ (keeps_files_print _) H);
      reflexivity].
  apply bind_inv in H as [(fm & w1 & Hload & H)|(e & Hload & _)];
    [|rewrite (keeps_files_run _ _ _ _ (keeps_files_lift _) Hload);
      reflexivity].
  apply (keeps_files_run _ _ _ _ (keeps_files_lift _)) in Hload.
  apply bind_inv in H as [(fm' & w2 & Hfm & H)|(e & Hfm & _)];
    [|rewrite (keeps_files_run _ _ _ _
                 (keeps_files_translate_front_matter _ _ _) Hfm), Hload;
      reflexivity].
  apply (keeps_files_run _ _ _ _
           (keeps_files_translate_front_matter _ _ _)) in Hfm.
  apply bind_inv in H as [(body' & w3 & Hbody & H)|(e & Hbody & _)];
    [|rewrite (keeps_files_run _ _ _ _
                 (keeps_files_translate_markdown _ _ _) Hbody), Hfm, Hload;
      reflexivity].
  apply (keeps_files_run _ _ _ _
           (keeps_files_translate_markdown _ _ _)) in Hbody.
  assert (H3 : fs w3 = fs w) by congruence.
  apply bind_inv in H as [([] & w4 & Hmk & H)|(e & Hmk & _)];
    [|apply mkdir_parents_grows in Hmk as [Hsub _]; rewrite <- H3;
      exact Hsub].
  apply mkdir_parents_grows in Hmk as [Hsub Hfar].
  assert (Hnone4 : fs w4 !! dest_file = None).
  { rewrite Hfar, H3; [assumption|]. intros Hin.
    destruct dest_file as [|x l]; [exact Hin|].
    apply ancestors_length in Hin.
    pose proof (removelast_shorter x l). lia. }
  etrans; [rewrite <- H3; exact Hsub|].
  apply bind_inv in H as [([] & w5 & Hwr & H)|(e & Hwr & _)].
  - apply (write_text_grows _ _ _ _ _ Hnone4) in Hwr.
    rewrite (keeps_files_run _ _ _ _ (keeps_files_print _) H).
    exact Hwr.
  - apply (write_text_grows _ _ _ _ _ Hnone4) in Hwr. exact Hwr.
Qed.


Local Abbreviation entry :=
  (process_entry U py_str client yaml_safe_load yaml_dump SOURCE_DIR CODE).

(** The guard of [process_directory]: with the destination in place the
    loop body is the skip message and nothing else. *)
Lemma process_entry_skips (src tgt : pystr) (root : path) (file : pystr)
    (relative_path : path) (w : world) :
  endswith (u ".md") file = true →
  relative_to SOURCE_DIR (root ++ [file]) = Ok relative_path →
  exists_ (DEST_DIR SOURCE_DIR CODE ++ relative_path) w = true →
  entry src tgt root file w
  = print (u "Destination file already exists: "
           ++ path_str (DEST_DIR SOURCE_DIR CODE ++ relative_path)
           ++ u ", skipping.") w.
Proof.
  intros Hmd Hrel Hex. unfold process_entry. rewrite Hmd.
  unfold bind at 1. unfold lift at 1. rewrite Hrel.
  unfold bind at 1. rewrite Hex. reflexivity.
Qed.

(** Thanks to the guard, one iteration only ever adds to the tree. *)
Lemma process_entry_grows (src tgt : pystr) (root : path) (file : pystr)
    (w w' : world) (r : result unit) :
  entry src tgt root file w = (r, w') → fs w ⊆ fs w'.
Proof.
  unfold process_entry. destruct (endswith (u ".md") file);
    [|intros [= <- <-]; reflexivity].
  unfold bind at 1. unfold lift at 1.
  destruct (relative_to SOURCE_DIR (root ++ [file])) as [rel|e];
    [|intros [= <- <-]; reflexivity].
  unfold bind at 1. unfold exists_.
  destruct (fs w !! (DEST_DIR SOURCE_DIR CODE ++ rel)) as [n|] eqn:E.
  - intros H.
    rewrite (keeps_files_run _ _ _ _ (keeps_files_print _) H). reflexivity.
  - intros H.
    apply bind_inv in H as [([] & w1 & Hp & H)|(e & Hp & _)];
      [|discriminate Hp].
    apply (keeps_files_run _ _ _ _ (keeps_files_print _)) in Hp.
    rewrite <- Hp. eapply translate_file_grows; [|exact H].
    rewrite Hp. exact E.
Qed.

Lemma for_each_grows {A} (xs : list A) (body : A → unit → M unit) :
  (∀ x w r w', body x tt w = (r, w') → fs w ⊆ fs w') →
  ∀ w r w', for_each xs body tt w = (r, w') → fs w ⊆ fs w'.
Proof.
  intros Hb. induction xs as [|x xs IH]; intros w r w'; simpl.
  - intros [= <- <-]. reflexivity.
  - intros H.
    apply bind_inv in H as [([] & w1 & Hx & H)|(e & Hx & _)].
    + etrans; [eapply Hb; exact Hx | eapply IH; exact H].
    + eapply Hb; exact Hx.
Qed.

Lemma os_walk_grows (body : path → list pystr → M unit) :
  (∀ top files w r w', body top files w = (r, w') → fs w ⊆ fs w') →
  ∀ fuel stack w r w',
    os_walk fuel body stack w = Some (r, w') → fs w ⊆ fs w'.
Proof.
  intros Hb. induction fuel as [|fuel IH]; intros stack w r w';
    cbn [os_walk]; [discriminate|].
  destruct stack as [|top rest]; [intros [= <- <-]; reflexivity|].
  destruct (fs w !! top) as [[|t]|]; try apply IH.
  destruct (scandir (fs w) top) as [dirs files].
  destruct (body top files w) as [[[]|e] w1] eqn:E.
  - intros H. etrans; [eapply Hb; exact E | eapply IH; exact H].
  - intros [= <- <-]. eapply Hb; exact E.
Qed.

Lemma process_directory_grows (fuel : nat) (directory src tgt : pystr)
    (w w' : world) (r : result unit) :
  process_directory U py_str client yaml_safe_load yaml_dump SOURCE_DIR CODE
    fuel directory src tgt w = Some (r, w') →
  fs w ⊆ fs w'.
Proof.
  unfold process_directory. apply os_walk_grows.
  intros top files w0 r0 w0'. apply for_each_grows.
  intros file w1 r1 w1'. apply process_entry_grows.
Qed.

Lemma main_grows (SOURCE_LANGUAGE DESTINATION_LANGUAGE : pystr)
    (fuel : nat) (w w' : world) (r : result unit) :
  main U py_str client yaml_safe_load yaml_dump SOURCE_DIR
    SOURCE_LANGUAGE DESTINATION_LANGUAGE CODE fuel w = Some (r, w') →
  fs w ⊆ fs w'.
Proof.
  unfold main. generalize DIRECTORIES as ds. intros ds. revert w.
  induction ds as [|dir ds IH]; intros w; simpl.
  - intros [= <- <-]. reflexivity.
  - destruct (process_directory _ _ _ _ _ _ _ _ _ _ _ w)
      as [[[[]|e] w1]|] eqn:E; [| |discriminate].
    + intros H. etrans; [eapply process_directory_grows; exact E|].
      apply IH. exact H.
    + intros [= <- <-]. eapply process_directory_grows; exact E.
Qed.

(** C2. Skip-if-exists.  For a Markdown file whose destination path
    already exists, the loop body of [process_directory] is the skip
    message alone: [translate_file] is not invoked, no file changes and no
    request is sent.  Moreover a whole run of [process_directory] started
    in such a state leaves the node at that destination as it was. *)
Theorem existing_destination_skipped (src tgt : pystr) (root : path)
    (file : pystr) (relative_path : path) (w : world) :
  endswith (u ".md") file = true →
  relative_to SOURCE_DIR (root ++ [file]) = Ok relative_path →
  exists_ (DEST_DIR SOURCE_DIR CODE ++ relative_path) w = true →
  (∃ w',
     entry src tgt root file w = (Ok tt, w')
     ∧ fs w' = fs w
     ∧ calls w' = calls w
     ∧ stdout w'
       = stdout w
         ++ [u "Destination file already exists: "
             ++ path_str (DEST_DIR SOURCE_DIR CODE ++ relative_path)
             ++ u ", skipping."])
  ∧ (∀ fuel directory r w',
       process_directory U py_str client yaml_safe_load yaml_dump
         SOURCE_DIR CODE fuel directory src tgt w = Some (r, w') →
       fs w' !! (DEST_DIR SOURCE_DIR CODE ++ relative_path)
       = fs w !! (DEST_DIR SOURCE_DIR CODE ++ relative_path)).
Proof.
  intros Hmd Hrel Hex. split.
  - rewrite (process_entry_skips _ _ _ _ _ _ Hmd Hrel Hex).
    eexists. split; [reflexivity|]. repeat split.
  - intros fuel directory r w' Hrun.
    apply process_directory_grows in Hrun.
    unfold exists_ in Hex.
    destruct (fs w !! (DEST_DIR SOURCE_DIR CODE ++ relative_path))
      as [n|] eqn:E; [|discriminate].
    eapply map_subseteq_spec in Hrun; [exact Hrun|exact E].
Qed.

End Files.

(** ** The guard at work, and the permalink defect *)

Lemma existing_destination_skipped_witness :
  (∃ w',
     process_entry Sample.latin1 Sample.py_str Sample.shouting
       Sample.yaml_safe_load Sample.yaml_dump Sample.SITE (u "fr")
       (u "English") (u "French") (Sample.SITE ++ [u "pages"]) (u "about.md")
       Sample.site_translated = (Ok tt, w')
     ∧ fs w' = fs Sample.site_translated
     ∧ calls w' = calls Sample.site_translated
     ∧ stdout w'
       = stdout Sample.site_translated
         ++ [u "Destination file already exists: "
             ++ path_str (DEST_DIR Sample.SITE (u "fr")
                          ++ [u "pages"; u "about.md"])
             ++ u ", skipping."])
  ∧ match
      process_directory Sample.latin1 Sample.py_str Sample.shouting
        Sample.yaml_safe_load Sample.yaml_dump Sample.SITE (u "fr")
        10 (u "pages") (u "English") (u "French") Sample.site_translated
    with
    | Some (r, w') =>
      fs w' !! (DEST_DIR Sample.SITE (u "fr") ++ [u "pages"; u "about.md"])
      = Some (File (u "translated by an earlier run"))
    | None => False
    end.
Proof.
  destruct (existing_destination_skipped Sample.latin1 Sample.py_str
              Sample.shouting Sample.yaml_safe_load Sample.yaml_dump
              Sample.SITE (u "fr") (u "English") (u "French")
              (Sample.SITE ++ [u "pages"]) (u "about.md")
              [u "pages"; u "about.md"] Sample.site_translated)
    as [Hskip Hrun]; [vm_compute; reflexivity..|].
  split; [exact Hskip|].
  destruct (process_directory Sample.latin1 Sample.py_str Sample.shouting
              Sample.yaml_safe_load Sample.yaml_dump Sample.SITE (u "fr")
              10 (u "pages") (u "English") (u "French")
              Sample.site_translated) as [[r w']|] eqn:E.
  - rewrite (Hrun _ _ _ _ E). vm_compute. reflexivity.
  - vm_compute in E. discriminate.
Defined.

(** C4. The permalink begins with [/<code>/] after one pass only when it
    began with a slash (see [rooted_permalink_prefixed]).  The front matter
    [{permalink: index.html}] with code [fr] comes back with the permalink
    [/frindex.html], which does not begin with [/fr/]. *)
Theorem relative_permalink_lacks_prefix :
  translate_front_matter Sample.latin1 Sample.py_str Sample.shouting (u "fr")
    (PyDict Sample.home) (u "English") (u "French") Sample.empty_world
  = (Ok (PyDict [(u "permalink", PyStr (u "/frindex.html"))]),
     Sample.empty_world)
  ∧ startswith (u "/fr/") (u "/frindex.html") = false.
Proof. split; vm_compute; reflexivity. Qed.

(** C3. A second pass keeps the permalink only when the first one left it
    with the prefix (see [rooted_permalink_idempotent]).  From
    [{permalink: index.html}] with code [fr] the first pass yields
    [/frindex.html] and the second pass [/fr/frindex.html]. *)
Theorem relative_permalink_prefixed_twice :
  ∃ once twice,
    translate_front_matter Sample.latin1 Sample.py_str Sample.shouting (u "fr")
      (PyDict Sample.home) (u "English") (u "French") Sample.empty_world
    = (Ok (PyDict once), Sample.empty_world)
    ∧ translate_front_matter Sample.latin1 Sample.py_str Sample.shouting
        (u "fr") (PyDict once) (u "English") (u "French") Sample.empty_world
      = (Ok (PyDict twice), Sample.empty_world)
    ∧ dict_get (u "permalink") once = Some (PyStr (u "/frindex.html"))
    ∧ dict_get (u "permalink") twice = Some (PyStr (u "/fr/frindex.html"))
    ∧ dict_get (u "permalink") twice ≠ dict_get (u "permalink") once.
Proof.
  exists [(u "permalink", PyStr (u "/frindex.html"))],
         [(u "permalink", PyStr (u "/fr/frindex.html"))].
  repeat split; try (vm_compute; reflexivity).
  vm_compute. discriminate.
Qed.

(** ** What is handled and what aborts the run *)

Lemma bind_raise {A B} (c : M A) (k : A → M B) (w w' : world) (e : exn) :
  c w = (Raise e, w') → bind c k w = (Raise e, w').
Proof. unfold bind. intros ->. reflexivity. Qed.

Lemma for_each_raises {A} (xs ys : list A) (x : A) (body : A → unit → M unit)
    (w w1 w' : world) (e : exn) :
  for_each xs body tt w = (Ok tt, w1) →
  body x tt w1 = (Raise e, w') →
  for_each (xs ++ x :: ys) body tt w = (Raise e, w').
Proof.
  revert w. induction xs as [|x0 xs IH]; intros w; simpl.
  - intros [= <-] Hx. apply bind_raise. exact Hx.
  - intros H Hx.
    apply bind_ok_inv in H as ([] & w0 & H0 & H).
    unfold bind. rewrite H0. apply IH; assumption.
Qed.

Section ErrorPolicy.

Variable U : unicode_tables.
Variable py_str : pyval → pystr.
Variable client : list request → request → reply.
Variable yaml_safe_load : pystr → result pyval.
Variable yaml_dump : pyval → pystr.
Variable SOURCE_DIR : path.
Variable CODE : pystr.

Local Abbreviation file_transformer :=
  (translate_file U py_str client yaml_safe_load yaml_dump CODE).
Local Abbreviation entry :=
  (process_entry U py_str client yaml_safe_load yaml_dump SOURCE_DIR CODE).

(** The one per-file error [translate_file] handles. *)
Lemma translate_file_no_front_matter (source_file dest_file : path)
    (src tgt content : pystr) (w : world) :
  fs w !! source_file = Some (File content) →
  Re.match_ FRONT_MATTER_RE content = None →
  file_transformer source_file dest_file src tgt w
  = print (u "No front matter found in " ++ path_str source_file
           ++ u ", skipping file.") w.
Proof.
  intros Hfile Hmatch. unfold translate_file, bind, read_text.
  rewrite Hfile, Hmatch. reflexivity.
Qed.

(** From the parse of the front matter on there is no handler. *)
Lemma translate_file_parsed (source_file dest_file : path)
    (src tgt content : pystr) (match_groups : list pystr) (w : world) :
  fs w !! source_file = Some (File content) →
  Re.match_ FRONT_MATTER_RE content = Some match_groups →
  file_transformer source_file dest_file src tgt w
  = (front_matter_data <- lift (yaml_safe_load (nth 0 match_groups [])) ;;
     front_matter_data <-
       translate_front_matter U py_str client CODE front_matter_data
         src tgt ;;
     translated_body <-
       translate_markdown py_str client (PyStr (nth 1 match_groups []))
         src tgt ;;
     mkdir_parents (removelast dest_file) ;;;
     write_text dest_file
       (u "---" ++ [NEWLINE] ++ yaml_dump front_matter_data ++ u "---"
        ++ [NEWLINE] ++ py_format py_str translated_body) ;;;
     print (u "Translated file saved to " ++ path_str dest_file)) w.
Proof.
  intros Hfile Hmatch. unfold translate_file.
  unfold bind at 1. unfold read_text. rewrite Hfile, Hmatch. reflexivity.
Qed.

(** A title that is not a string and stays untranslated ends in
    [generate_slug]. *)
Lemma untranslated_title_raises (d : dict) (title : pyval)
    (src tgt message : pystr) (w : world) :
  dict_get (u "title") d = Some title →
  (∀ s, title ≠ PyStr s) →
  client (calls w) (text_request py_str title src tgt) = Fault message →
  ∃ w',
    translate_front_matter U py_str client CODE (PyDict d) src tgt w
    = (Raise AttributeError, w')
    ∧ fs w' = fs w.
Proof.
  intros Ht Hnot Hfault.
  destruct (translate_front_matter_dict U py_str client CODE src tgt d w)
    as (d2 & w2 & Heq & _ & _ & _ & _ & Hfs & _ & Htitle).
  destruct (Htitle title Ht) as (title' & w0 & Hcall & Hget).
  destruct (translate_text_fault py_str client title src tgt message w
              Hfault) as (w0' & Hcall' & _).
  rewrite Hcall' in Hcall. injection Hcall as <- _.
  exists w2. split; [|exact Hfs].
  rewrite Heq. apply bind_raise. rewrite update_slug_dict, Hget.
  destruct title; try reflexivity. exfalso. eapply Hnot. reflexivity.
Qed.

Lemma process_entry_raises (src tgt : pystr) (root : path) (file : pystr)
    (relative_path : path) (w w' : world) (e : exn) :
  endswith (u ".md") file = true →
  relative_to SOURCE_DIR (root ++ [file]) = Ok relative_path →
  exists_ (DEST_DIR SOURCE_DIR CODE ++ relative_path) w = false →
  file_transformer (root ++ [file]) (DEST_DIR SOURCE_DIR CODE ++ relative_path)
    src tgt (snd (print (u "Translating file: " ++ path_str (root ++ [file])) w))
  = (Raise e, w') →
  entry src tgt root file w = (Raise e, w').
Proof.
  intros Hmd Hrel Hex Hraise. unfold process_entry. rewrite Hmd.
  unfold bind at 1. unfold lift at 1. rewrite Hrel.
  unfold bind at 1. rewrite Hex.
  unfold bind. exact Hraise.
Qed.

Lemma os_walk_raises (fuel : nat) (body : path → list pystr → M unit)
    (top : path) (rest : list path) (w w' : world) (e : exn) :
  fs w !! top = Some Dir →
  body top (snd (scandir (fs w) top)) w = (Raise e, w') →
  os_walk (S fuel) body (top :: rest) w = Some (Raise e, w').
Proof.
  intros Hdir Hbody. cbn [os_walk]. rewrite Hdir.
  destruct (scandir (fs w) top) as [dirs files]. simpl in Hbody.
  rewrite Hbody. reflexivity.
Qed.

Lemma main_loop_raises (SOURCE_LANGUAGE DESTINATION_LANGUAGE : pystr)
    (fuel : nat) (directory : pystr) (rest : list pystr) (w w' : world)
    (e : exn) :
  process_directory U py_str client yaml_safe_load yaml_dump SOURCE_DIR CODE
    fuel directory SOURCE_LANGUAGE DESTINATION_LANGUAGE w
  = Some (Raise e, w') →
  main_loop U py_str client yaml_safe_load yaml_dump SOURCE_DIR
    SOURCE_LANGUAGE DESTINATION_LANGUAGE CODE fuel (directory :: rest) w
  = Some (Raise e, w').
Proof. intros H. simpl. rewrite H. reflexivity. Qed.

(** C5, as the code has it.  Two kinds of error are handled where they
    occur: a file without a front-matter block makes [translate_file]
    print a diagnostic and return, with no file written and no request
    sent; and both translators return whatever the service does.  From
    the parse of the front matter on nothing is caught: a YAML error, a
    front matter that loads as [None], and a title that is not a string
    and that a faulting call leaves untranslated, each raise out of
    [translate_file]; the loop body of [process_directory] and the
    directory walk pass the exception on. *)
Theorem translate_file_error_policy (source_file dest_file : path)
    (src tgt content : pystr) (w : world) :
  fs w !! source_file = Some (File content) →
  (Re.match_ FRONT_MATTER_RE content = None →
   ∃ w',
     file_transformer source_file dest_file src tgt w = (Ok tt, w')
     ∧ fs w' = fs w ∧ calls w' = calls w
     ∧ stdout w'
       = stdout w ++ [u "No front matter found in " ++ path_str source_file
                      ++ u ", skipping file."])
  ∧ (∀ text w0,
       (∃ v w', translate_text py_str client text src tgt w0 = (Ok v, w'))
       ∧ (∃ v w',
            translate_markdown py_str client text src tgt w0 = (Ok v, w')))
  ∧ (∀ match_groups,
       Re.match_ FRONT_MATTER_RE content = Some match_groups →
       (∀ e, yaml_safe_load (nth 0 match_groups []) = Raise e →
             file_transformer source_file dest_file src tgt w = (Raise e, w))
       ∧ (yaml_safe_load (nth 0 match_groups []) = Ok PyNone →
          file_transformer source_file dest_file src tgt w
          = (Raise TypeError, w))
       ∧ (∀ d title message,
            yaml_safe_load (nth 0 match_groups []) = Ok (PyDict d) →
            dict_get (u "title") d = Some title →
            (∀ s, title ≠ PyStr s) →
            client (calls w) (text_request py_str title src tgt)
            = Fault message →
            ∃ w',
              file_transformer source_file dest_file src tgt w
              = (Raise AttributeError, w')
              ∧ fs w' = fs w))
  ∧ (∀ root file relative_path w0 w' e,
       endswith (u ".md") file = true →
       relative_to SOURCE_DIR (root ++ [file]) = Ok relative_path →
       exists_ (DEST_DIR SOURCE_DIR CODE ++ relative_path) w0 = false →
       file_transformer (root ++ [file])
         (DEST_DIR SOURCE_DIR CODE ++ relative_path) src tgt
         (snd (print (u "Translating file: " ++ path_str (root ++ [file]))
                 w0))
       = (Raise e, w') →
       entry src tgt root file w0 = (Raise e, w')
       ∧ ∀ fuel rest done todo w00,
           fs w00 !! root = Some Dir →
           snd (scandir (fs w00) root) = done ++ file :: todo →
           for_each done (fun file (_ : unit) => entry src tgt root file)
             tt w00 = (Ok tt, w0) →
           os_walk (S fuel)
             (fun root files =>
                for_each files
                  (fun file (_ : unit) => entry src tgt root file) tt)
             (root :: rest) w00
           = Some (Raise e, w')).
Proof.
  intros Hfile. split; [|split; [|split]].
  - intros Hmatch.
    rewrite (translate_file_no_front_matter _ dest_file src tgt _ _
               Hfile Hmatch).
    eexists. split; [reflexivity|]. repeat split.
  - intros text w0. split.
    + destruct (translate_text_returns py_str client text src tgt w0)
        as (v & w' & H & _). eauto.
    + destruct (translate_markdown_returns py_str client text src tgt w0)
        as (v & w' & H & _). eauto.
  - intros match_groups Hmatch.
    rewrite (translate_file_parsed _ dest_file src tgt _ _ _ Hfile Hmatch).
    split; [|split].
    + intros e He. apply bind_raise. unfold lift. rewrite He. reflexivity.
    + intros Hnone. unfold bind at 1. unfold lift. rewrite Hnone.
      reflexivity.
    + intros d title message Hd Ht Hnot Hfault.
      destruct (untranslated_title_raises d title src tgt message w
                  Ht Hnot Hfault) as (w' & Hraise & Hfs).
      exists w'. split; [|exact Hfs].
      unfold bind at 1. unfold lift. rewrite Hd.
      apply bind_raise. exact Hraise.
  - intros root file relative_path w0 w' e Hmd Hrel Hex Hraise.
    pose proof (process_entry_raises src tgt root file relative_path
                  w0 w' e Hmd Hrel Hex Hraise) as Hentry.
    split; [exact Hentry|].
    intros fuel rest done todo w00 Hdir Hfiles Hdone.
    apply os_walk_raises; [exact Hdir|].
    rewrite Hfiles. eapply for_each_raises; eassumption.
Qed.

End ErrorPolicy.

Lemma translate_file_error_policy_witness :
  ∃ w',
    translate_file Sample.latin1 Sample.py_str Sample.unreachable
      Sample.yaml_safe_load Sample.yaml_dump (u "fr")
      (Sample.SITE ++ [u "pages"; u "year.md"])
      (Sample.SITE ++ [u "fr"; u "pages"; u "year.md"])
      (u "English") (u "French") Sample.site_numeric_title
    = (Raise AttributeError, w')
    ∧ fs w' = fs Sample.site_numeric_title.
Proof.
  refine (proj2 (proj2 (proj1 (proj2 (proj2
            (translate_file_error_policy Sample.latin1 Sample.py_str
               Sample.unreachable Sample.yaml_safe_load Sample.yaml_dump
               Sample.SITE (u "fr")
               (Sample.SITE ++ [u "pages"; u "year.md"])
               (Sample.SITE ++ [u "fr"; u "pages"; u "year.md"])
               (u "English") (u "French")
               (Sample.text [u "---"; u "title: 2024"; u "---"; u "body"])
               Sample.site_numeric_title _)))
            [u "title: 2024"; u "body"] _))
          [(u "title", PyInt 2024)] (PyInt 2024) (u "Connection error.")
          _ _ _ _).
  - vm_compute; reflexivity.
  - vm_compute; reflexivity.
  - vm_compute; reflexivity.
  - vm_compute; reflexivity.
  - intros s; discriminate.
  - vm_compute; reflexivity.
Defined.

(** C5 fails on the code: a page with an empty front matter, a page with a
    numeric title while the service is down, and a page whose front matter
    is not well-formed YAML each make [translate_file] raise, and the
    exception ends the whole run. *)
Lemma front_matter_errors_abort_the_run :
  (fst (translate_file Sample.latin1 Sample.py_str Sample.shouting
          Sample.yaml_safe_load Sample.yaml_dump (u "fr")
          (Sample.SITE ++ [u "pages"; u "empty.md"])
          (Sample.SITE ++ [u "fr"; u "pages"; u "empty.md"])
          (u "English") (u "French") Sample.site_empty_front_matter)
   = Raise TypeError
   ∧ option_map fst
       (main Sample.latin1 Sample.py_str Sample.shouting
          Sample.yaml_safe_load Sample.yaml_dump Sample.SITE
          (u "English") (u "French") (u "fr") 10
          Sample.site_empty_front_matter)
     = Some (Raise TypeError))
  ∧ (fst (translate_file Sample.latin1 Sample.py_str Sample.unreachable
            Sample.yaml_safe_load Sample.yaml_dump (u "fr")
            (Sample.SITE ++ [u "pages"; u "year.md"])
            (Sample.SITE ++ [u "fr"; u "pages"; u "year.md"])
            (u "English") (u "French") Sample.site_numeric_title)
     = Raise AttributeError
     ∧ option_map fst
         (main Sample.latin1 Sample.py_str Sample.unreachable
            Sample.yaml_safe_load Sample.yaml_dump Sample.SITE
            (u "English") (u "French") (u "fr") 10
            Sample.site_numeric_title)
       = Some (Raise AttributeError))
  ∧ (fst (translate_file Sample.latin1 Sample.py_str Sample.shouting
            Sample.yaml_safe_load Sample.yaml_dump (u "fr")
            (Sample.SITE ++ [u "pages"; u "broken.md"])
            (Sample.SITE ++ [u "fr"; u "pages"; u "broken.md"])
            (u "English") (u "French") Sample.site_bad_yaml)
     = Raise YAMLError
     ∧ option_map fst
         (main Sample.latin1 Sample.py_str Sample.shouting
            Sample.yaml_safe_load Sample.yaml_dump Sample.SITE
            (u "English") (u "French") (u "fr") 10 Sample.site_bad_yaml)
       = Some (Raise YAMLError)).
Proof. repeat split; vm_compute; reflexivity. Qed.

(** * Further properties of the code *)

(** ** Slug Generator *)

Lemma sub_keeps_alphanumerics (b : bool) (s : pystr) :
  List.filter is_a_z_0_9 (sub_non_alnum_runs b s) = List.filter is_a_z_0_9 s.
Proof.
  revert b; induction s as [|c s IH]; intros b; simpl; [reflexivity|].
  destruct (is_a_z_0_9 c) eqn:E.
  - simpl. rewrite E, IH. reflexivity.
  - destruct b; [apply IH|]. simpl. apply IH.
Qed.

Lemma lstrip_stripped (p : N → bool) (s : pystr) :
  ∃ pre, s = pre ++ lstrip p s ∧ Forall (fun c => p c = true) pre.
Proof.
  induction s as [|c s (pre & IH & Hpre)]; simpl.
  - exists []. split; [reflexivity|constructor].
  - destruct (p c) eqn:E.
    + exists (c :: pre). split; [simpl; congruence|].
      constructor; assumption.
    + exists []. split; [reflexivity|constructor].
Qed.

Lemma rstrip_stripped (p : N → bool) (s : pystr) :
  ∃ post, s = rstrip p s ++ post ∧ Forall (fun c => p c = true) post.
Proof.
  unfold rstrip. destruct (lstrip_stripped p (rev s)) as (pre & H & Hpre).
  exists (rev pre). split.
  - rewrite <- rev_app_distr, <- H. symmetry; apply rev_involutive.
  - apply Forall_forall. intros c Hc. apply list_elem_of_In, in_rev in Hc.
    rewrite Forall_forall in Hpre. apply Hpre.
    apply list_elem_of_In. assumption.
Qed.

Lemma filter_none (p q : N → bool) (s : pystr) :
  (∀ c, p c = true → q c = false) →
  Forall (fun c => p c = true) s → List.filter q s = [].
Proof.
  intros Hpq Hs. induction Hs as [|c s Hc Hs IH]; simpl; [reflexivity|].
  rewrite (Hpq c Hc). exact IH.
Qed.

Lemma strip_hyphens_keeps_alphanumerics (s : pystr) :
  List.filter is_a_z_0_9 (strip is_hyphen s) = List.filter is_a_z_0_9 s.
Proof.
  assert (Hh : ∀ c, is_hyphen c = true → is_a_z_0_9 c = false).
  { intros c Hc. apply is_hyphen_true in Hc. subst. reflexivity. }
  unfold strip.
  destruct (lstrip_stripped is_hyphen s) as (pre & Hs & Hpre).
  destruct (rstrip_stripped is_hyphen (lstrip is_hyphen s))
    as (post & Hl & Hpost).
  rewrite Hs at 2. rewrite Hl at 2.
  rewrite !List.filter_app.
  rewrite (filter_none _ _ pre Hh Hpre), (filter_none _ _ post Hh Hpost).
  rewrite app_nil_r. reflexivity.
Qed.

(** X1. The letters and digits of a slug are exactly the code points of
    [a-z0-9] of the lowered, accent-stripped title, in the same order:
    [generate_slug] removes or replaces nothing else.  The slug is empty
    exactly when the title has no such code point. *)
Theorem slug_keeps_alphanumerics (U : unicode_tables) (t : pystr) :
  ∃ s,
    generate_slug U (PyStr t) = Ok (PyStr s)
    ∧ List.filter is_a_z_0_9 s = List.filter is_a_z_0_9 (strip_accents U t)
    ∧ (s = [] ↔ List.filter is_a_z_0_9 (strip_accents U t) = []).
Proof.
  exists (slug_of_str U t). split; [reflexivity|].
  assert (Hf : List.filter is_a_z_0_9 (slug_of_str U t)
               = List.filter is_a_z_0_9 (strip_accents U t)).
  { unfold slug_of_str.
    rewrite strip_hyphens_keeps_alphanumerics, sub_keeps_alphanumerics.
    reflexivity. }
  split; [exact Hf|]. rewrite <- Hf. split.
  - intros ->. reflexivity.
  - intros Hnone. destruct (slug_of_str_shape U t) as [Halpha Hhead _ _].
    destruct (slug_of_str U t) as [|c s]; [reflexivity|].
    exfalso. simpl in Hnone, Hhead.
    destruct (Halpha c (or_introl eq_refl)) as [Hc| ->].
    + rewrite Hc in Hnone. discriminate.
    + apply Hhead. reflexivity.
Qed.

(** ** Text and Markdown translators *)

Section TranslatorsMore.

Variable py_str : pyval → pystr.
Variable client : list request → request → reply.

Lemma strip_reply_or_malformed (original : pyval) (r : reply) (w : world) :
  r = Response [] ∨ (∃ rest, r = Response (None :: rest)) →
  ∃ line,
    strip_reply_or original r w
    = (Ok original,
       {| fs := fs w; calls := calls w;
          stdout := stdout w ++ [u "Error during translation: " ++ line] |}).
Proof.
  intros [->|(rest & ->)]; eexists; reflexivity.
Qed.

(** X2. A reply that carries no choice, or whose first choice has no
    content, is handled like a fault: both translators print a diagnostic
    and return their argument itself; no file changes. *)
Theorem malformed_reply_fail_open
    (text : pyval) (src tgt : pystr) (w : world) :
  (client (calls w) (text_request py_str text src tgt) = Response []
   ∨ (∃ rest, client (calls w) (text_request py_str text src tgt)
              = Response (None :: rest)) →
   ∃ w' line,
     translate_text py_str client text src tgt w = (Ok text, w')
     ∧ stdout w' = stdout w ++ [u "Error during translation: " ++ line]
     ∧ fs w' = fs w)
  ∧ (client (calls w) (markdown_request py_str text src tgt) = Response []
     ∨ (∃ rest, client (calls w) (markdown_request py_str text src tgt)
                = Response (None :: rest)) →
     ∃ w' line,
       translate_markdown py_str client text src tgt w = (Ok text, w')
       ∧ stdout w' = stdout w ++ [u "Error during translation: " ++ line]
       ∧ fs w' = fs w).
Proof.
  split; intros H.
  - unfold translate_text, bind, chat_completions_create.
    destruct (strip_reply_or_malformed text _
                {| fs := fs w;
                   calls := calls w ++ [text_request py_str text src tgt];
                   stdout := stdout w |} H) as (line & ->).
    eexists; exists line. repeat split.
  - unfold translate_markdown, bind, chat_completions_create.
    destruct (strip_reply_or_malformed text _
                {| fs := fs w;
                   calls := calls w ++ [markdown_request py_str text src tgt];
                   stdout := stdout w |} H) as (line & ->).
    eexists; exists line. repeat split.
Qed.

Lemma strip_reply_or_value (original : pyval) (r : reply) (w : world) :
  ∃ v w',
    strip_reply_or original r w = (Ok v, w')
    ∧ fs w' = fs w ∧ calls w' = calls w
    ∧ (v = original
       ∨ ∃ s, v = PyStr s
              ∧ (∀ c, head s = Some c → is_space c = false)
              ∧ (∀ c, last s = Some c → is_space c = false)).
Proof.
  destruct r as [e|[|[content|] rest]]; simpl;
    try (do 2 eexists; repeat split; left; reflexivity).
  do 2 eexists. repeat split. right. eexists. split; [reflexivity|].
  split; intros c.
  - apply strip_head.
  - apply strip_last.
Qed.

(** X3. Whatever the service does, a call of [translate_text] or
    [translate_markdown] returns normally, sends exactly one request (no
    retry), leaves the files alone, and returns either its argument or a
    string without white space at either end. *)
Theorem translators_outcome (text : pyval) (src tgt : pystr) (w : world) :
  (∃ v w',
     translate_text py_str client text src tgt w = (Ok v, w')
     ∧ calls w' = calls w ++ [text_request py_str text src tgt]
     ∧ fs w' = fs w
     ∧ (v = text
        ∨ ∃ s, v = PyStr s
               ∧ (∀ c, head s = Some c → is_space c = false)
               ∧ (∀ c, last s = Some c → is_space c = false)))
  ∧ (∃ v w',
       translate_markdown py_str client text src tgt w = (Ok v, w')
       ∧ calls w' = calls w ++ [markdown_request py_str text src tgt]
       ∧ fs w' = fs w
       ∧ (v = text
          ∨ ∃ s, v = PyStr s
                 ∧ (∀ c, head s = Some c → is_space c = false)
                 ∧ (∀ c, last s = Some c → is_space c = false))).
Proof.
  split.
  - unfold translate_text, bind, chat_completions_create.
    destruct (strip_reply_or_value text
                (client (calls w) (text_request py_str text src tgt))
                {| fs := fs w;
                   calls := calls w ++ [text_request py_str text src tgt];
                   stdout := stdout w |})
      as (v & w' & -> & Hfs & Hcalls & Hv).
    exists v, w'. auto.
  - unfold translate_markdown, bind, chat_completions_create.
    destruct (strip_reply_or_value text
                (client (calls w) (markdown_request py_str text src tgt))
                {| fs := fs w;
                   calls := calls w ++ [markdown_request py_str text src tgt];
                   stdout := stdout w |})
      as (v & w' & -> & Hfs & Hcalls & Hv).
    exists v, w'. auto.
Qed.

End TranslatorsMore.

Lemma malformed_reply_fail_open_witness :
  ∃ w' line,
    translate_text Sample.py_str Sample.speechless (PyStr (u "Bonjour"))
      (u "French") (u "English") Sample.empty_world
    = (Ok (PyStr (u "Bonjour")), w')
    ∧ stdout w'
      = stdout Sample.empty_world ++ [u "Error during translation: " ++ line]
    ∧ fs w' = fs Sample.empty_world.
Proof.
  apply (proj1 (malformed_reply_fail_open Sample.py_str Sample.speechless
                  (PyStr (u "Bonjour")) (u "French") (u "English")
                  Sample.empty_world)).
  left. reflexivity.
Defined.

(** ** Front-Matter Transformer *)

Section FrontMatterMore.

Variable U : unicode_tables.
Variable py_str : pyval → pystr.
Variable client : list request → request → reply.
Variable CODE : pystr.
Variables src tgt : pystr.

Local Abbreviation transform := (translate_front_matter U py_str client CODE).
Local Abbreviation request_for :=
  (fun text => text_request py_str text src tgt).
Local Abbreviation translation := (is_translation_of py_str client src tgt).

(** The slug and permalink updates read and write the mapping only. *)
Lemma finish_world (d2 : dict) (w2 w' : world) (r : result pyval) :
  (fm <- update_slug U (PyDict d2) ;; update_permalink py_str CODE fm) w2
  = (r, w') →
  w' = w2.
Proof.
  unfold bind. rewrite update_slug_dict.
  destruct (dict_get (u "title") d2) as [title|].
  - destruct (generate_slug U title) as [s|e]; [|intros [= _ <-]; reflexivity].
    rewrite update_permalink_dict.
    destruct (dict_get (u "permalink") _) as [[| b | z | p | l | e]|];
      try (intros [= _ <-]; reflexivity).
    destruct (startswith _ p); intros [= _ <-]; reflexivity.
  - rewrite update_permalink_dict.
    destruct (dict_get (u "permalink") _) as [[| b | z | p | l | e]|];
      try (intros [= _ <-]; reflexivity).
    destruct (startswith _ p); intros [= _ <-]; reflexivity.
Qed.

(** X4. On a mapping the transformer sends one request per translated
    text, in the order title, subheadline, teaser, categories, tags (a
    list contributes its items in order), and touches no file; this holds
    whether it returns or raises, since the slug and the permalink are
    worked out after the last request. *)
Theorem front_matter_requests (d : dict) (w w' : world) (r : result pyval) :
  transform (PyDict d) src tgt w = (r, w') →
  calls w' = calls w ++ List.map request_for (translated_texts d)
  ∧ fs w' = fs w.
Proof.
  intros Hrun.
  destruct (translate_front_matter_dict U py_str client CODE src tgt d w)
    as (d2 & w2 & Heq & _ & _ & _ & _ & Hfs & Hcalls & _).
  rewrite Heq in Hrun. apply finish_world in Hrun. subst w'. auto.
Qed.

Lemma dict_has_keys (k : pystr) (d d' : dict) :
  dict_keys d' = dict_keys d → dict_has k d' = dict_has k d.
Proof.
  intros Hk. unfold dict_has.
  pose proof (dict_get_keys k d) as H. pose proof (dict_get_keys k d') as H'.
  rewrite Hk in H'.
  destruct (dict_get k d), (dict_get k d'); try reflexivity; exfalso.
  - apply (proj1 H'); [apply H; discriminate|reflexivity].
  - apply (proj1 H); [apply H'; discriminate|reflexivity].
Qed.

(** X5. The transformer keeps the keys in their order; the only key it may
    add is [slug], appended at the end, and that happens exactly when the
    front matter has a title and no slug. *)
Theorem key_order_preserved (d : dict) (w w' : world) (v : pyval) :
  transform (PyDict d) src tgt w = (Ok v, w') →
  ∃ d',
    v = PyDict d'
    ∧ dict_keys d'
      = if dict_has (u "title") d && negb (dict_has (u "slug") d)
        then dict_keys d ++ [u "slug"] else dict_keys d.
Proof.
  intros Hrun.
  destruct (translate_front_matter_dict U py_str client CODE src tgt d w)
    as (d2 & w2 & Heq & Hkeys & Hframe & _).
  rewrite Heq in Hrun.
  apply finish_dict_inv in Hrun as (_ & d3 & d4 & -> & H3 & H4).
  exists d4. split; [reflexivity|].
  assert (H43 : dict_keys d4 = dict_keys d3).
  { destruct (dict_get (u "permalink") d3) as [permalink|] eqn:E;
      [|subst; reflexivity].
    destruct H4 as (p & -> & ->).
    destruct (startswith _ p); [reflexivity|].
    eapply dict_keys_set_present. exact E. }
  rewrite H43.
  rewrite <- (dict_has_keys (u "title") d d2 Hkeys).
  assert (Hslug : dict_has (u "slug") d = dict_has (u "slug") d2).
  { unfold dict_has. rewrite Hframe; [reflexivity|].
    simpl. intros [H|[H|[H|[H|[H|[]]]]]]; vm_compute in H; discriminate. }
  rewrite Hslug. unfold dict_has.
  destruct (dict_get (u "title") d2) as [title|]; [|subst; exact Hkeys].
  destruct H3 as (s & _ & ->).
  destruct (dict_get (u "slug") d2) as [old|] eqn:E; simpl.
  - rewrite <- Hkeys. eapply dict_keys_set_present. exact E.
  - rewrite <- Hkeys. apply dict_keys_set_absent. exact E.
Qed.

(** X6. Each of [title], [subheadline] and [teaser] that is present comes
    back holding the Text Translator's output for the value it held. *)
Theorem scalar_fields_translated
    (d : dict) (w w' : world) (v text : pyval) (field : pystr) :
  transform (PyDict d) src tgt w = (Ok v, w') →
  In field [u "title"; u "subheadline"; u "teaser"] →
  dict_get field d = Some text →
  ∃ d' text',
    v = PyDict d' ∧ dict_get field d' = Some text' ∧ translation text text'.
Proof.
  intros Hrun Hin Hget.
  destruct (translate_front_matter_dict U py_str client CODE src tgt d w)
    as (d2 & w2 & Heq & _ & _ & Hscalar & _).
  rewrite Heq in Hrun.
  apply finish_dict_facts in Hrun as (_ & d4 & -> & Hframe & _).
  specialize (Hscalar field Hin). rewrite Hget in Hscalar.
  destruct Hscalar as (text' & Hget' & Htr).
  exists d4, text'. split; [reflexivity|]. split; [|exact Htr].
  rewrite Hframe; [exact Hget'|..];
    destruct Hin as [<-|[<-|[<-|[]]]]; key_neq.
Qed.

(** X7. Without a title the slug is left exactly as it was: an existing
    slug keeps its value, and none is created. *)
Theorem slug_untouched_without_title (d : dict) (w w' : world) (v : pyval) :
  transform (PyDict d) src tgt w = (Ok v, w') →
  dict_get (u "title") d = None →
  ∃ d', v = PyDict d' ∧ dict_get (u "slug") d' = dict_get (u "slug") d.
Proof.
  intros Hrun Hnone.
  destruct (translate_front_matter_dict U py_str client CODE src tgt d w)
    as (d2 & w2 & Heq & Hkeys & Hframe & _).
  rewrite Heq in Hrun.
  apply finish_dict_facts in Hrun as (_ & d4 & -> & _ & _ & _ & Hslug).
  exists d4. split; [reflexivity|].
  rewrite Hslug.
  - apply Hframe. simpl.
    intros [H|[H|[H|[H|[H|[]]]]]]; vm_compute in H; discriminate.
  - pose proof (dict_has_keys (u "title") d d2 Hkeys) as Hh.
    unfold dict_has in Hh. rewrite Hnone in Hh.
    destruct (dict_get (u "title") d2); [discriminate|reflexivity].
Qed.


(** *** Values that are not mappings *)

Lemma translate_scalar_field_str (f s : pystr) (w : world) :
  translate_scalar_field py_str client src tgt f (PyStr s) w
  = if str_contains f s then (Raise TypeError, w) else (Ok (PyStr s), w).
Proof.
  unfold translate_scalar_field, bind, lift, ret. cbn [py_contains].
  destruct (str_contains f s); reflexivity.
Qed.

Lemma translate_list_field_str (f s : pystr) (w : world) :
  translate_list_field py_str client src tgt f (PyStr s) w
  = if str_contains f s then (Raise TypeError, w) else (Ok (PyStr s), w).
Proof.
  unfold translate_list_field, bind, lift, ret. cbn [py_contains].
  destruct (str_contains f s); reflexivity.
Qed.

Lemma update_slug_str (s : pystr) (w : world) :
  update_slug U (PyStr s) w
  = if str_contains (u "title") s then (Raise TypeError, w)
    else (Ok (PyStr s), w).
Proof.
  unfold update_slug, bind, lift, ret. cbn [py_contains].
  destruct (str_contains (u "title") s); reflexivity.
Qed.

Lemma update_permalink_str (s : pystr) (w : world) :
  update_permalink py_str CODE (PyStr s) w
  = if str_contains (u "permalink") s then (Raise TypeError, w)
    else (Ok (PyStr s), w).
Proof.
  unfold update_permalink, bind, lift, ret. cbn [py_contains].
  destruct (str_contains (u "permalink") s); reflexivity.
Qed.

Lemma translate_scalar_field_list (f : pystr) (items : list pyval) (w : world) :
  translate_scalar_field py_str client src tgt f (PyList items) w
  = if list_has f items then (Raise TypeError, w)
    else (Ok (PyList items), w).
Proof.
  unfold translate_scalar_field, bind, lift, ret, list_has. cbn [py_contains].
  destruct (existsb _ items); reflexivity.
Qed.

Lemma translate_list_field_list (f : pystr) (items : list pyval) (w : world) :
  translate_list_field py_str client src tgt f (PyList items) w
  = if list_has f items then (Raise TypeError, w)
    else (Ok (PyList items), w).
Proof.
  unfold translate_list_field, bind, lift, ret, list_has. cbn [py_contains].
  destruct (existsb _ items); reflexivity.
Qed.

Lemma update_slug_list (items : list pyval) (w : world) :
  update_slug U (PyList items) w
  = if list_has (u "title") items then (Raise TypeError, w)
    else (Ok (PyList items), w).
Proof.
  unfold update_slug, bind, lift, ret, list_has. cbn [py_contains].
  destruct (existsb _ items); reflexivity.
Qed.

Lemma update_permalink_list (items : list pyval) (w : world) :
  update_permalink py_str CODE (PyList items) w
  = if list_has (u "permalink") items then (Raise TypeError, w)
    else (Ok (PyList items), w).
Proof.
  unfold update_permalink, bind, lift, ret, list_has. cbn [py_contains].
  destruct (existsb _ items); reflexivity.
Qed.

(** X8. A front matter that is not a mapping.  [None], a boolean and a
    number make the transformer raise [TypeError] at the first lookup.  A
    string passes through unchanged unless one of the six field names
    occurs in it as a substring, a list unless one of them is among its
    items; otherwise the transformer raises [TypeError].  In none of these
    cases is a request sent or a line printed. *)
Theorem non_mapping_front_matter (w : world) :
  transform PyNone src tgt w = (Raise TypeError, w)
  ∧ (∀ b, transform (PyBool b) src tgt w = (Raise TypeError, w))
  ∧ (∀ z, transform (PyInt z) src tgt w = (Raise TypeError, w))
  ∧ (∀ s,
       transform (PyStr s) src tgt w
       = if existsb (fun name => str_contains name s) PROBED
         then (Raise TypeError, w) else (Ok (PyStr s), w))
  ∧ (∀ items,
       transform (PyList items) src tgt w
       = if existsb (fun name => list_has name items) PROBED
         then (Raise TypeError, w) else (Ok (PyList items), w)).
Proof.
  split; [reflexivity|]. split; [intros; reflexivity|].
  split; [intros; reflexivity|]. split.
  - intros s. unfold translate_front_matter, PROBED.
    cbn [for_each existsb]. unfold bind.
    rewrite (translate_scalar_field_str (u "title")).
    destruct (str_contains (u "title") s) eqn:E1; [reflexivity|].
    rewrite (translate_scalar_field_str (u "subheadline")).
    destruct (str_contains (u "subheadline") s); [reflexivity|].
    rewrite (translate_scalar_field_str (u "teaser")).
    destruct (str_contains (u "teaser") s); [reflexivity|].
    unfold ret at 1.
    rewrite (translate_list_field_str (u "categories")).
    destruct (str_contains (u "categories") s); [reflexivity|].
    rewrite (translate_list_field_str (u "tags")).
    destruct (str_contains (u "tags") s); [reflexivity|].
    unfold ret at 1. rewrite update_slug_str, E1, update_permalink_str.
    destruct (str_contains (u "permalink") s); reflexivity.
  - intros items. unfold translate_front_matter, PROBED.
    cbn [for_each existsb]. unfold bind.
    rewrite (translate_scalar_field_list (u "title")).
    destruct (list_has (u "title") items) eqn:E1; [reflexivity|].
    rewrite (translate_scalar_field_list (u "subheadline")).
    destruct (list_has (u "subheadline") items); [reflexivity|].
    rewrite (translate_scalar_field_list (u "teaser")).
    destruct (list_has (u "teaser") items); [reflexivity|].
    unfold ret at 1.
    rewrite (translate_list_field_list (u "categories")).
    destruct (list_has (u "categories") items); [reflexivity|].
    rewrite (translate_list_field_list (u "tags")).
    destruct (list_has (u "tags") items); [reflexivity|].
    unfold ret at 1. rewrite update_slug_list, E1, update_permalink_list.
    destruct (list_has (u "permalink") items); reflexivity.
Qed.

(** *** The service is down *)

Lemma translation_when_down (text v : pyval) :
  (∀ history req, ∃ e, client history req = Fault e) →
  translation text v → v = text.
Proof.
  intros Hdown (w & w' & Hcall).
  destruct (Hdown (calls w) (text_request py_str text src tgt)) as (e & He).
  destruct (translate_text_fault py_str client text src tgt e w He)
    as (w'' & Hcall' & _).
  congruence.
Qed.

Lemma translations_when_down (items items' : list pyval) :
  (∀ history req, ∃ e, client history req = Fault e) →
  Forall2 translation items items' → items' = items.
Proof.
  intros Hdown HF. induction HF as [|x y xs ys Hxy _ IH]; [reflexivity|].
  rewrite (translation_when_down x y Hdown Hxy), IH. reflexivity.
Qed.

(** X9. When every call to the service raises, the transformer degrades
    to "untranslated": each key other than [slug] and [permalink] comes
    back with the value it had, and the slug is generated from the
    original title. *)
Theorem service_down_keeps_texts (d : dict) (w w' : world) (v : pyval) :
  (∀ history req, ∃ e, client history req = Fault e) →
  transform (PyDict d) src tgt w = (Ok v, w') →
  ∃ d',
    v = PyDict d'
    ∧ (∀ k, k ≠ u "slug" → k ≠ u "permalink" →
            dict_get k d' = dict_get k d)
    ∧ (∀ title, dict_get (u "title") d = Some title →
         ∃ slug, generate_slug U title = Ok slug
                 ∧ dict_get (u "slug") d' = Some slug).
Proof.
  intros Hdown Hrun.
  destruct (translate_front_matter_dict U py_str client CODE src tgt d w)
    as (d2 & w2 & Heq & _ & Hframe2 & Hscalar & Hlist & _).
  rewrite Heq in Hrun.
  apply finish_dict_facts in Hrun as (_ & d4 & -> & Hframe & _ & Hslug & _).
  exists d4. split; [reflexivity|].
  assert (Hsame : ∀ k, dict_get k d2 = dict_get k d).
  { intros k.
    destruct (decide (k ∈ [u "title"; u "subheadline"; u "teaser"]))
      as [Hs|Hns]; rewrite list_elem_of_In in *.
    - specialize (Hscalar k Hs). unfold scalar_translated in Hscalar.
      destruct (dict_get k d) as [text|]; [|exact Hscalar].
      destruct Hscalar as (x & -> & Hx).
      rewrite (translation_when_down _ _ Hdown Hx). reflexivity.
    - destruct (decide (k ∈ [u "categories"; u "tags"])) as [Hl|Hnl];
        rewrite list_elem_of_In in *.
      + specialize (Hlist k Hl). unfold list_translated in Hlist.
        destruct (dict_get k d) as [[| b | z | s | items | e]|];
          try exact Hlist;
          try (destruct Hlist as (x & -> & Hx);
               rewrite (translation_when_down _ _ Hdown Hx); reflexivity).
        destruct Hlist as (items' & -> & HF).
        rewrite (translations_when_down _ _ Hdown HF). reflexivity.
      + apply Hframe2. simpl in *. tauto. }
  split.
  - intros k Hs Hp. rewrite Hframe by assumption. apply Hsame.
  - intros title Ht. apply Hslug. rewrite Hsame. exact Ht.
Qed.

(** *** Permalinks that start with a slash *)

(** X10. A permalink that starts with a slash begins with [/<code>/]
    after one pass; it is the permalink that went in when that one was
    already prefixed; and a second pass returns the same permalink. *)
Theorem rooted_permalink_stable
    (d : dict) (w w' : world) (v : pyval) (p : pystr) :
  transform (PyDict d) src tgt w = (Ok v, w') →
  dict_get (u "permalink") d = Some (PyStr p) →
  startswith (u "/") p = true →
  ∃ d' p',
    v = PyDict d'
    ∧ dict_get (u "permalink") d' = Some (PyStr p')
    ∧ startswith (u "/" ++ CODE ++ u "/") p' = true
    ∧ (startswith (u "/" ++ CODE ++ u "/") p = true → p' = p)
    ∧ (∀ w1 v2 w2,
         transform (PyDict d') src tgt w1 = (Ok v2, w2) →
         ∃ d'', v2 = PyDict d''
                ∧ dict_get (u "permalink") d'' = Some (PyStr p')).
Proof.
  intros Hrun Hp Hroot.
  destruct (rooted_permalink_prefixed U py_str client CODE src tgt
              d w w' v p Hrun Hp Hroot) as (d' & p' & -> & Hp' & Hpre).
  exists d', p'. split; [reflexivity|]. split; [exact Hp'|].
  split; [exact Hpre|]. split.
  - intros Halready.
    destruct (permalink_after U py_str client CODE src tgt d w w' _ _ Hrun Hp)
      as (d0 & p0 & [= <-] & [= <-] & Hafter).
    rewrite Halready, Hp' in Hafter. congruence.
  - intros w1 v2 w2 Hrun2.
    destruct (rooted_permalink_idempotent U py_str client CODE src tgt
                d d' w w' w1 w2 v2 p Hrun Hrun2 Hp Hroot)
      as (d'' & -> & Hsame).
    exists d''. split; [reflexivity|]. rewrite Hsame. exact Hp'.
Qed.

End FrontMatterMore.

Lemma front_matter_requests_witness :
  match
    translate_front_matter Sample.latin1 Sample.py_str Sample.shouting
      (u "fr") (PyDict Sample.post) (u "English") (u "French")
      Sample.empty_world
  with
  | (r, w') =>
    calls w'
    = calls Sample.empty_world
      ++ List.map (fun text =>
                     text_request Sample.py_str text (u "English") (u "French"))
           (translated_texts Sample.post)
    ∧ fs w' = fs Sample.empty_world
  end.
Proof.
  destruct (translate_front_matter Sample.latin1 Sample.py_str Sample.shouting
              (u "fr") (PyDict Sample.post) (u "English") (u "French")
              Sample.empty_world) as [r w'] eqn:E.
  exact (front_matter_requests Sample.latin1 Sample.py_str Sample.shouting
           (u "fr") (u "English") (u "French") Sample.post
           Sample.empty_world w' r E).
Defined.

Lemma key_order_preserved_witness :
  ∃ v w',
    translate_front_matter Sample.latin1 Sample.py_str Sample.shouting
      (u "fr") (PyDict Sample.post) (u "English") (u "French")
      Sample.empty_world = (Ok v, w')
    ∧ ∃ d',
        v = PyDict d'
        ∧ dict_keys d'
          = if dict_has (u "title") Sample.post
               && negb (dict_has (u "slug") Sample.post)
            then dict_keys Sample.post ++ [u "slug"]
            else dict_keys Sample.post.
Proof.
  do 2 eexists.
  match goal with |- ?A ∧ _ => assert (H : A) by (lazy; reflexivity) end.
  split; [exact H|].
  exact (key_order_preserved Sample.latin1 Sample.py_str Sample.shouting
           (u "fr") (u "English") (u "French") Sample.post
           Sample.empty_world _ _ H).
Defined.

Lemma scalar_fields_translated_witness :
  ∃ v w',
    translate_front_matter Sample.latin1 Sample.py_str Sample.shouting
      (u "fr") (PyDict Sample.untitled) (u "English") (u "French")
      Sample.empty_world = (Ok v, w')
    ∧ ∃ d' text',
        v = PyDict d'
        ∧ dict_get (u "teaser") d' = Some text'
        ∧ is_translation_of Sample.py_str Sample.shouting
            (u "English") (u "French") (PyStr (u "Read on")) text'.
Proof.
  do 2 eexists.
  match goal with |- ?A ∧ _ => assert (H : A) by (lazy; reflexivity) end.
  split; [exact H|].
  apply (scalar_fields_translated Sample.latin1 Sample.py_str Sample.shouting
           (u "fr") (u "English") (u "French") Sample.untitled
           Sample.empty_world _ _ (PyStr (u "Read on")) (u "teaser") H).
  - simpl. tauto.
  - reflexivity.
Defined.

Lemma slug_untouched_without_title_witness :
  ∃ v w',
    translate_front_matter Sample.latin1 Sample.py_str Sample.shouting
      (u "fr") (PyDict Sample.untitled) (u "English") (u "French")
      Sample.empty_world = (Ok v, w')
    ∧ ∃ d',
        v = PyDict d'
        ∧ dict_get (u "slug") d' = dict_get (u "slug") Sample.untitled.
Proof.
  do 2 eexists.
  match goal with |- ?A ∧ _ => assert (H : A) by (lazy; reflexivity) end.
  split; [exact H|].
  apply (slug_untouched_without_title Sample.latin1 Sample.py_str
           Sample.shouting (u "fr") (u "English") (u "French")
           Sample.untitled Sample.empty_world _ _ H).
  reflexivity.
Defined.

Lemma service_down_keeps_texts_witness :
  ∃ v w',
    translate_front_matter Sample.latin1 Sample.py_str Sample.unreachable
      (u "fr") (PyDict Sample.post) (u "English") (u "French")
      Sample.empty_world = (Ok v, w')
    ∧ ∃ d',
        v = PyDict d'
        ∧ (∀ k, k ≠ u "slug" → k ≠ u "permalink" →
                dict_get k d' = dict_get k Sample.post)
        ∧ (∀ title, dict_get (u "title") Sample.post = Some title →
             ∃ slug, generate_slug Sample.latin1 title = Ok slug
                     ∧ dict_get (u "slug") d' = Some slug).
Proof.
  do 2 eexists.
  match goal with |- ?A ∧ _ => assert (H : A) by (lazy; reflexivity) end.
  split; [exact H|].
  refine (service_down_keeps_texts Sample.latin1 Sample.py_str
            Sample.unreachable (u "fr") (u "English") (u "French")
            Sample.post Sample.empty_world _ _ _ H).
  intros history req. eexists. reflexivity.
Defined.

Lemma rooted_permalink_stable_witness :
  ∃ v w',
    translate_front_matter Sample.latin1 Sample.py_str Sample.shouting
      (u "fr") (PyDict Sample.post) (u "English") (u "French")
      Sample.empty_world = (Ok v, w')
    ∧ ∃ d' p',
        v = PyDict d'
        ∧ dict_get (u "permalink") d' = Some (PyStr p')
        ∧ startswith (u "/" ++ u "fr" ++ u "/") p' = true
        ∧ (startswith (u "/" ++ u "fr" ++ u "/") (u "/about") = true →
           p' = u "/about")
        ∧ (∀ w1 v2 w2,
             translate_front_matter Sample.latin1 Sample.py_str
               Sample.shouting (u "fr") (PyDict d') (u "English")
               (u "French") w1 = (Ok v2, w2) →
             ∃ d'', v2 = PyDict d''
                    ∧ dict_get (u "permalink") d'' = Some (PyStr p')).
Proof.
  do 2 eexists.
  match goal with |- ?A ∧ _ => assert (H : A) by (lazy; reflexivity) end.
  split; [exact H|].
  apply (rooted_permalink_stable Sample.latin1 Sample.py_str Sample.shouting
           (u "fr") (u "English") (u "French") Sample.post
           Sample.empty_world _ _ (u "/about") H); reflexivity.
Defined.

(** ** The front-matter pattern *)

Lemma run_one (a : Re.atom) (k : list Re.tok) (s : pystr)
    (m r : list pystr) :
  Re.run (Re.One a :: k) s m = Some r →
  ∃ c s', s = c :: s' ∧ Re.accepts a c = true ∧ Re.run k s' m = Some r.
Proof.
  simpl. destruct s as [|c s']; [discriminate|].
  destruct (Re.accepts a c) eqn:E; [|discriminate]. eauto.
Qed.

Lemma run_mark (k : list Re.tok) (s : pystr) (m : list pystr) :
  Re.run (Re.Mark :: k) s m = Re.run k s (s :: m).
Proof. reflexivity. Qed.

Lemma run_lit (c : N) (k : list Re.tok) (s : pystr) (m : list pystr) :
  Re.run (Re.One (Re.Lit c) :: k) (c :: s) m = Re.run k s m.
Proof. simpl. rewrite N.eqb_refl. reflexivity. Qed.

Lemma run_star (a : Re.atom) (k : list Re.tok) (s : pystr)
    (m r : list pystr) :
  Re.run (Re.Star a :: k) s m = Some r →
  ∃ pre s',
    s = pre ++ s' ∧ Forall (fun c => Re.accepts a c = true) pre
    ∧ Re.run k s' m = Some r.
Proof.
  simpl. induction s as [|c s IH].
  - intros H. exists [], []. auto.
  - destruct (Re.accepts a c) eqn:E.
    + match goal with
      | |- context [match ?g with Some _ => _ | None => _ end] =>
        destruct g as [r'|] eqn:G
      end.
      * intros [= <-]. destruct (IH eq_refl) as (pre & s' & -> & Hpre & Hk).
        exists (c :: pre), s'. auto.
      * intros H. exists [], (c :: s). auto.
    + intros H. exists [], (c :: s). auto.
Qed.

Lemma run_lazy (a : Re.atom) (k : list Re.tok) (s : pystr)
    (m r : list pystr) :
  Re.run (Re.StarLazy a :: k) s m = Some r →
  ∃ pre s',
    s = pre ++ s' ∧ Forall (fun c => Re.accepts a c = true) pre
    ∧ Re.run k s' m = Some r.
Proof.
  simpl. induction s as [|c s IH].
  - destruct (Re.run k [] m) as [r'|] eqn:G; [|discriminate].
    intros [= <-]. exists [], []. auto.
  - destruct (Re.run k (c :: s) m) as [r'|] eqn:G.
    + intros [= <-]. exists [], (c :: s). auto.
    + destruct (Re.accepts a c) eqn:E; [|discriminate].
      intros H. destruct (IH H) as (pre & s' & -> & Hpre & Hk).
      exists (c :: pre), s'. auto.
Qed.

(** A trailing greedy [.] under DOTALL takes the rest of the text. *)
Lemma run_rest (s : pystr) (m : list pystr) :
  Re.run [Re.Star Re.Any; Re.Mark] s m = Some (rev ([] :: m)).
Proof.
  simpl. induction s as [|c s IH]; [reflexivity|].
  simpl. rewrite IH. reflexivity.
Qed.

Lemma run_star_found (a : Re.atom) (k : list Re.tok) (pre s' : pystr)
    (m : list pystr) :
  Forall (fun c => Re.accepts a c = true) pre →
  Re.run k s' m ≠ None →
  Re.run (Re.Star a :: k) (pre ++ s') m ≠ None.
Proof.
  intros Hpre Hk. simpl. induction Hpre as [|c pre Hc Hpre IH]; simpl.
  - destruct s' as [|c s'']; [exact Hk|].
    destruct (Re.accepts a c); [|exact Hk].
    match goal with
    | |- context [match ?g with Some _ => _ | None => _ end] =>
      destruct g; [discriminate|exact Hk]
    end.
  - rewrite Hc.
    match goal with
    | |- context [match ?g with Some _ => _ | None => _ end] =>
      destruct g eqn:G; [discriminate|]
    end.
    exfalso. apply IH. reflexivity.
Qed.

Lemma run_lazy_found (a : Re.atom) (k : list Re.tok) (pre s' : pystr)
    (m : list pystr) :
  Forall (fun c => Re.accepts a c = true) pre →
  Re.run k s' m ≠ None →
  Re.run (Re.StarLazy a :: k) (pre ++ s') m ≠ None.
Proof.
  intros Hpre Hk. simpl. induction Hpre as [|c pre Hc Hpre IH]; simpl.
  - destruct s' as [|c s''];
      destruct (Re.run k _ m); try discriminate; contradiction.
  - destruct (Re.run k (c :: pre ++ s') m); [discriminate|].
    rewrite Hc. exact IH.
Qed.

Lemma between_app (a b : pystr) : Re.between (a ++ b) b = a.
Proof.
  unfold Re.between. rewrite length_app.
  replace (length a + length b - length b)%nat with (length a) by lia.
  rewrite firstn_app, firstn_all, Nat.sub_diag. simpl. apply app_nil_r.
Qed.

(** X11. When the pattern of [translate_file] matches, the text is the
    marker line, group 1, the marker line and group 2, in that order, with
    nothing but white space between a marker and the end of its line:
    front matter and body are cut out of the text, neither is altered, and
    the body runs to the end of the file. *)
Theorem front_matter_split_sound (content : pystr) (match_groups : list pystr) :
  Re.match_ FRONT_MATTER_RE content = Some match_groups →
  ∃ fm body,
    match_groups = [fm; body] ∧ front_matter_block content fm body.
Proof.
  unfold Re.match_, FRONT_MATTER_RE.
  destruct (Re.run _ content []) as [marks|] eqn:Hrun; [|discriminate].
  intros [= <-].
  apply run_one in Hrun as (c1 & s & -> & H1 & Hrun).
  apply run_one in Hrun as (c2 & s0 & -> & H2 & Hrun).
  apply run_one in Hrun as (c3 & s1 & -> & H3 & Hrun).
  apply run_star in Hrun as (ws1 & s2 & -> & Hws1 & Hrun).
  apply run_one in Hrun as (n1 & s3 & -> & Hn1 & Hrun).
  rewrite run_mark in Hrun.
  apply run_lazy in Hrun as (fm & s4 & -> & _ & Hrun).
  rewrite run_mark in Hrun.
  apply run_one in Hrun as (n2 & s5 & -> & Hn2 & Hrun).
  apply run_one in Hrun as (c4 & s6 & -> & H4 & Hrun).
  apply run_one in Hrun as (c5 & s7 & -> & H5 & Hrun).
  apply run_one in Hrun as (c6 & s8 & -> & H6 & Hrun).
  apply run_star in Hrun as (ws2 & s9 & -> & Hws2 & Hrun).
  apply run_one in Hrun as (n3 & body & -> & Hn3 & Hrun).
  rewrite run_mark in Hrun.
  rewrite run_rest in Hrun. injection Hrun as <-.
  simpl in H1, H2, H3, H4, H5, H6, Hn1, Hn2, Hn3.
  apply N.eqb_eq in H1, H2, H3, H4, H5, H6, Hn1, Hn2, Hn3. subst.
  exists fm, body. split.
  - simpl. rewrite between_app. unfold Re.between.
    rewrite Nat.sub_0_r, firstn_all. reflexivity.
  - exists ws1, ws2. split; [exact Hws1|]. split; [exact Hws2|].
    change (u "---") with [HYPHEN; HYPHEN; HYPHEN].
    simpl. reflexivity.
Qed.

(** X12. Conversely every text made of a marker line, a block, a marker
    line and a body is matched, so [translate_file] skips a file as having
    no front matter only when the file has no such block. *)
Theorem front_matter_block_found (content fm body : pystr) :
  front_matter_block content fm body →
  ∃ match_groups, Re.match_ FRONT_MATTER_RE content = Some match_groups.
Proof.
  intros (ws1 & ws2 & Hws1 & Hws2 & ->).
  assert (H : Re.run FRONT_MATTER_RE
                (u "---" ++ ws1 ++ [NEWLINE] ++ fm ++ [NEWLINE] ++ u "---"
                 ++ ws2 ++ [NEWLINE] ++ body) [] ≠ None).
  { unfold FRONT_MATTER_RE.
    change (u "---") with [HYPHEN; HYPHEN; HYPHEN].
    cbn [app]. rewrite !run_lit.
    apply run_star_found; [exact Hws1|].
    rewrite run_lit, run_mark.
    apply run_lazy_found; [apply Forall_forall; reflexivity|].
    rewrite run_mark. cbn [app]. rewrite !run_lit.
    apply run_star_found; [exact Hws2|].
    rewrite run_lit, run_mark.
    rewrite run_rest. discriminate. }
  unfold Re.match_. destruct (Re.run _ _ []) as [marks|]; [eauto|].
  contradiction.
Qed.

Lemma front_matter_block_found_witness :
  ∃ match_groups,
    Re.match_ FRONT_MATTER_RE Sample.about_md = Some match_groups.
Proof.
  apply (front_matter_block_found Sample.about_md
           (Sample.text [u "title: Hello World"; u "permalink: /about"])
           (Sample.text [u "# Hi"; u ""; u "Some *text*."])).
  exists [], []. split; [constructor|]. split; [constructor|].
  vm_compute. reflexivity.
Defined.

Lemma front_matter_split_sound_witness :
  ∃ fm body,
    [ Sample.text [u "title: Hello World"; u "permalink: /about"];
      Sample.text [u "# Hi"; u ""; u "Some *text*."] ] = [fm; body]
    ∧ front_matter_block Sample.about_md fm body.
Proof.
  apply (front_matter_split_sound Sample.about_md).
  vm_compute. reflexivity.
Defined.

(** ** File Transformer *)

(** The loop of [mkdir]: it only creates directories, only where nothing
    was, and only at the paths it is given. *)
Lemma mkdir_loop_effects (qs : list path) (w w' : world) (r : result unit) :
  for_each qs
    (fun q (_ : unit) w =>
       match fs w !! q with
       | None => (Ok tt, with_fs (<[q := Dir]> (fs w)) w)
       | Some Dir => (Ok tt, w)
       | Some (File _) => (Raise OSError, w)
       end) tt w = (r, w') →
  fs w ⊆ fs w' ∧ calls w' = calls w ∧ stdout w' = stdout w
  ∧ ∀ q n, fs w !! q = None → fs w' !! q = Some n → n = Dir ∧ In q qs.
Proof.
  revert w r w'. induction qs as [|q qs IH]; intros w r w'; simpl.
  - intros [= <- <-]. repeat split; try reflexivity; congruence.
  - intros H.
    apply bind_inv in H as [([] & w1 & Hstep & Hrest)|(e & Hstep & _)].
    + apply IH in Hrest as (Hsub & Hc & Ho & Hnew).
      destruct (fs w !! q) as [[|t]|] eqn:E; simplify_eq.
      * repeat split; try assumption.
        -- apply (Hnew q0 n); assumption.
        -- right. apply (Hnew q0 n); assumption.
      * simpl in *. split; [|split; [exact Hc|split; [exact Ho|]]].
        -- etrans; [|exact Hsub]. apply insert_subseteq. assumption.
        -- intros q' n Hnone Hsome.
           destruct (decide (q = q')) as [<-|Hne].
           ++ split; [|left; reflexivity].
              assert (Hq : fs w' !! q = Some Dir).
              { eapply map_subseteq_spec; [exact Hsub|].
                apply lookup_insert_eq. }
              congruence.
           ++ destruct (Hnew q' n) as [Hn Hin]; [|exact Hsome|auto].
              rewrite lookup_insert_ne by assumption. exact Hnone.
    + destruct (fs w !! q) as [[|t]|] eqn:E; simplify_eq.
      repeat split; try reflexivity; congruence.
Qed.

Lemma write_text_effects (p : path) (text : pystr) (w w' : world)
    (r : result unit) :
  write_text p text w = (r, w') →
  calls w' = calls w ∧ stdout w' = stdout w
  ∧ ((r = Ok tt ∧ fs w' = <[p := File text]> (fs w))
     ∨ (∃ e, r = Raise e) ∧ fs w' = fs w).
Proof.
  unfold write_text.
  destruct (fs w !! p) as [[|t]|];
    try (destruct (is_dir (removelast p) w));
    intros [= <- <-]; repeat split; eauto.
Qed.

Section FileTransformer.

Variable U : unicode_tables.
Variable py_str : pyval → pystr.
Variable client : list request → request → reply.
Variable yaml_safe_load : pystr → result pyval.
Variable yaml_dump : pyval → pystr.
Variable CODE : pystr.

Local Abbreviation file_transformer :=
  (translate_file U py_str client yaml_safe_load yaml_dump CODE).

(** Where the files stand when [translate_file] ends: untouched, or after
    the [mkdir], or after the write that follows a successful [mkdir]. *)
Lemma translate_file_fs (source_file dest_file : path) (src tgt : pystr)
    (w w' : world) (r : result unit) :
  file_transformer source_file dest_file src tgt w = (r, w') →
  fs w' = fs w
  ∨ ∃ w3 w4 r4,
      fs w3 = fs w
      ∧ mkdir_parents (removelast dest_file) w3 = (r4, w4)
      ∧ (fs w' = fs w4
         ∨ ∃ text, r = Ok tt ∧ fs w' = <[dest_file := File text]> (fs w4)).
Proof.
  intros H. unfold translate_file in H.
  apply bind_inv in H as [(content & w1 & Hread & H)|(e & Hread & _)];
    [|apply read_text_same in Hread; subst; left; reflexivity].
  apply read_text_same in Hread; subst w1.
  destruct (Re.match_ FRONT_MATTER_RE content) as [match_groups|];
    [|left; exact (keeps_files_run _ _ _ _ (keeps_files_print _) H)].
  apply bind_inv in H as [(fm & w1 & Hload & H)|(e & Hload & _)];
    [|left; exact (keeps_files_run _ _ _ _ (keeps_files_lift _) Hload)].
  apply (keeps_files_run _ _ _ _ (keeps_files_lift _)) in Hload.
  apply bind_inv in H as [(fm' & w2 & Hfm & H)|(e & Hfm & _)];
    [|left;
      rewrite (keeps_files_run _ _ _ _
                 (keeps_files_translate_front_matter _ _ _ _ _ _ _) Hfm);
      exact Hload].
  apply (keeps_files_run _ _ _ _
           (keeps_files_translate_front_matter _ _ _ _ _ _ _)) in Hfm.
  apply bind_inv in H as [(body' & w3 & Hbody & H)|(e & Hbody & _)];
    [|left;
      rewrite (keeps_files_run _ _ _ _
                 (keeps_files_translate_markdown _ _ _ _ _) Hbody);
      congruence].
  apply (keeps_files_run _ _ _ _
           (keeps_files_translate_markdown _ _ _ _ _)) in Hbody.
  right. exists w3.
  apply bind_inv in H as [([] & w4 & Hmk & H)|(e & Hmk & ->)].
  - exists w4, (Ok tt). split; [congruence|]. split; [exact Hmk|].
    apply bind_inv in H as [([] & w5 & Hwr & H)|(e & Hwr & ->)].
    + unfold print in H. injection H as <- <-.
      apply write_text_effects in Hwr
        as (_ & _ & [[_ Hfs]|[(e & He) _]]); [|discriminate].
      right. eexists. split; [reflexivity|exact Hfs].
    + apply write_text_effects in Hwr
        as (_ & _ & [[Hr _]|[_ Hfs]]); [discriminate|].
      left. exact Hfs.
  - exists w', (Raise e). split; [congruence|]. split; [exact Hmk|].
    left. reflexivity.
Qed.

(** X13. Whatever [translate_file] does and however it ends, it changes
    nothing but its destination: every other file or directory that existed
    is still there unchanged (the source file included), and a path that
    appears is the destination itself or a directory on the way to it. *)
Theorem translate_file_touches_destination_only
    (source_file dest_file : path) (src tgt : pystr) (w w' : world)
    (r : result unit) :
  file_transformer source_file dest_file src tgt w = (r, w') →
  (∀ q n, q ≠ dest_file → fs w !! q = Some n → fs w' !! q = Some n)
  ∧ (∀ q n, q ≠ dest_file → fs w !! q = None → fs w' !! q = Some n →
       n = Dir ∧ In q (ancestors_and_self (removelast dest_file))).
Proof.
  intros H.
  apply translate_file_fs in H
    as [Hfs|(w3 & w4 & r4 & H3 & Hmk & Hend)].
  - rewrite Hfs. split; [auto|]. intros q n _ H1 H2. congruence.
  - unfold mkdir_parents in Hmk.
    apply mkdir_loop_effects in Hmk as (Hsub & _ & _ & Hnew).
    rewrite H3 in Hsub, Hnew.
    assert (Hother : ∀ q, q ≠ dest_file → fs w' !! q = fs w4 !! q).
    { intros q Hq. destruct Hend as [->|(text & _ & ->)]; [reflexivity|].
      apply lookup_insert_ne. congruence. }
    split.
    + intros q n Hq Hsome. rewrite Hother by assumption.
      eapply map_subseteq_spec; [exact Hsub|exact Hsome].
    + intros q n Hq Hnone Hsome. rewrite Hother in Hsome by assumption.
      apply (Hnew q n); assumption.
Qed.

Lemma mkdir_parents_quiet (p : path) (w w' : world) (r : result unit) :
  mkdir_parents p w = (r, w') → calls w' = calls w ∧ stdout w' = stdout w.
Proof.
  unfold mkdir_parents. intros H.
  apply mkdir_loop_effects in H as (_ & Hc & Ho & _). auto.
Qed.

(** X14. When [translate_file] returns normally for a file with a
    front-matter block, the destination holds the marker line, the dump of
    the transformed front matter, the marker line and the translated body;
    this is so whether or not the destination existed before.  The
    request for the body is the last one sent, after those of the front
    matter, and the last line printed names the destination. *)
Theorem translate_file_writes_document
    (source_file dest_file : path) (src tgt content : pystr)
    (match_groups : list pystr) (w w' : world) :
  fs w !! source_file = Some (File content) →
  Re.match_ FRONT_MATTER_RE content = Some match_groups →
  file_transformer source_file dest_file src tgt w = (Ok tt, w') →
  ∃ fm fm' body' w1 w2,
    yaml_safe_load (nth 0 match_groups []) = Ok fm
    ∧ translate_front_matter U py_str client CODE fm src tgt w = (Ok fm', w1)
    ∧ translate_markdown py_str client (PyStr (nth 1 match_groups []))
        src tgt w1 = (Ok body', w2)
    ∧ fs w' !! dest_file
      = Some (File (u "---" ++ [NEWLINE] ++ yaml_dump fm' ++ u "---"
                    ++ [NEWLINE] ++ py_format py_str body'))
    ∧ calls w'
      = calls w1
        ++ [markdown_request py_str (PyStr (nth 1 match_groups [])) src tgt]
    ∧ last (stdout w')
      = Some (u "Translated file saved to " ++ path_str dest_file).
Proof.
  intros Hfile Hmatch H.
  rewrite (translate_file_parsed U py_str client yaml_safe_load yaml_dump CODE
             _ dest_file src tgt _ _ _ Hfile Hmatch) in H.
  apply bind_ok_inv in H as (fm & w0 & Hload & H).
  unfold lift in Hload. injection Hload as Hload <-.
  apply bind_ok_inv in H as (fm' & w1 & Hfm & H).
  apply bind_ok_inv in H as (body' & w2 & Hbody & H).
  apply bind_ok_inv in H as ([] & w3 & Hmk & H).
  apply bind_ok_inv in H as ([] & w4 & Hwr & H).
  unfold print in H. injection H as <-.
  exists fm, fm', body', w1, w2.
  split; [exact Hload|]. split; [exact Hfm|]. split; [exact Hbody|].
  apply mkdir_parents_quiet in Hmk as [Hc3 _].
  apply write_text_effects in Hwr
    as (Hc4 & _ & [[_ Hfs]|[(e & He) _]]); [|discriminate].
  destruct (translate_markdown_returns py_str client
              (PyStr (nth 1 match_groups [])) src tgt w1)
    as (b & w2' & Hb & _ & Hcalls).
  rewrite Hbody in Hb. injection Hb as <- <-.
  split; [|split].
  - simpl. rewrite Hfs. apply lookup_insert_eq.
  - simpl. congruence.
  - simpl. apply last_snoc.
Qed.

End FileTransformer.

Lemma translate_file_touches_destination_only_witness :
  match
    translate_file Sample.latin1 Sample.py_str Sample.shouting
      Sample.yaml_safe_load Sample.yaml_dump (u "fr")
      (Sample.SITE ++ [u "pages"; u "about.md"])
      (Sample.SITE ++ [u "fr"; u "pages"; u "about.md"])
      (u "English") (u "French") Sample.site_untranslated
  with
  | (r, w') =>
    (∀ q n, q ≠ Sample.SITE ++ [u "fr"; u "pages"; u "about.md"] →
            fs Sample.site_untranslated !! q = Some n → fs w' !! q = Some n)
    ∧ (∀ q n, q ≠ Sample.SITE ++ [u "fr"; u "pages"; u "about.md"] →
              fs Sample.site_untranslated !! q = None →
              fs w' !! q = Some n →
              n = Dir
              ∧ In q (ancestors_and_self
                        (removelast
                           (Sample.SITE ++ [u "fr"; u "pages"; u "about.md"]))))
  end.
Proof.
  destruct (translate_file Sample.latin1 Sample.py_str Sample.shouting
              Sample.yaml_safe_load Sample.yaml_dump (u "fr")
              (Sample.SITE ++ [u "pages"; u "about.md"])
              (Sample.SITE ++ [u "fr"; u "pages"; u "about.md"])
              (u "English") (u "French") Sample.site_untranslated)
    as [r w'] eqn:E.
  exact (translate_file_touches_destination_only Sample.latin1 Sample.py_str
           Sample.shouting Sample.yaml_safe_load Sample.yaml_dump (u "fr")
           _ _ _ _ _ _ _ E).
Defined.

Lemma translate_file_writes_document_witness :
  ∃ w' fm fm' body' w1 w2,
    translate_file Sample.latin1 Sample.py_str Sample.shouting
      Sample.yaml_safe_load Sample.yaml_dump (u "fr")
      (Sample.SITE ++ [u "pages"; u "about.md"])
      (Sample.SITE ++ [u "fr"; u "pages"; u "about.md"])
      (u "English") (u "French") Sample.site_translated = (Ok tt, w')
    ∧ Sample.yaml_safe_load
        (Sample.text [u "title: Hello World"; u "permalink: /about"]) = Ok fm
    ∧ translate_front_matter Sample.latin1 Sample.py_str Sample.shouting
        (u "fr") fm (u "English") (u "French") Sample.site_translated
      = (Ok fm', w1)
    ∧ translate_markdown Sample.py_str Sample.shouting
        (PyStr (Sample.text [u "# Hi"; u ""; u "Some *text*."]))
        (u "English") (u "French") w1 = (Ok body', w2)
    ∧ fs w' !! (Sample.SITE ++ [u "fr"; u "pages"; u "about.md"])
      = Some (File (u "---" ++ [NEWLINE] ++ Sample.yaml_dump fm' ++ u "---"
                    ++ [NEWLINE] ++ py_format Sample.py_str body'))
    ∧ calls w'
      = calls w1
        ++ [markdown_request Sample.py_str
              (PyStr (Sample.text [u "# Hi"; u ""; u "Some *text*."]))
              (u "English") (u "French")]
    ∧ last (stdout w')
      = Some (u "Translated file saved to "
              ++ path_str (Sample.SITE ++ [u "fr"; u "pages"; u "about.md"])).
Proof.
  destruct (translate_file Sample.latin1 Sample.py_str Sample.shouting
              Sample.yaml_safe_load Sample.yaml_dump (u "fr")
              (Sample.SITE ++ [u "pages"; u "about.md"])
              (Sample.SITE ++ [u "fr"; u "pages"; u "about.md"])
              (u "English") (u "French") Sample.site_translated)
    as [r w'] eqn:E.
  assert (Hr : fst (translate_file Sample.latin1 Sample.py_str Sample.shouting
                      Sample.yaml_safe_load Sample.yaml_dump (u "fr")
                      (Sample.SITE ++ [u "pages"; u "about.md"])
                      (Sample.SITE ++ [u "fr"; u "pages"; u "about.md"])
                      (u "English") (u "French") Sample.site_translated)
               = Ok tt) by (vm_compute; reflexivity).
  rewrite E in Hr. simpl in Hr. subst r.
  destruct (translate_file_writes_document Sample.latin1 Sample.py_str
              Sample.shouting Sample.yaml_safe_load Sample.yaml_dump (u "fr")
              (Sample.SITE ++ [u "pages"; u "about.md"])
              (Sample.SITE ++ [u "fr"; u "pages"; u "about.md"])
              (u "English") (u "French") Sample.about_md
              [ Sample.text [u "title: Hello World"; u "permalink: /about"];
                Sample.text [u "# Hi"; u ""; u "Some *text*."] ]
              Sample.site_translated w')
    as (fm & fm' & body' & w1 & w2 & H);
    [vm_compute; reflexivity | vm_compute; reflexivity | exact E |].
  exists w', fm, fm', body', w1, w2. split; [reflexivity|exact H].
Defined.

(** ** The walk comes to an end *)

Lemma prefix_snoc_inv {A} (r l : list A) (x : A) :
  r `prefix_of` l ++ [x] → r `prefix_of` l ∨ r = l ++ [x].
Proof.
  intros [k Hk]. destruct k as [|y k _] using rev_ind.
  - right. rewrite app_nil_r in Hk. auto.
  - left. rewrite app_assoc in Hk. apply app_inj_tail in Hk as [-> _].
    exists k. reflexivity.
Qed.

(** What [os.scandir] lists as a directory is a directory of the tree, and
    no name is listed twice. *)
Lemma scandir_dirs (f : gmap path node) (top : path) :
  NoDup (fst (scandir f top))
  ∧ ∀ d, d ∈ fst (scandir f top) → f !! (top ++ [d]) = Some Dir.
Proof.
  unfold scandir. cbn [fst].
  match goal with
  | |- context [List.flat_map ?g (List.flat_map ?c _)] =>
    set (dsel := g); set (csel := c)
  end.
  assert (Hgen : ∀ L : list (path * node), NoDup L.*1 →
            NoDup (List.flat_map dsel (List.flat_map csel L))
            ∧ ∀ d, d ∈ List.flat_map dsel (List.flat_map csel L) →
                   (top ++ [d], Dir) ∈ L).
  { induction L as [|[p n] L IH]; intros Hnd.
    - split; [constructor|]. intros d Hd. apply elem_of_nil in Hd as [].
    - cbn in Hnd. apply NoDup_cons in Hnd as [Hp Hnd].
      destruct (IH Hnd) as [IH1 IH2].
      cbn [List.flat_map]. rewrite flat_map_app.
      assert (Hhead : List.flat_map dsel (csel (p, n)) = []
                      ∨ ∃ d, p = top ++ [d] ∧ n = Dir
                             ∧ List.flat_map dsel (csel (p, n)) = [d]).
      { subst csel dsel. cbn. destruct (last p) as [name|];
          [|left; reflexivity].
        destruct (bool_decide (p = top ++ [name])) eqn:E;
          [|left; reflexivity].
        apply bool_decide_eq_true in E.
        destruct n; cbn; [right; eauto|left; reflexivity]. }
      destruct Hhead as [->|(d & -> & -> & ->)]; cbn [app].
      + split; [exact IH1|]. intros d Hd. right. auto.
      + split.
        * apply NoDup_cons. split; [|exact IH1].
          intros Hd. apply IH2 in Hd. apply Hp.
          apply list_elem_of_fmap. exists (top ++ [d], Dir). auto.
        * intros d' Hd'. apply elem_of_cons in Hd' as [->|Hd'];
            [left|right; auto]. }
  destruct (Hgen _ (NoDup_fst_map_to_list f)) as [H1 H2].
  split; [exact H1|]. intros d Hd. apply elem_of_map_to_list, H2, Hd.
Qed.

Lemma covered_elem (f0 : gmap path node) (stack : list path) (k : path) :
  k ∈ covered f0 stack ↔
  (∃ p, p ∈ stack ∧ p `prefix_of` k ∧ p ≠ k) ∧ is_Some (f0 !! k).
Proof.
  unfold covered. rewrite list_elem_of_filter, Exists_exists.
  apply and_iff_compat_l. rewrite list_elem_of_fmap. split.
  - intros ([p n] & -> & H). apply elem_of_map_to_list in H. cbn. eauto.
  - intros [n H]. exists (k, n). split; [reflexivity|].
    apply elem_of_map_to_list. exact H.
Qed.

Lemma covered_NoDup (f0 : gmap path node) (stack : list path) :
  NoDup (covered f0 stack).
Proof. apply NoDup_filter, NoDup_fst_map_to_list. Qed.

Lemma covered_bound (f0 : gmap path node) (stack : list path) :
  (length (covered f0 stack) ≤ size f0)%nat.
Proof.
  unfold covered. etrans; [apply length_filter|].
  rewrite length_fmap, length_map_to_list. reflexivity.
Qed.

(** Leaving a directory of the stack aside frees nothing to visit. *)
Lemma covered_pop (f0 : gmap path node) (top : path) (rest : list path) :
  (length (covered f0 rest) ≤ length (covered f0 (top :: rest)))%nat.
Proof.
  apply submseteq_length, NoDup_submseteq; [apply covered_NoDup|].
  intros k. rewrite !covered_elem. intros [(p & Hp & H) Hk].
  split; [|exact Hk]. exists p. split; [right; exact Hp|exact H].
Qed.

(** Replacing a directory by its sub-directories takes these out of what
    is left to visit. *)
Lemma covered_push (f0 : gmap path node) (top : path) (rest : list path)
    (dirs : list pystr) :
  incomparable (top :: rest) → NoDup dirs →
  (∀ d, d ∈ dirs → is_Some (f0 !! (top ++ [d]))) →
  (length dirs
   + length (covered f0 (((fun d => top ++ [d]) <$> dirs) ++ rest))
   ≤ length (covered f0 (top :: rest)))%nat.
Proof.
  intros [Hinc _] Hnd Hkeys.
  rewrite <- (length_fmap (fun d => top ++ [d]) dirs), <- length_app.
  apply submseteq_length, NoDup_submseteq.
  - apply NoDup_app. split; [|split; [|apply covered_NoDup]].
    + apply NoDup_fmap_2_strong; [|exact Hnd].
      intros a b _ _ H. apply app_inv_head in H. congruence.
    + intros k Hk Hcov. apply list_elem_of_fmap in Hk as (d & -> & Hd).
      apply covered_elem in Hcov as [(p & Hp & Hpre & Hne) _].
      apply elem_of_app in Hp as [Hp|Hp].
      * apply list_elem_of_fmap in Hp as (d' & -> & _).
        apply Hne, prefix_length_eq; [exact Hpre|].
        rewrite !length_app. reflexivity.
      * rewrite Forall_forall in Hinc. destruct (Hinc p Hp) as [H1 H2].
        apply prefix_snoc_inv in Hpre as [Hpre|Heq];
          [exact (H2 Hpre)|contradiction].
  - intros k Hk. apply covered_elem. apply elem_of_app in Hk as [Hk|Hk].
    + apply list_elem_of_fmap in Hk as (d & -> & Hd).
      split; [|apply Hkeys, Hd].
      exists top. split; [left|]. split; [apply prefix_app_r; reflexivity|].
      intros H. apply (f_equal length) in H. rewrite length_app in H.
      cbn in H. lia.
    + apply covered_elem in Hk as [(p & Hp & Hpre & Hne) Hk].
      split; [|exact Hk]. apply elem_of_app in Hp as [Hp|Hp].
      * apply list_elem_of_fmap in Hp as (d & -> & _).
        exists top. split; [left|]. split.
        -- etrans; [|exact Hpre]. apply prefix_app_r. reflexivity.
        -- intros ->. exact (prefix_snoc_not _ _ Hpre).
      * exists p. split; [right; exact Hp|]. split; assumption.
Qed.

Lemma incomparable_push (top : path) (rest : list path)
    (dirs : list pystr) :
  incomparable (top :: rest) → NoDup dirs →
  incomparable (((fun d => top ++ [d]) <$> dirs) ++ rest).
Proof.
  intros [Hinc Hrest]. induction dirs as [|d ds IH]; intros Hnd;
    [exact Hrest|].
  apply NoDup_cons in Hnd as [Hd Hnd]. cbn. split; [|apply IH, Hnd].
  apply Forall_app. split.
  - apply Forall_fmap, Forall_forall. intros d' Hd'. cbn.
    split; intros H; apply prefix_length_eq in H;
      try (rewrite !length_app; reflexivity);
      apply app_inv_head in H; injection H as ->; contradiction.
  - rewrite Forall_forall in Hinc |- *. intros r Hr.
    destruct (Hinc r Hr) as [H1 H2]. split.
    + intros H. apply H1. etrans; [|exact H].
      apply prefix_app_r. reflexivity.
    + intros H. apply prefix_snoc_inv in H as [H| ->]; [exact (H2 H)|].
      apply H1. apply prefix_app_r. reflexivity.
Qed.

(** A walk whose body leaves the part of the tree at and below [base] as
    it is comes to an end, by returning or by raising, as soon as the fuel
    exceeds the number of directories on the stack plus the number of
    paths below them. *)
Lemma os_walk_terminates (I : world → Prop) (base : path)
    (f0 : gmap path node) (body : path → list pystr → M unit) :
  (∀ w, I w → same_below base (fs w) f0) →
  (∀ top w r w',
     I w → base `prefix_of` top →
     body top (snd (scandir (fs w) top)) w = (r, w') → I w') →
  ∀ fuel stack w,
    I w → Forall (fun p => base `prefix_of` p) stack →
    incomparable stack →
    (length stack + length (covered f0 stack) < fuel)%nat →
    ∃ r w', os_walk fuel body stack w = Some (r, w').
Proof.
  intros HI Hb. induction fuel as [|fuel IH];
    intros stack w Hw Hbase Hinc Hfuel; [lia|].
  cbn [os_walk]. destruct stack as [|top rest]; [eauto|].
  apply Forall_cons in Hbase as [Htop Hbase].
  assert (Hskip : ∃ r w', os_walk fuel body rest w = Some (r, w')).
  { apply IH; [exact Hw|exact Hbase|apply Hinc|].
    pose proof (covered_pop f0 top rest). cbn [length] in Hfuel. lia. }
  destruct (fs w !! top) as [[|t]|] eqn:Etop; try exact Hskip.
  destruct (scandir_dirs (fs w) top) as [Hnd Hdirs].
  pose proof (Hb top w) as Hbody.
  destruct (scandir (fs w) top) as [dirs files]. cbn [fst snd] in *.
  destruct (body top files w) as [[[]|e] w1] eqn:E; [|eauto].
  change (List.map (fun d => top ++ [d]) dirs)
    with ((fun d => top ++ [d]) <$> dirs).
  apply IH.
  - eapply Hbody; [exact Hw|exact Htop|reflexivity].
  - apply Forall_app. split; [|exact Hbase].
    apply Forall_fmap, Forall_forall. intros d _. cbn.
    etrans; [exact Htop|]. apply prefix_app_r. reflexivity.
  - apply incomparable_push; assumption.
  - assert (Hkeys : ∀ d, d ∈ dirs → is_Some (f0 !! (top ++ [d]))).
    { intros d Hd. rewrite <- (HI w Hw);
        [rewrite (Hdirs d Hd); eauto|].
      etrans; [exact Htop|]. apply prefix_app_r. reflexivity. }
    pose proof (covered_push f0 top rest dirs Hinc Hnd Hkeys) as Hc.
    rewrite length_app, length_fmap. cbn [length] in Hfuel. lia.
Qed.

(** ** Tree Walker *)

Lemma relative_to_app (base r : path) : relative_to base (base ++ r) = Ok r.
Proof.
  induction base as [|b base IH]; simpl; [reflexivity|].
  rewrite str_eqb_refl. exact IH.
Qed.




(** What [os.scandir] lists as a file is a file of the directory. *)
Lemma scandir_files (f : gmap path node) (top : path) (name : pystr) :
  In name (snd (scandir f top)) → ∃ t, f !! (top ++ [name]) = Some (File t).
Proof.
  unfold scandir. cbn [snd]. intros H.
  apply in_flat_map in H as ([name' n] & Hin & Hname).
  apply in_flat_map in Hin as ([p n'] & Hp & Hchild).
  apply list_elem_of_In, elem_of_map_to_list in Hp.
  destruct (last p) as [nm|]; [|destruct Hchild].
  destruct (bool_decide (p = top ++ [nm])) eqn:E; [|destruct Hchild].
  apply bool_decide_eq_true in E. subst p.
  destruct Hchild as [[= -> ->]|[]].
  destruct n as [|t]; [destruct Hname|].
  destruct Hname as [->|[]]. eauto.
Qed.

(** Loops that go through without an exception while an invariant of the
    world is kept. *)
Lemma for_each_quiet {A} (I : world → Prop) (P : A → Prop) (xs : list A)
    (body : A → unit → M unit) :
  (∀ x w r w', P x → I w → body x tt w = (r, w') → r = Ok tt ∧ I w') →
  (∀ x, In x xs → P x) →
  ∀ w r w', I w → for_each xs body tt w = (r, w') → r = Ok tt ∧ I w'.
Proof.
  intros Hb. induction xs as [|x xs IH]; intros HP w r w' HI; simpl.
  - intros [= <- <-]. auto.
  - intros H.
    apply bind_inv in H as [([] & w1 & Hx & H)|(e & Hx & _)].
    + apply Hb in Hx as [_ HI1]; [|apply HP; left; reflexivity|exact HI].
      eapply IH; [intros y Hy; apply HP; right; exact Hy|exact HI1|exact H].
    + apply Hb in Hx as [Hr _]; [discriminate|apply HP; left; reflexivity|].
      exact HI.
Qed.

Lemma os_walk_quiet (I : world → Prop) (Q : path → Prop)
    (body : path → list pystr → M unit) :
  (∀ top w r w', Q top → I w →
     body top (snd (scandir (fs w) top)) w = (r, w') → r = Ok tt ∧ I w') →
  (∀ top d, Q top → Q (top ++ [d])) →
  ∀ fuel stack w r w',
    (∀ p, In p stack → Q p) → I w →
    os_walk fuel body stack w = Some (r, w') → r = Ok tt ∧ I w'.
Proof.
  intros Hb HQ. induction fuel as [|fuel IH]; intros stack w r w' HS HI;
    cbn [os_walk]; [discriminate|].
  destruct stack as [|top rest]; [intros [= <- <-]; auto|].
  assert (Hrest : ∀ p, In p rest → Q p)
    by (intros p Hp; apply HS; right; exact Hp).
  destruct (fs w !! top) as [[|t]|]; try (apply IH; assumption).
  pose proof (Hb top w) as Hbody.
  destruct (scandir (fs w) top) as [dirs files]. cbn [snd] in Hbody.
  destruct (body top files w) as [[[]|e] w1] eqn:E.
  - destruct (Hbody _ _ (HS top (or_introl eq_refl)) HI eq_refl) as [_ HI1].
    apply IH; [|exact HI1].
    intros p Hp. apply in_app_or in Hp as [Hp|Hp]; [|apply Hrest; exact Hp].
    apply in_map_iff in Hp as (d & <- & _). apply HQ, HS. left; reflexivity.
  - destruct (Hbody _ _ (HS top (or_introl eq_refl)) HI eq_refl) as [Hr _].
    discriminate.
Qed.

Section Walker.

Variable U : unicode_tables.
Variable py_str : pyval → pystr.
Variable client : list request → request → reply.
Variable yaml_safe_load : pystr → result pyval.
Variable yaml_dump : pyval → pystr.
Variable SOURCE_DIR : path.
Variable CODE : pystr.

Local Abbreviation entry :=
  (process_entry U py_str client yaml_safe_load yaml_dump SOURCE_DIR CODE).
Local Abbreviation walk_directory :=
  (process_directory U py_str client yaml_safe_load yaml_dump SOURCE_DIR CODE).

(** Over a directory whose Markdown files all have their destination the
    loop over the files of a directory goes through and changes neither
    the files nor the requests. *)
Lemma completed_entries_idle (w0 : world) (directory src tgt : pystr)
    (top : path) (w w' : world) (r : result unit) :
  batch_completed SOURCE_DIR CODE [directory] (fs w0) →
  fs w = fs w0 ∧ calls w = calls w0 →
  (SOURCE_DIR ++ [directory]) `prefix_of` top →
  for_each (snd (scandir (fs w) top))
    (fun file (_ : unit) => entry src tgt top file) tt w = (r, w') →
  r = Ok tt ∧ fs w' = fs w0 ∧ calls w' = calls w0.
Proof.
  intros Hdone HI [rel ->].
  apply (for_each_quiet (fun w => fs w = fs w0 ∧ calls w = calls w0)
           (fun file => ∃ t,
              fs w0 !! (((SOURCE_DIR ++ [directory]) ++ rel) ++ [file])
              = Some (File t)));
    [| |exact HI].
  - intros file w2 r2 w2' (t & Hfile) [Hfs Hcalls].
    unfold process_entry.
    destruct (endswith (u ".md") file) eqn:Hmd;
      [|intros [= <- <-]; auto].
    unfold bind at 1. unfold lift at 1.
    rewrite <- !app_assoc, relative_to_app.
    unfold bind at 1. unfold exists_. rewrite Hfs.
    rewrite <- !app_assoc in Hfile. cbn [app] in *.
    destruct (fs w0 !! (DEST_DIR SOURCE_DIR CODE
                        ++ directory :: rel ++ [file]))
      as [n|] eqn:E;
      [|exfalso; exact (Hdone _ _ _ _ (or_introl eq_refl) Hfile Hmd E)].
    unfold print. intros [= <- <-]. auto.
  - intros file Hin. destruct HI as [Hfs1 _]. rewrite <- Hfs1.
    apply scandir_files. exact Hin.
Qed.

Lemma process_directory_idle (w0 : world) (fuel : nat)
    (directory src tgt : pystr) (w w' : world) (r : result unit) :
  batch_completed SOURCE_DIR CODE [directory] (fs w0) →
  fs w = fs w0 ∧ calls w = calls w0 →
  walk_directory fuel directory src tgt w = Some (r, w') →
  r = Ok tt ∧ fs w' = fs w0 ∧ calls w' = calls w0.
Proof.
  intros Hdone HI. unfold process_directory.
  apply (os_walk_quiet (fun w => fs w = fs w0 ∧ calls w = calls w0)
           (fun top => (SOURCE_DIR ++ [directory]) `prefix_of` top)).
  - intros top w1 r1 w1' Htop HI1.
    apply (completed_entries_idle w0 directory); assumption.
  - intros top d Htop. apply prefix_app_r. exact Htop.
  - intros p [<-|[]]. reflexivity.
  - exact HI.
Qed.

(** Such a walk comes to its end once the fuel exceeds the number of
    files and directories by one. *)
Lemma process_directory_idle_ends (w0 : world) (fuel : nat)
    (directory src tgt : pystr) (w : world) :
  batch_completed SOURCE_DIR CODE [directory] (fs w0) →
  fs w = fs w0 ∧ calls w = calls w0 →
  (size (fs w0) + 2 ≤ fuel)%nat →
  ∃ w', walk_directory fuel directory src tgt w = Some (Ok tt, w')
        ∧ fs w' = fs w0 ∧ calls w' = calls w0.
Proof.
  intros Hdone HI Hfuel.
  destruct (os_walk_terminates
              (fun w => fs w = fs w0 ∧ calls w = calls w0)
              (SOURCE_DIR ++ [directory]) (fs w0)
              (fun root files =>
                 for_each files
                   (fun file (_ : unit) => entry src tgt root file) tt))
    with (fuel := fuel) (stack := [SOURCE_DIR ++ [directory]]) (w := w)
    as (r & w' & Hrun).
  - intros w1 [Hfs _] k _. rewrite Hfs. reflexivity.
  - intros top w1 r1 w1' HI1 Htop Hbody.
    eapply completed_entries_idle; eassumption.
  - exact HI.
  - apply Forall_cons. split; [reflexivity|constructor].
  - cbn. split; constructor.
  - pose proof (covered_bound (fs w0) [SOURCE_DIR ++ [directory]]).
    cbn [length]. lia.
  - exists w'. fold (walk_directory fuel directory src tgt w) in Hrun.
    destruct (process_directory_idle w0 _ _ _ _ _ _ _ Hdone HI Hrun)
      as (-> & Hfs & Hcalls).
    auto.
Qed.

Lemma main_loop_idle (w0 : world) (SL DL : pystr) (fuel : nat)
    (directories : list pystr) (w : world) :
  batch_completed SOURCE_DIR CODE directories (fs w0) →
  fs w = fs w0 ∧ calls w = calls w0 →
  (size (fs w0) + 2 ≤ fuel)%nat →
  ∃ w',
    main_loop U py_str client yaml_safe_load yaml_dump SOURCE_DIR SL DL CODE
      fuel directories w = Some (Ok tt, w')
    ∧ fs w' = fs w0 ∧ calls w' = calls w0.
Proof.
  intros Hdone HI Hfuel. revert w HI Hdone.
  induction directories as [|directory rest IH]; intros w HI Hdone; simpl.
  - exists w. auto.
  - assert (Hone : batch_completed SOURCE_DIR CODE [directory] (fs w0)).
    { intros d rel file content [<-|[]]. apply Hdone. left; reflexivity. }
    assert (Hrest : batch_completed SOURCE_DIR CODE rest (fs w0)).
    { intros d rel file content Hd. apply Hdone. right; exact Hd. }
    destruct (process_directory_idle_ends w0 fuel directory SL DL w
                Hone HI Hfuel) as (w1 & -> & HI1).
    apply IH; assumption.
Qed.

(** X16. Running over a completed batch is idle: when every Markdown file
    below the content directories already has its destination, a run of
    [process_directory], and of [main], returns without an exception,
    sends no request and changes no file.  A fuel of two more than the
    number of files and directories in the tree is enough for the walk. *)
Theorem completed_batch_is_idle (w : world) (fuel : nat) :
  (size (fs w) + 2 ≤ fuel)%nat →
  (∀ directory,
     batch_completed SOURCE_DIR CODE [directory] (fs w) →
     ∀ src tgt, ∃ w',
       walk_directory fuel directory src tgt w = Some (Ok tt, w')
       ∧ fs w' = fs w ∧ calls w' = calls w)
  ∧ (batch_completed SOURCE_DIR CODE DIRECTORIES (fs w) →
     ∀ SL DL, ∃ w',
       main U py_str client yaml_safe_load yaml_dump SOURCE_DIR SL DL CODE
         fuel w = Some (Ok tt, w')
       ∧ fs w' = fs w ∧ calls w' = calls w).
Proof.
  intros Hfuel. split.
  - intros directory Hdone src tgt.
    apply (process_directory_idle_ends w); auto.
  - intros Hdone SL DL. unfold main.
    apply (main_loop_idle w); auto.
Qed.

(** X17. Files whose name does not end in [.md] are not looked at: over a
    tree without Markdown files a run of [process_directory] returns
    normally and leaves the world as it found it: no file read or
    written, no request, no line printed.  A fuel of two more than the
    number of files and directories in the tree is enough for the walk. *)
Theorem other_files_ignored (fuel : nat) (directory src tgt : pystr)
    (w : world) :
  no_markdown (fs w) →
  (size (fs w) + 2 ≤ fuel)%nat →
  walk_directory fuel directory src tgt w = Some (Ok tt, w).
Proof.
  intros Hnone Hfuel.
  assert (Hbody : ∀ top w1 r1 w1', w1 = w →
            for_each (snd (scandir (fs w1) top))
              (fun file (_ : unit) => entry src tgt top file) tt w1
            = (r1, w1') → r1 = Ok tt ∧ w1' = w).
  { intros top w1 r1 w1' ->.
    apply (for_each_quiet (fun w1 => w1 = w)
             (fun file => ∃ t, fs w !! (top ++ [file]) = Some (File t)));
      [| |reflexivity].
    - intros file w2 r2 w2' (t & Hfile) ->. unfold process_entry.
      rewrite (Hnone _ file _ Hfile (last_snoc _ _)).
      intros [= <- <-]. auto.
    - intros file Hin. apply scandir_files. exact Hin. }
  destruct (os_walk_terminates (fun w1 => w1 = w)
              (SOURCE_DIR ++ [directory]) (fs w)
              (fun root files =>
                 for_each files
                   (fun file (_ : unit) => entry src tgt root file) tt))
    with (fuel := fuel) (stack := [SOURCE_DIR ++ [directory]]) (w := w)
    as (r & w' & Hrun).
  - intros w1 -> k _. reflexivity.
  - intros top w1 r1 w1' Hw1 _ H. eapply Hbody; eassumption.
  - reflexivity.
  - apply Forall_cons. split; [reflexivity|constructor].
  - cbn. split; constructor.
  - pose proof (covered_bound (fs w) [SOURCE_DIR ++ [directory]]).
    cbn [length]. lia.
  - unfold process_directory. rewrite Hrun.
    apply (os_walk_quiet (fun w1 => w1 = w) (fun _ => True)) in Hrun
      as [-> ->]; auto.
    intros top w1 r1 w1' _. apply Hbody.
Qed.


(** Loops that keep a reflexive and transitive relation between the world
    before and the world after. *)
Lemma for_each_rel {A} (R : world → world → Prop) (xs : list A)
    (body : A → unit → M unit) :
  (∀ w, R w w) → (∀ a b c, R a b → R b c → R a c) →
  (∀ x w r w', body x tt w = (r, w') → R w w') →
  ∀ w r w', for_each xs body tt w = (r, w') → R w w'.
Proof.
  intros Hrefl Htrans Hb. induction xs as [|x xs IH]; intros w r w'; simpl.
  - intros [= <- <-]. apply Hrefl.
  - intros H.
    apply bind_inv in H as [([] & w1 & Hx & H)|(e & Hx & _)].
    + eapply Htrans; [eapply Hb; exact Hx | eapply IH; exact H].
    + eapply Hb; exact Hx.
Qed.

Lemma os_walk_rel (R : world → world → Prop)
    (body : path → list pystr → M unit) :
  (∀ w, R w w) → (∀ a b c, R a b → R b c → R a c) →
  (∀ top files w r w', body top files w = (r, w') → R w w') →
  ∀ fuel stack w r w', os_walk fuel body stack w = Some (r, w') → R w w'.
Proof.
  intros Hrefl Htrans Hb. induction fuel as [|fuel IH];
    intros stack w r w'; cbn [os_walk]; [discriminate|].
  destruct stack as [|top rest]; [intros [= <- <-]; apply Hrefl|].
  destruct (fs w !! top) as [[|t]|]; try apply IH.
  destruct (scandir (fs w) top) as [dirs files].
  destruct (body top files w) as [[[]|e] w1] eqn:E.
  - intros H. eapply Htrans; [eapply Hb; exact E | eapply IH; exact H].
  - intros [= <- <-]. eapply Hb; exact E.
Qed.

Lemma ancestors_prefix (p q : path) :
  In q (ancestors_and_self p) → q `prefix_of` p.
Proof.
  unfold ancestors_and_self. intros H.
  apply in_map_iff in H as (n & <- & _).
  exists (skipn n p). symmetry. apply firstn_skipn.
Qed.

Lemma removelast_prefix (p : path) : removelast p `prefix_of` p.
Proof.
  destruct p as [|x p]; [exists []; reflexivity|].
  exists [List.last (x :: p) []]. apply app_removelast_last. discriminate.
Qed.

Lemma prefix_of_destination (q rel : path) :
  q `prefix_of` (DEST_DIR SOURCE_DIR CODE ++ rel) →
  in_destination_tree SOURCE_DIR CODE q.
Proof.
  intros (k & Hk). symmetry in Hk.
  apply app_eq_app in Hk as (l & [[H1 H2]|[H1 H2]]).
  - right. exists l. exact H1.
  - left. exists l. exact H1.
Qed.

(** The paths a call of [translate_file] brings into being lie on the way
    to its destination. *)
Lemma translate_file_new_paths (source_file dest_file : path)
    (src tgt : pystr) (w w' : world) (r : result unit) (q : path) :
  translate_file U py_str client yaml_safe_load yaml_dump CODE
    source_file dest_file src tgt w = (r, w') →
  fs w !! q = None → fs w' !! q ≠ None → q `prefix_of` dest_file.
Proof.
  intros H Hnone Hsome.
  apply translate_file_fs in H
    as [Hfs|(w3 & w4 & r4 & H3 & Hmk & Hend)]; [congruence|].
  unfold mkdir_parents in Hmk.
  apply mkdir_loop_effects in Hmk as (_ & _ & _ & Hnew).
  rewrite H3 in Hnew.
  assert (Hanc : fs w4 !! q ≠ None → q `prefix_of` dest_file).
  { intros H4. destruct (fs w4 !! q) as [n|] eqn:E; [|contradiction].
    destruct (Hnew q n Hnone E) as [_ Hin].
    apply ancestors_prefix in Hin.
    etrans; [exact Hin|apply removelast_prefix]. }
  destruct Hend as [Hfs|(text & _ & Hfs)]; rewrite Hfs in Hsome.
  - apply Hanc. exact Hsome.
  - destruct (decide (dest_file = q)) as [->|Hne]; [reflexivity|].
    rewrite lookup_insert_ne in Hsome by assumption. apply Hanc. exact Hsome.
Qed.

Lemma process_entry_confined (src tgt : pystr) (root : path) (file : pystr)
    (w w' : world) (r : result unit) (q : path) :
  entry src tgt root file w = (r, w') →
  fs w !! q = None → fs w' !! q ≠ None →
  in_destination_tree SOURCE_DIR CODE q.
Proof.
  unfold process_entry. destruct (endswith (u ".md") file);
    [|intros [= <- <-]; congruence].
  unfold bind at 1. unfold lift at 1.
  destruct (relative_to SOURCE_DIR (root ++ [file])) as [rel|e];
    [|intros [= <- <-]; congruence].
  unfold bind at 1.
  destruct (exists_ (DEST_DIR SOURCE_DIR CODE ++ rel) w).
  - intros H Hnone Hsome.
    rewrite (keeps_files_run _ _ _ _ (keeps_files_print _) H) in Hsome.
    contradiction.
  - intros H Hnone Hsome.
    apply bind_inv in H as [([] & w1 & Hp & H)|(e & Hp & _)];
      [|discriminate Hp].
    apply (keeps_files_run _ _ _ _ (keeps_files_print _)) in Hp.
    rewrite <- Hp in Hnone.
    apply (prefix_of_destination q rel).
    eapply translate_file_new_paths; eassumption.
Qed.

(** X18. A run writes into the destination tree only: a path that did not
    exist before a run of [process_directory] or of [main] and exists
    after it lies below the destination root ([SOURCE_DIR/<code>]) or is
    that root or one of its ancestors.  Nothing is ever created inside the
    source directories unless the destination root lies there. *)
Theorem writes_confined_to_destination_tree (w : world) (q : path) :
  fs w !! q = None →
  (∀ fuel directory src tgt r w',
     walk_directory fuel directory src tgt w = Some (r, w') →
     fs w' !! q ≠ None → in_destination_tree SOURCE_DIR CODE q)
  ∧ (∀ SL DL fuel r w',
       main U py_str client yaml_safe_load yaml_dump SOURCE_DIR SL DL CODE
         fuel w = Some (r, w') →
       fs w' !! q ≠ None → in_destination_tree SOURCE_DIR CODE q).
Proof.
  intros Hnone.
  set (R := fun a b : world =>
              fs a !! q = None → fs b !! q ≠ None →
              in_destination_tree SOURCE_DIR CODE q).
  assert (Hrefl : ∀ a, R a a) by (intros a H1 H2; contradiction).
  assert (Htrans : ∀ a b c, R a b → R b c → R a c).
  { intros a b c Hab Hbc Ha Hc.
    destruct (fs b !! q) as [n|] eqn:E.
    - apply Hab; [exact Ha|]. rewrite E. discriminate.
    - apply Hbc; [exact E|exact Hc]. }
  assert (Hdir : ∀ fuel directory src tgt w1 r w1',
            walk_directory fuel directory src tgt w1 = Some (r, w1') →
            R w1 w1').
  { intros fuel directory src tgt w1 r w1'. unfold process_directory.
    apply (os_walk_rel R); [exact Hrefl|exact Htrans|].
    intros top files w2 r2 w2'.
    apply (for_each_rel R); [exact Hrefl|exact Htrans|].
    intros file w3 r3 w3' H. unfold R.
    eapply process_entry_confined; exact H. }
  split.
  - intros fuel directory src tgt r w' Hrun.
    exact (Hdir _ _ _ _ _ _ _ Hrun Hnone).
  - intros SL DL fuel r w' Hrun Hsome. unfold main in Hrun.
    revert w Hnone Hrun. generalize DIRECTORIES as ds.
    induction ds as [|directory ds IH]; intros w1 Hnone1; simpl.
    + intros [= _ <-]. contradiction.
    + destruct (process_directory _ _ _ _ _ _ _ _ _ _ _ w1)
        as [[[[]|e] w2]|] eqn:E; [| |discriminate].
      * intros Hrest. destruct (fs w2 !! q) as [n|] eqn:E2.
        -- apply (Hdir _ _ _ _ _ _ _ E Hnone1). rewrite E2. discriminate.
        -- apply (IH w2 E2 Hrest).
      * intros [= _ <-]. apply (Hdir _ _ _ _ _ _ _ E Hnone1 Hsome).
Qed.

(** X19. The script as a whole: with a number of arguments other than
    four it prints the usage line and exits with status 1 before anything
    is read, written or sent; and however it is invoked and however it
    ends, every file and directory that existed is still there,
    unchanged. *)
Theorem script_never_destroys (Path : pystr → path) (argv : list pystr)
    (fuel : nat) (w w' : world) (e : ending) :
  script U py_str client yaml_safe_load yaml_dump Path argv fuel w
  = Some (e, w') →
  (∀ q n, fs w !! q = Some n → fs w' !! q = Some n)
  ∧ (length argv ≠ 5%nat →
     e = SystemExit 1 ∧ fs w' = fs w ∧ calls w' = calls w
     ∧ stdout w' = stdout w ++ [USAGE])
  ∧ (length argv = 5%nat → e ≠ SystemExit 1).
Proof.
  unfold script. destruct (Nat.eqb (length argv) 5) eqn:E; simpl.
  - apply Nat.eqb_eq in E.
    destruct (main _ _ _ _ _ _ _ _ _ _ w) as [[[[]|x] w1]|] eqn:Hmain;
      try discriminate; intros [= <- <-];
      (split; [|split; [contradiction|discriminate]]);
      intros q n Hq;
      (eapply map_subseteq_spec; [eapply main_grows; exact Hmain|exact Hq]).
  - apply Nat.eqb_neq in E. intros [= <- <-].
    split; [auto|]. split; [auto|contradiction].
Qed.

End Walker.

Lemma site_translated_completed :
  batch_completed Sample.SITE (u "fr") DIRECTORIES (fs Sample.site_translated).
Proof.
  intros directory rel file content Hd Hfile Hmd.
  assert (Hcase : directory = u "pages" ∧ rel = [] ∧ file = u "about.md").
  { unfold Sample.site_translated, Sample.tree in Hfile. cbn [fs] in Hfile.
    apply elem_of_list_to_map_2 in Hfile.
    repeat (apply elem_of_cons in Hfile as [Hfile|Hfile]);
      try (apply elem_of_nil in Hfile; contradiction);
      apply pair_equal_spec in Hfile as [Hkey Hnode];
      try discriminate Hnode;
      apply (app_inv_head Sample.SITE) in Hkey;
      apply (f_equal (fun l => (head l, tail l))) in Hkey;
      cbn [head tail] in Hkey; apply pair_equal_spec in Hkey as [Hdir Hrest];
      injection Hdir as ->.
    - destruct rel as [|x [|y rel]]; try discriminate Hrest.
      injection Hrest as ->. auto.
    - exfalso. vm_compute in Hd. intuition discriminate. }
  destruct Hcase as (-> & -> & ->). vm_compute. discriminate.
Qed.

Lemma completed_batch_is_idle_witness :
  ∃ w',
    main Sample.latin1 Sample.py_str Sample.shouting Sample.yaml_safe_load
      Sample.yaml_dump Sample.SITE (u "English") (u "French") (u "fr") 8
      Sample.site_translated = Some (Ok tt, w')
    ∧ fs w' = fs Sample.site_translated
    ∧ calls w' = calls Sample.site_translated.
Proof.
  refine (proj2 (completed_batch_is_idle Sample.latin1 Sample.py_str
                   Sample.shouting Sample.yaml_safe_load Sample.yaml_dump
                   Sample.SITE (u "fr") Sample.site_translated 8 _)
            site_translated_completed _ _).
  vm_compute. lia.
Defined.

Lemma site_assets_no_markdown : no_markdown (fs Sample.site_assets).
Proof.
  intros p name content Hfile Hlast.
  unfold Sample.site_assets, Sample.site_with, Sample.tree in Hfile.
  cbn [fs] in Hfile. apply elem_of_list_to_map_2 in Hfile.
  repeat (apply elem_of_cons in Hfile as [Hfile|Hfile]);
    try (apply elem_of_nil in Hfile; contradiction);
    apply pair_equal_spec in Hfile as [Hkey Hnode];
    try discriminate Hnode.
  subst p. vm_compute in Hlast. injection Hlast as <-.
  vm_compute. reflexivity.
Qed.

Lemma other_files_ignored_witness :
  process_directory Sample.latin1 Sample.py_str Sample.shouting
    Sample.yaml_safe_load Sample.yaml_dump Sample.SITE (u "fr") 5
    (u "pages") (u "English") (u "French") Sample.site_assets
  = Some (Ok tt, Sample.site_assets).
Proof.
  apply other_files_ignored; [exact site_assets_no_markdown|].
  vm_compute. lia.
Defined.

Lemma writes_confined_to_destination_tree_witness :
  match
    main Sample.latin1 Sample.py_str Sample.shouting Sample.yaml_safe_load
      Sample.yaml_dump Sample.SITE (u "English") (u "French") (u "fr") 10
      Sample.site_untranslated
  with
  | Some (r, w') =>
    fs w' !! (Sample.SITE ++ [u "fr"; u "pages"]) ≠ None →
    in_destination_tree Sample.SITE (u "fr")
      (Sample.SITE ++ [u "fr"; u "pages"])
  | None => False
  end.
Proof.
  destruct (main Sample.latin1 Sample.py_str Sample.shouting
              Sample.yaml_safe_load Sample.yaml_dump Sample.SITE
              (u "English") (u "French") (u "fr") 10
              Sample.site_untranslated) as [[r w']|] eqn:E.
  - refine (proj2 (writes_confined_to_destination_tree Sample.latin1
                     Sample.py_str Sample.shouting Sample.yaml_safe_load
                     Sample.yaml_dump Sample.SITE (u "fr")
                     Sample.site_untranslated
                     (Sample.SITE ++ [u "fr"; u "pages"]) _)
              _ _ _ _ _ E).
    vm_compute. reflexivity.
  - exfalso.
    match type of E with
    | ?run = None =>
      assert (H : finished run = true) by (vm_compute; reflexivity);
      rewrite E in H; discriminate H
    end.
Defined.

Lemma script_never_destroys_witness :
  match
    script Sample.latin1 Sample.py_str Sample.shouting Sample.yaml_safe_load
      Sample.yaml_dump Sample.Path
      [u "jekyll_translator.py"; u "site"; u "English"; u "French"; u "fr"]
      10 Sample.site_untranslated
  with
  | Some (e, w') =>
    (∀ q n, fs Sample.site_untranslated !! q = Some n → fs w' !! q = Some n)
    ∧ e ≠ SystemExit 1
  | None => False
  end.
Proof.
  destruct (script Sample.latin1 Sample.py_str Sample.shouting
              Sample.yaml_safe_load Sample.yaml_dump Sample.Path
              [u "jekyll_translator.py"; u "site"; u "English"; u "French";
               u "fr"] 10 Sample.site_untranslated) as [[e w']|] eqn:E.
  - destruct (script_never_destroys Sample.latin1 Sample.py_str
                Sample.shouting Sample.yaml_safe_load Sample.yaml_dump
                Sample.Path _ _ _ _ _ E) as (Hkeep & _ & Hexit).
    split; [exact Hkeep|]. apply Hexit. reflexivity.
  - exfalso.
    match type of E with
    | ?run = None =>
      assert (H : finished run = true) by (vm_compute; reflexivity);
      rewrite E in H; discriminate H
    end.
Defined.

Section Termination.

Variable U : unicode_tables.
Variable py_str : pyval → pystr.
Variable client : list request → request → reply.
Variable yaml_safe_load : pystr → result pyval.
Variable yaml_dump : pyval → pystr.
Variable SOURCE_DIR : path.
Variable CODE : pystr.

Local Abbreviation entry :=
  (process_entry U py_str client yaml_safe_load yaml_dump SOURCE_DIR CODE).
Local Abbreviation walk_directory :=
  (process_directory U py_str client yaml_safe_load yaml_dump SOURCE_DIR CODE).
Local Abbreviation outside :=
  (fun a b : world =>
     ∀ k, ¬ in_destination_tree SOURCE_DIR CODE k → fs b !! k = fs a !! k).









End Termination.

